(** * MinMaxABMO2: time-bounded alpha-beta search for the 2048 agent

    A shallow embedding of [src/MinMaxABMO2.py] (class [Player]) and the
    properties of it that the specification states.

    - Python [int]s are [Z]; Python [float]s are the kernel's binary64
      numbers ([PrimFloat]), so the evaluator's arithmetic is the
      interpreter's, rounding included.
    - The values that the search compares ([int] scores, [float] evaluations,
      the sentinels [-10000], [1e6] and the two infinities) live in a type
      [V] of numeric values, an instance of [Number].
    - The game engine ([Game2048]) is not part of these sources; it is the
      interface [Game].
    - [self] is the record [Player]; methods that update it are written in
      a state monad [M].
    - The games of [src/Runner.py] that drive the agent are the module
      [Runner], and the agent that [src/LearningAgent.py] ends with is the
      module [Variant]; their properties follow those of the specification. *)

From Stdlib Require Import ZArith List Bool String Floats QArith Lia.
From Stdlib Require Import Permutation Sorted.
Import ListNotations.

Set Warnings "-inexact-float".

Local Open Scope Z_scope.

(* ================================================================== *)
(** * Numbers *)

(** The numeric value of a Python number: comparison of an [int] with a
    [float] is by exact value in Python, so one ordered type holds both.
    [ltb a b] is [a < b]; the laws are those of a strict total order with
    the infinities at its ends (no NaN takes part in the search). *)
Class Number (V : Type) : Type := {
  ltb : V -> V -> bool;
  of_int : Z -> V;
  of_float : float -> V;
  ltb_irrefl : forall a, ltb a a = false;
  ltb_trans : forall a b c, ltb a b = true -> ltb b c = true -> ltb a c = true;
  ltb_connex : forall a b, ltb a b = false -> ltb b a = false -> a = b;
  neg_inf_least : forall v, ltb v (of_float neg_infinity) = false;
  pos_inf_greatest : forall v, ltb (of_float infinity) v = false;
  inf_apart : ltb (of_float neg_infinity) (of_float infinity) = true
}.

(** [a >= b] *)
Definition geb {V} `{Number V} (a b : V) : bool := negb (ltb a b).

(** [a <= b] *)
Definition leb {V} `{Number V} (a b : V) : bool := negb (ltb b a).

(** Python's [max(a, b)]: the first argument unless the second is greater. *)
Definition pymax {V} `{Number V} (a b : V) : V := if ltb a b then b else a.

(** Python's [min(a, b)]: the first argument unless the second is smaller. *)
Definition pymin {V} `{Number V} (a b : V) : V := if ltb b a then b else a.

(** ** The concrete numbers

    Every [int] and every finite binary64 number is a whole multiple of
    [2^-1074], the spacing of the smallest subnormals. A finite value is
    kept as that multiple, which makes the order the order of [Z] and
    equality of values Leibniz equality. *)
Inductive pyvalue : Type :=
| NegInf : pyvalue
| Fin : Z -> pyvalue
| PosInf : pyvalue.

Definition unit_exp : Z := 1074.

Definition pyvalue_ltb (a b : pyvalue) : bool :=
  match a, b with
  | NegInf, NegInf => false
  | NegInf, _ => true
  | Fin _, NegInf => false
  | Fin x, Fin y => x <? y
  | Fin _, PosInf => true
  | PosInf, _ => false
  end.

Definition pyvalue_of_int (z : Z) : pyvalue := Fin (z * 2 ^ unit_exp).

(** The exact value of a binary64 number. NaN has no value; it is sent to
    [NegInf] and is never produced by the code modelled here for a score
    below [2^1023]. *)
Definition pyvalue_of_float (f : float) : pyvalue :=
  match Prim2SF f with
  | S754_zero _ => Fin 0
  | S754_infinity false => PosInf
  | S754_infinity true => NegInf
  | S754_nan => NegInf
  | S754_finite s m e =>
      let mag := Z.pos m * 2 ^ (e + unit_exp) in
      Fin (if s then - mag else mag)
  end.

(** [float(z)]: conversion of an [int], to nearest, ties to even. (Python
    raises [OverflowError] from [2^1024] on; the model gives infinity.) *)
Definition float_of_int (z : Z) : float :=
  SF2Prim (binary_normalize prec emax z 0 false).

(* ================================================================== *)
(** * The static evaluator ([Player.heuristic] and its helpers)

    Each function takes what the method reads from [state]: the board
    [state._board] and, for [heuristic], the score [state.getScore()]. *)

Module Evaluator.

Local Open Scope float_scope.

Definition Board := list Z.

(** [board[i]], on the 16-cell boards of the game. *)
Definition cell (board : Board) (i : nat) : Z := nth i board 0%Z.

(** [max(board)] *)
Definition max_tile (board : Board) : Z :=
  match board with
  | [] => 0%Z
  | x :: rest => fold_left Z.max rest x
  end.

Definition tile_weights : list float :=
  [ 4.0; 3.0; 2.0; 1.0;
    3.0; 1.0; 1.5; 1.0;
    2.0; 1.5; 1.0; 0.5;
    1.0; 0.5; 0.25; 0.1 ].

(** [sum(board[i] * tile_weights[i] for i in range(16))]: the sum starts
    from the [int] [0] and adds the products from left to right. *)
Definition weighted_sum (board : Board) : float :=
  fold_left
    (fun acc i => acc + float_of_int (cell board i) * nth i tile_weights 0)
    (seq 0 16) (float_of_int 0).

(** [anchor_penalty]: [1.0 if board[0] == max(board) else 0.0] *)
Definition anchor_penalty (board : Board) : float :=
  if (cell board 0 =? max_tile board)%Z then 1.0 else 0.0.

(** One of the two [for i in range(3)] loops of [monotonic_chain_score]:
    [steps] lists the index pairs compared, [chain] is the running count,
    and the [else] branch is the [break]. *)
Fixpoint chain_loop (board : Board) (steps : list (nat * nat)) (chain : Z) : Z :=
  match steps with
  | [] => chain
  | (i, j) :: rest =>
      if ((cell board j <=? cell board i) && (0 <? cell board j))%Z
      then chain_loop board rest (chain + 1)%Z
      else chain
  end.

Definition row_chain (board : Board) : Z :=
  chain_loop board [(0, 1); (1, 2); (2, 3)]%nat 1%Z.

Definition col_chain (board : Board) : Z :=
  chain_loop board [(0, 4); (4, 8); (8, 12)]%nat 1%Z.

(** [max(row_chain, col_chain) / 4.0] *)
Definition monotonic_chain_score (board : Board) : float :=
  float_of_int (Z.max (row_chain board) (col_chain board)) / 4.0.

(** [0.8 * anchor + 0.2 * chain] *)
Definition improved_corner_score (board : Board) : float :=
  0.8 * anchor_penalty board + 0.2 * monotonic_chain_score board.

(** [min(1.0, weighted_sum / (2048 * 4.0))] *)
Definition tile_gradient_score (board : Board) : float :=
  let max_possible := float_of_int 2048 * 4.0 in
  let normalized := weighted_sum board / max_possible in
  if normalized <? 1.0 then normalized else 1.0.

Definition SCORE_WEIGHT : float := 1.0.
Definition CORNER_BONUS_PCT : float := 0.55.
Definition GRADIENT_BONUS_PCT : float := 0.12.

(** [sum(1 for cell in board if cell == 0)] *)
Definition empty_tiles (board : Board) : Z :=
  Z.of_nat (List.length (filter (fun c => (c =? 0)%Z) board)).

(** The tier of [EMPTY_TILE_PCT] selected by the number of filled cells. *)
Definition tile_pct (board : Board) : float :=
  let filled := (16 - empty_tiles board)%Z in
  if (12 <=? filled)%Z then 0.02
  else if (8 <=? filled)%Z then 0.018
  else 0.015.

(** The summand [base_score * CORNER_BONUS_PCT * corner_score] that
    [heuristic] adds for corner anchoring. *)
Definition corner_term (board : Board) (base_score : Z) : float :=
  float_of_int base_score * CORNER_BONUS_PCT * improved_corner_score board.

Definition heuristic (board : Board) (base_score : Z) : float :=
  let value := float_of_int base_score * SCORE_WEIGHT in
  let value := value + corner_term board base_score in
  let empty_bonus :=
    float_of_int base_score * tile_pct board * float_of_int (empty_tiles board) in
  let value := value + empty_bonus in
  let value :=
    value + float_of_int base_score * GRADIENT_BONUS_PCT * tile_gradient_score board in
  if ((base_score <? 1000) && (cell board 0 =? max_tile board))%Z
  then value + 0.03 * float_of_int base_score
  else if ((base_score <? 2000) && (cell board 0 =? max_tile board))%Z
  then value + 0.02 * float_of_int base_score
  else value.

End Evaluator.

(* ================================================================== *)
(** * The game engine, as the search uses it *)

(** An action is the string the engine hands out (['U'], ['D'], ...). *)
Definition Action := string.

(** The methods and the attribute of a [Game2048] state that [Player]
    calls. [possibleTiles] yields pairs [(t, v)] which [addTile] takes
    back. *)
Class Game (State : Type) : Type := {
  actions : State -> list Action;
  move : State -> Action -> State;
  _board : State -> list Z;
  possibleTiles : State -> list (Z * Z);
  addTile : State -> Z -> Z -> State;
  gameOver : State -> bool;
  getScore : State -> Z
}.

(** [result._board == state._board] *)
Definition same_board (b1 b2 : list Z) : bool :=
  if list_eq_dec Z.eq_dec b1 b2 then true else false.

(* ================================================================== *)
(** * The player object *)

(** The attributes of [self]. The six counters are those of [__init__].
    [_move] and [ticks] stand for the state of [BasePlayer]. *)
Record Player : Type := mkPlayer {
  _nodeCount : Z;
  _parentCount : Z;
  _childCount : Z;
  _depthCount : Z;
  _count : Z;
  _pruneCount : Z;
  _move : option Action;
  ticks : nat
}.

(** [Player(timeLimit)] before any clock is started. *)
Definition new_player : Player := mkPlayer 0 0 0 0 0 0 None 0.

(** Code that reads and updates [self]. *)
Definition M (A : Type) : Type := Player -> A * Player.

Definition ret {A} (a : A) : M A := fun p => (a, p).

Definition bind {A B} (c : M A) (k : A -> M B) : M B :=
  fun p => let (a, p') := c p in k a p'.

Notation "x <- c ;; k" := (bind c (fun x => k))
  (at level 61, c at next level, right associativity).
Notation "c ;; k" := (bind c (fun _ => k))
  (at level 61, right associativity).

Definition modify (f : Player -> Player) : M unit := fun p => (tt, f p).

(** [self._nodeCount += 1] and its siblings. *)
Definition bump_nodeCount (p : Player) : Player :=
  mkPlayer (_nodeCount p + 1) (_parentCount p) (_childCount p) (_depthCount p)
           (_count p) (_pruneCount p) (_move p) (ticks p).
Definition bump_parentCount (p : Player) : Player :=
  mkPlayer (_nodeCount p) (_parentCount p + 1) (_childCount p) (_depthCount p)
           (_count p) (_pruneCount p) (_move p) (ticks p).
Definition bump_childCount (p : Player) : Player :=
  mkPlayer (_nodeCount p) (_parentCount p) (_childCount p + 1) (_depthCount p)
           (_count p) (_pruneCount p) (_move p) (ticks p).
Definition bump_depthCount (p : Player) : Player :=
  mkPlayer (_nodeCount p) (_parentCount p) (_childCount p) (_depthCount p + 1)
           (_count p) (_pruneCount p) (_move p) (ticks p).
Definition bump_count (p : Player) : Player :=
  mkPlayer (_nodeCount p) (_parentCount p) (_childCount p) (_depthCount p)
           (_count p + 1) (_pruneCount p) (_move p) (ticks p).
Definition bump_pruneCount (p : Player) : Player :=
  mkPlayer (_nodeCount p) (_parentCount p) (_childCount p) (_depthCount p)
           (_count p) (_pruneCount p + 1) (_move p) (ticks p).

Definition with_move (m : option Action) (p : Player) : Player :=
  mkPlayer (_nodeCount p) (_parentCount p) (_childCount p) (_depthCount p)
           (_count p) (_pruneCount p) m (ticks p).
Definition with_ticks (k : nat) (p : Player) : Player :=
  mkPlayer (_nodeCount p) (_parentCount p) (_childCount p) (_depthCount p)
           (_count p) (_pruneCount p) (_move p) k.

(** Modelled from the spec: [BasePlayer.timeRemaining], which is not in
    these sources. The deadline is one instant fixed when the move starts
    and the clock only moves forward, so the answers over one move are
    [True] some number of times and [False] from then on. [ticks] is that
    number: how many more checks will still pass. *)
Definition timeRemaining : M bool :=
  fun p =>
    match ticks p with
    | O => (false, p)
    | S k => (true, with_ticks k p)
    end.

(** Modelled from the spec: [BasePlayer.setMove], the move-result
    accessor, which is not in these sources: it stores the move. *)
Definition setMove (m : Action) : M unit := modify (with_move (Some m)).

(** Modelled from the spec: [BasePlayer.getMove], which is not in these
    sources: the move last stored. *)
Definition getMove (p : Player) : option Action := _move p.

(** What [Runner.run_game] does before each [findMove]: the clock is
    restarted ([agent._startTime = time.time()]); [k] checks will pass. *)
Definition start_clock (k : nat) (p : Player) : Player := with_ticks k p.

(* ================================================================== *)
(** * [Player.stats] *)

Inductive exn : Type := ZeroDivisionError.

(** [a / b] on [int]s: the exact quotient, of which Python gives the
    nearest [float]. *)
Definition true_div (a b : Z) : exn + Q :=
  if b =? 0 then inl ZeroDivisionError
  else inr (Qdiv (inject_Z a) (inject_Z b)).

(** The lines printed, each as its label and the number formatted into
    it, and the exception that ended the call, if any. *)
Definition stats (p : Player) : list (string * Q) * option exn :=
  match true_div (_depthCount p) (_count p) with
  | inl e => ([], Some e)
  | inr avg =>
      let out := [("Average depth"%string, avg)] in
      match true_div (_childCount p) (_parentCount p) with
      | inl e => (out, Some e)
      | inr bf =>
          (out ++ [("Branching factor"%string, bf);
                   ("Pruned nodes"%string, inject_Z (_pruneCount p))], None)
      end
  end.

(* ================================================================== *)
(** * The search *)

Section Engine.

Context {V : Type} `{Number V} {State : Type} `{Game State}.

(** ** [Player.moveOrder] *)

(** [gradient_score(board)], as the value of the [float] it returns. *)
Definition gradient_score (board : list Z) : V :=
  of_float (Evaluator.weighted_sum board).

(** [list.sort(key=..., reverse=True)] is a stable sort into descending
    key order: [x], which stood before everything in [l], goes in front
    of the first element whose key is not greater than its own. *)
Fixpoint insert_desc {A} (key : A -> V) (x : A) (l : list A) : list A :=
  match l with
  | [] => [x]
  | y :: l' =>
      if ltb (key x) (key y) then y :: insert_desc key x l' else x :: y :: l'
  end.

Definition sort_desc {A} (key : A -> V) (l : list A) : list A :=
  fold_right (insert_desc key) [] l.

(** The list [scored] of [moveOrder] before it is sorted. *)
Definition scored (state : State) : list (Action * V) :=
  map (fun a => (a, gradient_score (_board (move state a)))) (actions state).

Definition moveOrder (state : State) : list Action :=
  map fst (sort_desc snd (scored state)).

(** ** [Player.maxPlayer] and [Player.minPlayer] *)

(** [self.heuristic], as the search calls it: some function from states
    to values. The one of this class is [heuristic_value] below. *)
Variable heuristic : State -> V.

(** The [for a in actions] loop of [maxPlayer]; [child] is the recursive
    call [self.minPlayer(_, depth-1, _, _)]. [None] is Python's [None]. *)
Fixpoint max_loop (child : State -> V -> V -> M (option V)) (state : State)
    (acts : list Action) (best alpha beta : V) : M (option V) :=
  match acts with
  | [] => ret (Some best)
  | a :: rest =>
      t <- timeRemaining ;;
      if negb t then ret None else
      let result := move state a in
      r <- child result alpha beta ;;
      match r with
      | None => ret None
      | Some v =>
          let best := if ltb best v then v else best in
          let alpha := pymax alpha best in
          if geb alpha beta
          then modify bump_pruneCount ;; ret (Some best)
          else max_loop child state rest best alpha beta
      end
  end.

(** The [for (t,v) in state.possibleTiles()] loop of [minPlayer]. *)
Fixpoint min_loop (child : State -> V -> V -> M (option V)) (state : State)
    (tiles : list (Z * Z)) (best alpha beta : V) : M (option V) :=
  match tiles with
  | [] => ret (Some best)
  | (t, tv) :: rest =>
      c <- timeRemaining ;;
      if negb c then ret None else
      let result := addTile state t tv in
      r <- child result alpha beta ;;
      match r with
      | None => ret None
      | Some v =>
          let best := if ltb v best then v else best in
          let beta := pymin beta best in
          if geb alpha beta
          then modify bump_pruneCount ;; ret (Some best)
          else min_loop child state rest best alpha beta
      end
  end.

Fixpoint maxPlayer (depth : nat) (state : State) (alpha beta : V) : M (option V) :=
  modify bump_nodeCount ;;
  modify bump_childCount ;;
  if gameOver state then ret (Some (of_int (getScore state))) else
  match depth with
  | O => ret (Some (heuristic state))
  | S d =>
      let acts := moveOrder state in
      modify bump_parentCount ;;
      max_loop (minPlayer d) state acts (of_int (-10000)) alpha beta
  end

with minPlayer (depth : nat) (state : State) (alpha beta : V) : M (option V) :=
  modify bump_nodeCount ;;
  modify bump_childCount ;;
  if gameOver state then ret (Some (of_int (getScore state))) else
  match depth with
  | O => ret (Some (heuristic state))
  | S d =>
      modify bump_parentCount ;;
      min_loop (maxPlayer d) state (possibleTiles state) (of_float 1e6) alpha beta
  end.

(** ** [Player.findMove] *)

(** The [for a in actions] loop of one depth iteration. [d] is [depth-1];
    [beta] stays at infinity; the two early exits are the [break]s. *)
Fixpoint root_loop (d : nat) (state : State) (acts : list Action)
    (alpha : V) (depthMove : option Action) (depthScore : V)
  : M (option Action * V) :=
  match acts with
  | [] => ret (depthMove, depthScore)
  | a :: rest =>
      let result := move state a in
      if same_board (_board result) (_board state)
      then root_loop d state rest alpha depthMove depthScore
      else
        t <- timeRemaining ;;
        if negb t then ret (depthMove, depthScore) else
        r <- minPlayer d result alpha (of_float infinity) ;;
        match r with
        | None => ret (depthMove, depthScore)
        | Some v =>
            let (depthMove, depthScore) :=
              if ltb depthScore v then (Some a, v) else (depthMove, depthScore) in
            let alpha := pymax alpha v in
            root_loop d state rest alpha depthMove depthScore
        end
  end.

(** The body of [while self.timeRemaining()], up to [depth += 1]. The
    locals [bestMove] and [bestScore] are written and never read again
    except as the argument of [setMove]; they are not kept. *)
Definition depth_iteration (depth : nat) (state : State) (acts : list Action)
  : M unit :=
  modify bump_depthCount ;;
  r <- root_loop (depth - 1) state acts (of_float neg_infinity) None (of_int (-10000)) ;;
  match fst r with
  | Some depthMove => setMove depthMove
  | None => ret tt
  end.

(** [while self.timeRemaining(): ...; depth += 1]. The loop has no bound
    of its own; [fuel] bounds its iterations in the model and the result
    says whether the loop ended by itself ([true]). *)
Fixpoint deepen (fuel : nat) (depth : nat) (state : State) (acts : list Action)
  : M bool :=
  match fuel with
  | O => ret false
  | S fuel' =>
      t <- timeRemaining ;;
      if negb t then ret true else
      depth_iteration depth state acts ;;
      deepen fuel' (S depth) state acts
  end.

(** [findMove]: [Some p'] is the player after the call returned. Every
    iteration of the loop uses up a tick, so [ticks p] iterations and the
    final check are all there can be ([findMove_returns]). *)
Definition findMove (state : State) (p : Player) : option Player :=
  let p := bump_count p in
  let acts := moveOrder state in
  match acts with
  | [] => Some (snd (setMove "U"%string p))
  | a0 :: _ =>
      let (_, p) := setMove a0 p in
      let (finished, p) := deepen (S (ticks p)) 1 state acts p in
      if finished then Some p else None
  end.

End Engine.

(** [self.heuristic(state)] of this class, as a value. *)
Definition heuristic_value {V} `{Number V} {State} `{Game State} (s : State) : V :=
  of_float (Evaluator.heuristic (_board s) (getScore s)).

(* ================================================================== *)
(** * Reference definitions

    What the properties below compare the code with. None of these is
    part of the program. *)

Section Reference.

Context {V : Type} `{Number V} {State : Type} `{Game State}.
Variable heuristic : State -> V.

(** ** The search without pruning

    [maxFull] and [minFull] are [maxPlayer] and [minPlayer] with the
    cut-off test, the deadline and the counters taken out: the running
    [best] of each loop, from its initial value, over all the children. *)
Fixpoint maxFull (depth : nat) (state : State) : V :=
  if gameOver state then of_int (getScore state) else
  match depth with
  | O => heuristic state
  | S d =>
      fold_left (fun best a => pymax best (minFull d (move state a)))
        (moveOrder state) (of_int (-10000))
  end

with minFull (depth : nat) (state : State) : V :=
  if gameOver state then of_int (getScore state) else
  match depth with
  | O => heuristic state
  | S d =>
      fold_left
        (fun best t => pymin best (maxFull d (addTile state (fst t) (snd t))))
        (possibleTiles state) (of_float 1e6)
  end.

(** The full min/max traversal in the words of the specification
    (section 4.3), for the comparison with the code. A node is terminal
    when the game is over (its value is the final score) or at depth zero
    (the evaluator's value); a Max node takes the maximum over its legal
    actions, a Chance node the minimum over all tile placements, and a
    node without children counts as terminal. *)
Fixpoint maxValue (depth : nat) (state : State) : V :=
  if gameOver state then of_int (getScore state) else
  match depth with
  | O => heuristic state
  | S d =>
      match map (fun a => minValue d (move state a)) (actions state) with
      | [] => of_int (getScore state)
      | v :: vs => fold_left pymax vs v
      end
  end

with minValue (depth : nat) (state : State) : V :=
  if gameOver state then of_int (getScore state) else
  match depth with
  | O => heuristic state
  | S d =>
      match map (fun t => maxValue d (addTile state (fst t) (snd t)))
                (possibleTiles state) with
      | [] => of_int (getScore state)
      | v :: vs => fold_left pymin vs v
      end
  end.

(** [-10000 <= v <= 1e6]: between the initial [best] of the two loops. *)
Definition between_sentinels (v : V) : bool :=
  leb (of_int (-10000)) v && leb v (of_float 1e6).

(** Every terminal score and every evaluation met down to [depth] lies
    between the two initial values, and every node that is expanded has a
    child. *)
Fixpoint max_in_range (depth : nat) (state : State) : bool :=
  if gameOver state then between_sentinels (of_int (getScore state)) else
  match depth with
  | O => between_sentinels (heuristic state)
  | S d =>
      negb (Nat.eqb (List.length (actions state)) 0) &&
      forallb (fun a => min_in_range d (move state a)) (actions state)
  end

with min_in_range (depth : nat) (state : State) : bool :=
  if gameOver state then between_sentinels (of_int (getScore state)) else
  match depth with
  | O => between_sentinels (heuristic state)
  | S d =>
      negb (Nat.eqb (List.length (possibleTiles state)) 0) &&
      forallb (fun t => max_in_range d (addTile state (fst t) (snd t)))
              (possibleTiles state)
  end.

(** The number of deadline checks of the search without pruning: one in
    front of every child. A clock with this many ticks left never stops
    the search. *)
Fixpoint max_checks (depth : nat) (state : State) : nat :=
  if gameOver state then O else
  match depth with
  | O => O
  | S d => list_sum (map (fun a => S (min_checks d (move state a))) (moveOrder state))
  end

with min_checks (depth : nat) (state : State) : nat :=
  if gameOver state then O else
  match depth with
  | O => O
  | S d =>
      list_sum (map (fun t => S (max_checks d (addTile state (fst t) (snd t))))
                    (possibleTiles state))
  end.

(** ** Root actions that were evaluated in full

    [FullyEvaluated d state acts alpha p a v]: when the loop of one depth
    iteration runs over [acts] from the player [p] with the window at
    [alpha], it reaches [a], which changes the board, the deadline check
    in front of it passes, and its search returns the value [v]. Every
    action in front of [a] is skipped as a no-op or was evaluated in full
    too; no case lets a search that returned [None] count. *)
Inductive FullyEvaluated (d : nat) (state : State)
  : list Action -> V -> Player -> Action -> V -> Prop :=
| FE_here a rest alpha p p1 p2 v :
    same_board (_board (move state a)) (_board state) = false ->
    timeRemaining p = (true, p1) ->
    minPlayer heuristic d (move state a) alpha (of_float infinity) p1 = (Some v, p2) ->
    FullyEvaluated d state (a :: rest) alpha p a v
| FE_skip a rest alpha p b w :
    same_board (_board (move state a)) (_board state) = true ->
    FullyEvaluated d state rest alpha p b w ->
    FullyEvaluated d state (a :: rest) alpha p b w
| FE_next a rest alpha p p1 p2 v b w :
    same_board (_board (move state a)) (_board state) = false ->
    timeRemaining p = (true, p1) ->
    minPlayer heuristic d (move state a) alpha (of_float infinity) p1 = (Some v, p2) ->
    FullyEvaluated d state rest (pymax alpha v) p2 b w ->
    FullyEvaluated d state (a :: rest) alpha p b w.

(** ** The loop of [findMove], iteration by iteration

    [Deepening state acts depth p p']: the [while] loop of [findMove],
    about to test the clock with the player [p] and with [depth] the
    number of its next iteration, ends with the player [p']. It ends
    when the test fails. When the test passes, the iteration at [depth]
    runs; it leaves the committed move as it was, or it commits a root
    action that was evaluated in full in this iteration, and the loop
    goes on at [depth + 1]. Nothing else writes the committed move. *)
Inductive Deepening (state : State) (acts : list Action)
  : nat -> Player -> Player -> Prop :=
| Deepening_end depth p p' :
    timeRemaining p = (false, p') ->
    Deepening state acts depth p p'
| Deepening_keep depth p p1 p2 p' :
    timeRemaining p = (true, p1) ->
    depth_iteration heuristic depth state acts p1 = (tt, p2) ->
    getMove p2 = getMove p ->
    Deepening state acts (S depth) p2 p' ->
    Deepening state acts depth p p'
| Deepening_commit depth p p1 p2 p' a v :
    timeRemaining p = (true, p1) ->
    depth_iteration heuristic depth state acts p1 = (tt, p2) ->
    FullyEvaluated (depth - 1) state acts (of_float neg_infinity) (bump_depthCount p1) a v ->
    getMove p2 = Some a ->
    Deepening state acts (S depth) p2 p' ->
    Deepening state acts depth p p'.

(** ** The ordering key of the specification

    In the words of the specification: section 4.1 orders the actions by
    [resultingScore + emptyCellCount * emptyTileWeight] with
    [emptyTileWeight = max(16, maxTileValueOnBoard / 8)]. A cell holds an
    exponent and section 3 gives its tile value: [2^exponent], and 0 for an
    empty cell. The largest tile value on the board is that of the largest
    exponent, taken on the board before the move. *)
Definition tileValue (exponent : Z) : Z :=
  if exponent =? 0 then 0 else 2 ^ exponent.

Definition maxTileValueOnBoard (state : State) : Z :=
  tileValue (Evaluator.max_tile (_board state)).

Definition emptyTileWeight (state : State) : Q :=
  let scaled := Qdiv (inject_Z (maxTileValueOnBoard state)) (inject_Z 8) in
  if Qle_bool scaled (inject_Z 16) then inject_Z 16 else scaled.

Definition orderingScore (state : State) (a : Action) : Q :=
  let next_state := move state a in
  Qplus (inject_Z (getScore next_state))
        (Qmult (inject_Z (Evaluator.empty_tiles (_board next_state)))
               (emptyTileWeight state)).

(** The key [moveOrder] sorts by: the gradient of the board after [a]. *)
Definition gradient_key (state : State) (a : Action) : V :=
  gradient_score (_board (move state a)).

(** In a list in [descending] order no element stands behind one with a
    smaller key. *)
Definition descending {A} (key : A -> V) (a b : A) : Prop :=
  ltb (key a) (key b) = false.

(** [a]'s key has the value [k]. *)
Definition has_key {A} (key : A -> V) (k : V) (a : A) : bool :=
  negb (ltb (key a) k) && negb (ltb k (key a)).

(** The elements of [l] whose key has the value [k], in their order. *)
Definition with_key {A} (key : A -> V) (k : V) (l : list A) : list A :=
  filter (has_key key k) l.

(** ** What a search with a window promises

    [within_window alpha beta v m]: the result [v] of a search with the
    window [(alpha, beta)] on a node whose value without pruning is [m].
    Above [alpha] the result does not overstate [m], below [beta] it does
    not understate it; inside the window it is [m]. *)
Definition within_window (alpha beta v m : V) : Prop :=
  (ltb alpha v = true -> ltb m v = false) /\
  (ltb v beta = true -> ltb v m = false).

Definition child_sound (child : State -> V -> V -> M (option V))
    (value : State -> V) : Prop :=
  forall st alpha beta p v p',
    ltb alpha beta = true ->
    child st alpha beta p = (Some v, p') ->
    within_window alpha beta v (value st).

End Reference.

(** ** What a computation does to the clock and to the committed move *)

(** [c] never puts ticks back, leaves the committed move alone, and reads
    nothing of the player but the clock: from two players with the same
    ticks left it returns the same result and leaves the same ticks. *)
Definition framed {A} (c : M A) : Prop :=
  forall p,
    (ticks (snd (c p)) <= ticks p)%nat /\
    _move (snd (c p)) = _move p /\
    forall q, ticks p = ticks q ->
      fst (c p) = fst (c q) /\ ticks (snd (c p)) = ticks (snd (c q)).

(** The same for code that may commit a move: the ticks left never grow,
    and from two players with the same ticks left and the same committed
    move the result, the ticks left and the committed move come out the
    same. *)
Definition steady {A} (c : M A) : Prop :=
  forall p,
    (ticks (snd (c p)) <= ticks p)%nat /\
    forall q, ticks p = ticks q -> _move p = _move q ->
      fst (c p) = fst (c q) /\ ticks (snd (c p)) = ticks (snd (c q)) /\
      _move (snd (c p)) = _move (snd (c q)).

(** From a player with [n] ticks left or more, [c] returns a value and
    uses [n] ticks at most. *)
Definition runs_within {A} (c : M (option A)) (n : nat) : Prop :=
  forall p, (n <= ticks p)%nat ->
    exists v p', c p = (Some v, p') /\ (ticks p <= ticks p' + n)%nat.

(* ================================================================== *)
(** * Concrete numbers and concrete games *)

Lemma pyvalue_ltb_irrefl (a : pyvalue) : pyvalue_ltb a a = false.
Proof. destruct a; simpl; auto using Z.ltb_irrefl. Qed.

Lemma pyvalue_ltb_trans (a b c : pyvalue) :
  pyvalue_ltb a b = true -> pyvalue_ltb b c = true -> pyvalue_ltb a c = true.
Proof.
  destruct a, b, c; simpl; try congruence.
  rewrite !Z.ltb_lt. lia.
Qed.

Lemma pyvalue_ltb_connex (a b : pyvalue) :
  pyvalue_ltb a b = false -> pyvalue_ltb b a = false -> a = b.
Proof.
  destruct a, b; simpl; try congruence.
  rewrite !Z.ltb_ge. intros. f_equal. lia.
Qed.

Lemma pyvalue_neg_inf_least (v : pyvalue) :
  pyvalue_ltb v (pyvalue_of_float neg_infinity) = false.
Proof. destruct v; reflexivity. Qed.

Lemma pyvalue_pos_inf_greatest (v : pyvalue) :
  pyvalue_ltb (pyvalue_of_float infinity) v = false.
Proof. destruct v; reflexivity. Qed.

#[export] Instance pyvalue_Number : Number pyvalue := {
  ltb := pyvalue_ltb;
  of_int := pyvalue_of_int;
  of_float := pyvalue_of_float;
  ltb_irrefl := pyvalue_ltb_irrefl;
  ltb_trans := pyvalue_ltb_trans;
  ltb_connex := pyvalue_ltb_connex;
  neg_inf_least := pyvalue_neg_inf_least;
  pos_inf_greatest := pyvalue_pos_inf_greatest;
  inf_apart := eq_refl
}.

(** A game given by its tree: the board, the score and the game-over flag
    of a position, the position each action leads to, and the position
    each tile placement leads to. *)
#[warnings="-register-all"]
Inductive GameTree : Type :=
| Position (board : list Z) (score : Z) (over : bool)
           (moves : list (Action * GameTree))
           (placements : list (Z * Z * GameTree)).

Definition tree_board (t : GameTree) : list Z :=
  match t with Position b _ _ _ _ => b end.
Definition tree_score (t : GameTree) : Z :=
  match t with Position _ s _ _ _ => s end.
Definition tree_over (t : GameTree) : bool :=
  match t with Position _ _ o _ _ => o end.
Definition tree_moves (t : GameTree) : list (Action * GameTree) :=
  match t with Position _ _ _ m _ => m end.
Definition tree_placements (t : GameTree) : list (Z * Z * GameTree) :=
  match t with Position _ _ _ _ pl => pl end.

Definition tree_move (t : GameTree) (a : Action) : GameTree :=
  match find (fun m => String.eqb (fst m) a) (tree_moves t) with
  | Some (_, t') => t'
  | None => t
  end.

Definition tree_addTile (t : GameTree) (i v : Z) : GameTree :=
  match find (fun pl => Z.eqb (fst (fst pl)) i && Z.eqb (snd (fst pl)) v)
             (tree_placements t) with
  | Some (_, t') => t'
  | None => t
  end.

#[export] Instance GameTree_Game : Game GameTree := {
  actions t := map fst (tree_moves t);
  move := tree_move;
  _board := tree_board;
  possibleTiles t := map fst (tree_placements t);
  addTile := tree_addTile;
  gameOver := tree_over;
  getScore := tree_score
}.

(** A position no move leads out of. *)
Definition leaf (board : list Z) (score : Z) (over : bool) : GameTree :=
  Position board score over [] [].

(* ================================================================== *)
(** * Example positions *)

Local Open Scope string_scope.

(** Two tiles of value 2 side by side in the bottom row; ['D'] would
    change nothing and is not among the actions. *)
Definition bottom_pair : list Z := [0;0;0;0; 0;0;0;0; 0;0;0;0; 1;1;0;0].

(** After ['U']: the two tiles in the top row, nothing merged. *)
Definition after_up : list Z := [1;1;0;0; 0;0;0;0; 0;0;0;0; 0;0;0;0].

(** After ['L']: one tile of value 4 in the bottom-left corner. *)
Definition after_left : list Z := [0;0;0;0; 0;0;0;0; 0;0;0;0; 2;0;0;0].

(** After ['R']: one tile of value 4 in the bottom-right corner. *)
Definition after_right : list Z := [0;0;0;0; 0;0;0;0; 0;0;0;0; 0;0;0;2].

(** The position [bottom_pair] with its three actions, and under each a
    few of the tile placements. *)
Definition opening : GameTree :=
  Position bottom_pair 0 false
    [ ("L", Position after_left 4 false []
              [ ((0, 1), leaf [1;0;0;0; 0;0;0;0; 0;0;0;0; 2;0;0;0] 4 false);
                ((13, 2), leaf [0;0;0;0; 0;0;0;0; 0;0;0;0; 2;2;0;0] 4 false) ]);
      ("R", Position after_right 4 false []
              [ ((0, 1), leaf [1;0;0;0; 0;0;0;0; 0;0;0;0; 0;0;0;2] 4 false) ]);
      ("U", Position after_up 0 false []
              [ ((2, 1), leaf [1;1;1;0; 0;0;0;0; 0;0;0;0; 0;0;0;0] 0 false);
                ((15, 2), leaf [1;1;0;0; 0;0;0;0; 0;0;0;0; 0;0;0;2] 0 false) ]) ]
    [].

(** A full board without two equal neighbours: no action, no placement. *)
Definition full_board : list Z := [1;2;1;2; 2;1;2;1; 1;2;1;2; 2;1;2;1].

(** The end of a game, as the engine reports it. *)
Definition game_over : GameTree := leaf full_board 100 true.

(** The same position from an engine that does not report the end. *)
Definition stuck : GameTree := leaf full_board 100 false.

(** A position whose one action, ['L'], leaves the board as it is. *)
Definition left_aligned : list Z := [1;0;0;0; 2;0;0;0; 0;0;0;0; 0;0;0;0].

Definition noop_only : GameTree :=
  Position left_aligned 0 false
    [ ("L", Position left_aligned 0 false []
              [ ((1, 1), leaf [1;1;0;0; 2;0;0;0; 0;0;0;0; 0;0;0;0] 0 false) ]) ]
    [].

(** The same board with a second action: ['L'] leaves it as it is,
    ['R'] moves both tiles to the right edge. The gradient of the board
    is 10 after ['L'] and 3 after ['R'], so ['L'] comes first. *)
Definition right_aligned : list Z := [0;0;0;1; 0;0;0;2; 0;0;0;0; 0;0;0;0].

Definition noop_first : GameTree :=
  Position left_aligned 0 false
    [ ("L", Position left_aligned 0 false []
              [ ((1, 1), leaf [1;1;0;0; 2;0;0;0; 0;0;0;0; 0;0;0;0] 0 false) ]);
      ("R", Position right_aligned 0 false []
              [ ((0, 1), leaf [1;0;0;1; 0;0;0;2; 0;0;0;0; 0;0;0;0] 0 false) ]) ]
    [].

(** A late position, with a score near four million and one empty cell.
    ['L'] and ['D'] are the two actions that change the board; after
    either, the new tile (a 2 or a 4) fills the board and ends the game. *)
Definition late_board : list Z := [17;16;15;14; 10;11;12;13; 9;8;7;6; 0;3;4;5].

Definition late_game : GameTree :=
  Position late_board 3932160 false
    [ ("L", Position [17;16;15;14; 10;11;12;13; 9;8;7;6; 3;4;5;0] 3932160 false []
              [ ((15, 1),
                 leaf [17;16;15;14; 10;11;12;13; 9;8;7;6; 3;4;5;1] 3932160 true);
                ((15, 2),
                 leaf [17;16;15;14; 10;11;12;13; 9;8;7;6; 3;4;5;2] 3932160 true) ]);
      ("D", Position [0;16;15;14; 17;11;12;13; 10;8;7;6; 9;3;4;5] 3932160 false []
              [ ((0, 1),
                 leaf [1;16;15;14; 17;11;12;13; 10;8;7;6; 9;3;4;5] 3932160 true);
                ((0, 2),
                 leaf [2;16;15;14; 17;11;12;13; 10;8;7;6; 9;3;4;5] 3932160 true) ]) ]
    [].

(** The board with its largest tile away from every corner. *)
Definition centre_heavy : list Z := [1;0;0;0; 0;2;0;0; 0;0;0;0; 0;0;0;0].

(** In the words of the specification: the largest tile is on one of the
    four corners (cells 0, 3, 12 and 15). *)
Definition max_in_corner (board : list Z) : bool :=
  existsb (fun i => Z.eqb (Evaluator.cell board i) (Evaluator.max_tile board))
          [0; 3; 12; 15]%nat.

(** The evaluator of this class on the example positions. *)
Definition tree_heuristic : GameTree -> pyvalue := heuristic_value.

(** An engine on a game tree: its [result] makes the move and takes one
    of the placements listed under it, the [n]-th call the [n]-th of
    them (from the first again when they are used up). *)
Definition tree_result (n : nat) (t : GameTree) (m : option Action) : GameTree :=
  match m with
  | None => t
  | Some a =>
      match tree_placements (tree_move t a) with
      | [] => tree_move t a
      | pl :: rest => snd (nth (n mod S (List.length rest)) (pl :: rest) pl)
      end
  end.

Local Close Scope string_scope.

(* ================================================================== *)
(** * The counters and the clock over a run

    What the properties of the instrumentation are stated with. None of
    these is part of the program. *)

(** The ticks used up between [p] and [p']. *)
Definition spent (p p' : Player) : Z := Z.of_nat (ticks p) - Z.of_nat (ticks p').

(** [tally own slack p p']: from [p] to [p'] the two node counters grow
    by the same amount, which is [own] plus the ticks used up; no more
    nodes are expanded than visited, no more branches cut off than nodes
    expanded (plus [slack], for the loop of a node that is counted
    already), and [_count] and [_depthCount] are left alone. *)
Definition tally (own slack : Z) (p p' : Player) : Prop :=
  _childCount p' - _childCount p = _nodeCount p' - _nodeCount p /\
  _nodeCount p' - _nodeCount p = own + spent p p' /\
  0 <= spent p p' /\
  0 <= _parentCount p' - _parentCount p <= _nodeCount p' - _nodeCount p /\
  0 <= _pruneCount p' - _pruneCount p <= _parentCount p' - _parentCount p + slack /\
  _count p' = _count p /\ _depthCount p' = _depthCount p.

(** [own] is 1 for a node and 0 for a loop. *)
Definition tallies (own slack : Z) {A} (c : M A) : Prop :=
  forall p r p', c p = (r, p') -> tally own slack p p'.

(** The counters as [__init__] leaves them and as the search keeps them:
    the two node counters agree, no more nodes were expanded than
    visited, no more branches cut off than nodes expanded, and none is
    negative. *)
Definition well_counted (p : Player) : Prop :=
  _childCount p = _nodeCount p /\
  0 <= _pruneCount p <= _parentCount p /\
  _parentCount p <= _nodeCount p /\
  0 <= _depthCount p /\ 0 <= _count p.

(** [c] gives up (returns [None]) only with the clock run out. *)
Definition stops_at_deadline {A} (c : M (option A)) : Prop :=
  forall p p', c p = (None, p') -> ticks p' = 0%nat.

(** [c] uses [n] ticks and expands [m] nodes at most, and exactly as
    many when it returns a value without a cut-off anywhere below. *)
Definition spends {A} (c : M (option A)) (n m : nat) : Prop :=
  forall p r p', c p = (r, p') ->
    spent p p' <= Z.of_nat n /\
    _parentCount p' - _parentCount p <= Z.of_nat m /\
    (r <> None -> _pruneCount p' = _pruneCount p ->
     spent p p' = Z.of_nat n /\ _parentCount p' - _parentCount p = Z.of_nat m).

Section FullTree.

Context {V : Type} `{Number V} {State : Type} `{Game State}.

(** The number of nodes the search without pruning expands: those that
    are not the end of the game and have depth left. *)
Fixpoint max_expanded (depth : nat) (state : State) : nat :=
  if gameOver state then O else
  match depth with
  | O => O
  | S d => S (list_sum (map (fun a => min_expanded d (move state a)) (moveOrder state)))
  end

with min_expanded (depth : nat) (state : State) : nat :=
  if gameOver state then O else
  match depth with
  | O => O
  | S d =>
      S (list_sum (map (fun t => max_expanded d (addTile state (fst t) (snd t)))
                       (possibleTiles state)))
  end.

(** [a] changes the board of [state]: the loop over the root actions
    does not skip it. *)
Definition changes_board (state : State) (a : Action) : bool :=
  negb (same_board (_board (move state a)) (_board state)).

(** The number of deadline checks of one depth iteration without
    pruning: one in front of every action that changes the board, and
    those of its search. *)
Definition root_checks (d : nat) (state : State) (acts : list Action) : nat :=
  list_sum (map (fun a => if changes_board state a
                          then S (min_checks d (move state a)) else O) acts).

End FullTree.

(** The cells [i], [j], [k], [l] of [board] hold a chain that
    [monotonic_chain_score] counts in full: no tile is larger than the
    one before it and the last cell is not empty. *)
Definition full_chain (board : list Z) (i j k l : nat) : Prop :=
  Evaluator.cell board j <= Evaluator.cell board i /\
  Evaluator.cell board k <= Evaluator.cell board j /\
  Evaluator.cell board l <= Evaluator.cell board k /\
  0 < Evaluator.cell board l.

(* ================================================================== *)
(** * The evaluator on the boards of the game

    What the properties of [tile_gradient_score] and [heuristic] on
    boards of tile exponents are stated and checked with. None of these
    is part of the program. *)

(** A board of the game: sixteen tile exponents, none above 17. *)
Definition exponent_board (board : list Z) : Prop :=
  List.length board = 16%nat /\ Forall (fun c => 0 <= c <= 17) board.

(** [float(k)] through the conversion of machine integers, which agrees
    with [float_of_int] on the small numbers met here
    ([small_int_agrees]) and is quick to evaluate. *)
Definition small_int (k : Z) : float := PrimFloat.of_uint63 (Uint63.of_Z k).

(** [k / 4] as a [float]: the sums of the first fifteen products of
    [weighted_sum] are of this form. *)
Definition quarter (k : Z) : float := (small_int k / 4)%float.

(** Four times the first fifteen of [tile_weights]. *)
Definition quarter_weights : list Z := [16; 12; 8; 4; 12; 4; 6; 4; 8; 6; 4; 2; 4; 2; 1].

(** The tiles of a cell, the sums of fifteen products (times four), and
    the numbers of empty cells. *)
Definition tile_range : list Z := map Z.of_nat (seq 0 18).
Definition sum_range : list Z := map Z.of_nat (seq 0 1582).
Definition empty_range : list Z := map Z.of_nat (seq 0 17).

(** On every sum [k / 4] and tile [c] in range, adding the product of
    [c] and the weight [w / 4] gives [(k + c * w) / 4] exactly. *)
Definition exact_step (w : Z) : bool :=
  forallb (fun k =>
    forallb (fun c =>
      PrimFloat.Leibniz.eqb (quarter k + small_int c * quarter w)%float
                            (quarter (k + c * w)))
      tile_range)
    sum_range.

(** The exact sum of the first [n] products of [weighted_sum], and the
    sum of the first [n] weights, both times four. *)
Definition exact_sum (board : list Z) (n : nat) : Z :=
  fold_left (fun acc i => acc + Evaluator.cell board i * nth i quarter_weights 0) (seq 0 n) 0.

Definition prefix_weight (n : nat) : Z :=
  fold_left (fun acc i => acc + nth i quarter_weights 0) (seq 0 n) 0.

(** What [tile_gradient_score] and [heuristic] make of a weighted sum
    [k / 4 + c * 0.1]: the normalised sum (8192 is [2048 * 4.0]) is
    below the cap of 1.0, and at a score of 0 its share of the
    evaluation is 0. *)
Definition gradient_check (k c : Z) : bool :=
  let weighted_sum := (quarter k + small_int c * 0.1)%float in
  let normalized := (weighted_sum / 8192)%float in
  (normalized <? 1.0)%float && (0 <=? normalized)%float && (normalized <? 0.05)%float
  && PrimFloat.Leibniz.eqb (0 * Evaluator.GRADIENT_BONUS_PCT * normalized)%float 0%float.

(** The eight values [improved_corner_score] takes: [0.2 * chain] and
    [0.8 + 0.2 * chain] for a chain of 0.25, 0.5, 0.75 and 1
    ([improved_corner_score_values]). *)
Definition corner_scores : list float :=
  [0.05; 0.1; 0.15000000000000002; 0.2;
   0.8500000000000001; 0.9; 0.9500000000000001; 1.0]%float.

(** At the score [s], a machine integer other than 0, the corner term
    [s * CORNER_BONUS_PCT * corner_score] is not zero, whichever of the
    eight values the corner score has. *)
Definition score_check (s : PrimInt63.int) : bool :=
  let t := (PrimFloat.of_uint63 s * Evaluator.CORNER_BONUS_PCT)%float in
  Uint63.eqb s (Uint63.of_Z 0)
  || (negb (PrimFloat.eqb (t * 0.05) 0) && negb (PrimFloat.eqb (t * 0.1) 0)
      && negb (PrimFloat.eqb (t * 0.15000000000000002) 0)
      && negb (PrimFloat.eqb (t * 0.2) 0)
      && negb (PrimFloat.eqb (t * 0.8500000000000001) 0)
      && negb (PrimFloat.eqb (t * 0.9) 0)
      && negb (PrimFloat.eqb (t * 0.9500000000000001) 0)
      && negb (PrimFloat.eqb (t * 1.0) 0))%float.

(** [score_check] on the [2^n] scores from [a] on; [step] is [2^n]. *)
Fixpoint all_scores (n : nat) (a step : PrimInt63.int) : bool :=
  match n with
  | O => score_check a
  | S n' =>
      let half := Uint63.lsr step (Uint63.of_Z 1) in
      all_scores n' a half && all_scores n' (Uint63.add a half) half
  end.

(* ================================================================== *)
(** * [Runner.py]: the games the agent plays *)

Module Runner.

(** What ends a call early: an exception ([ValueError] is that of [max]
    of an empty list), or the fuel of the model running out before the
    game is over. *)
Inductive error : Type := Arithmetic (e : exn) | ValueError.

Inductive outcome (A : Type) : Type :=
| Returned (a : A)
| Raised (e : error)
| Unfinished.
Arguments Returned {A} a.
Arguments Raised {A} e.
Arguments Unfinished {A}.

(** [max(l)] *)
Definition py_max (l : list Z) : outcome Z :=
  match l with
  | [] => Raised ValueError
  | x :: rest => Returned (fold_left Z.max rest x)
  end.

(** [sum(l)] *)
Definition py_sum (l : list Z) : Z := fold_left Z.add l 0.

(** The dictionary [run_game] returns. *)
Record GameResult : Type := mkGameResult {
  score : Z;
  max_tile : Z;
  moves : Z
}.

(** [tile_counts], a [dict] from [int] to [int], in insertion order. *)
Definition dict := list (Z * Z).

(** [d.get(k, default)] *)
Fixpoint get (d : dict) (k default : Z) : Z :=
  match d with
  | [] => default
  | (k', v) :: d' => if k' =? k then v else get d' k default
  end.

(** [d[k] = v]: the entry of [k] is replaced where it stands, a new key
    goes to the end. *)
Fixpoint set (d : dict) (k v : Z) : dict :=
  match d with
  | [] => [(k, v)]
  | (k', v') :: d' => if k' =? k then (k, v) :: d' else (k', v') :: set d' k v
  end.

(** The loop [for tile in max_tiles]; a tile is an exponent read off a
    board and is not negative, so [2**tile] is an [int]. *)
Definition tile_counts (max_tiles : list Z) : dict :=
  fold_left (fun d tile => let tile_val := 2 ^ tile in
                           set d tile_val (get d tile_val 0 + 1))
            max_tiles [].

(** [x < y] on pairs of [int]s. *)
Definition item_ltb (x y : Z * Z) : bool :=
  (fst x <? fst y) || ((fst x =? fst y) && (snd x <? snd y)).

(** [sorted(d.items())]: a stable sort into ascending order. *)
Fixpoint insert_item (x : Z * Z) (l : list (Z * Z)) : list (Z * Z) :=
  match l with
  | [] => [x]
  | y :: l' => if item_ltb y x then y :: insert_item x l' else x :: y :: l'
  end.

Definition sorted_items (d : dict) : list (Z * Z) := fold_right insert_item [] d.

(** [(count / games) * 100], on [int]s that a [float] holds exactly. *)
Definition percentage (count games : Z) : float :=
  (float_of_int count / float_of_int games * 100)%float.

(** What [evaluate_agent] prints once the games are played: the lines of
    [agent.stats()], the four figures of the summary (the total time is
    left out) and the lines of the distribution, each with its tile, its
    count and its percentage. *)
Record Summary : Type := mkSummary {
  agent_stats : list (string * Q);
  games_played : Z;
  avg_score : Q;
  top_score : Z;
  avg_moves : Q;
  distribution : list (Z * Z * float)
}.

Section Games.

Context {V : Type} `{Number V} {State : Type} `{Game State}.
Variable heuristic : State -> V.

(** The engine and the clock as [run_game] meets them, none of which is
    in these sources. [result n state move] is the state that
    [state.result(move)] returns when it is the [n]-th call of the
    evaluation (the engine draws the new tile at random); [randomize i]
    is the state game [i] starts from ([Game2048()] and
    [state.randomize()]); [budget n] is the number of deadline checks
    that pass during the [n]-th [findMove]. *)
Variable result : nat -> State -> option Action -> State.
Variable randomize : nat -> State.
Variable budget : nat -> nat.

(** [while not state.gameOver(): ...] of [run_game]. The loop has no
    bound of its own; [fuel] bounds its iterations in the model, and
    [None] says that it ran out. [n] counts the calls of [findMove]. *)
Fixpoint game_loop (fuel n : nat) (state : State) (agent : Player) (moves : Z)
  : option (State * Player * Z * nat) :=
  if gameOver state then Some (state, agent, moves, n) else
  match fuel with
  | O => None
  | S fuel' =>
      let agent := start_clock (budget n) agent in
      match findMove heuristic state agent with
      | None => None
      | Some agent =>
          let move := getMove agent in
          let state := result n state move in
          game_loop fuel' (S n) state agent (moves + 1)
      end
  end.

(** [run_game(agent)] for game [i]: the dictionary returned, the agent
    as the game leaves it, and the number of [findMove] calls so far. *)
Definition run_game (fuel i n : nat) (agent : Player)
  : outcome (GameResult * Player * nat) :=
  match game_loop fuel n (randomize i) agent 0 with
  | None => Unfinished
  | Some (state, agent, moves, n) =>
      let final_score := getScore state in
      match py_max (_board state) with
      | Returned max_tile => Returned (mkGameResult final_score max_tile moves, agent, n)
      | Raised e => Raised e
      | Unfinished => Unfinished
      end
  end.

(** [for i in range(games)] of [evaluate_agent]; [todo] games are left. *)
Fixpoint games_loop (fuel todo i n : nat) (agent : Player)
    (scores max_tiles : list Z) (total_moves : Z)
  : outcome (list Z * list Z * Z * Player) :=
  match todo with
  | O => Returned (scores, max_tiles, total_moves, agent)
  | S todo' =>
      match run_game fuel i n agent with
      | Returned (r, agent, n) =>
          games_loop fuel todo' (S i) n agent
            (scores ++ [score r]) (max_tiles ++ [max_tile r]) (total_moves + moves r)
      | Raised e => Raised e
      | Unfinished => Unfinished
      end
  end.

(** [evaluate_agent(agent_file, games, time_limit)], the agent being a
    [Player] of [MinMaxABMO2.py]. *)
Definition evaluate_agent (fuel : nat) (games : Z) : outcome Summary :=
  let agent := new_player in
  match games_loop fuel (Z.to_nat games) 0 0 agent [] [] 0 with
  | Raised e => Raised e
  | Unfinished => Unfinished
  | Returned (scores, max_tiles, total_moves, agent) =>
      match true_div (py_sum scores) (Z.of_nat (List.length scores)) with
      | inl e => Raised (Arithmetic e)
      | inr avg_score =>
          match py_max scores with
          | Raised e => Raised e
          | Unfinished => Unfinished
          | Returned max_score =>
              match true_div total_moves games with
              | inl e => Raised (Arithmetic e)
              | inr avg_moves =>
                  match stats agent with
                  | (_, Some e) => Raised (Arithmetic e)
                  | (printed, None) =>
                      Returned
                        (mkSummary printed games avg_score max_score avg_moves
                           (map (fun item => (fst item, snd item,
                                              percentage (snd item) games))
                                (sorted_items (tile_counts max_tiles))))
                  end
              end
          end
      end
  end.

End Games.

End Runner.

(** The games counted in the dictionary [d]. *)
Definition counts_total (d : Runner.dict) : Z :=
  fold_right (fun item acc => snd item + acc) 0 d.

(** The keys of [l] stand in strictly ascending order. *)
Definition ascending_keys (l : list (Z * Z)) : Prop :=
  StronglySorted (fun x y => fst x < fst y) l.

(* ================================================================== *)
(** * The agent of [LearningAgent.py]

    [LearningAgent.py] holds three classes named [Player] one after the
    other: a learning agent and two copies of the agent above, headed
    [MinMaxABMO2 copy 2.py] and [MinMaxABMO2 copy.py]. A module that
    imports the file gets the last one, which is the class modelled
    here. Its [maxPlayer], [minPlayer], [stats] and counters are those
    of [MinMaxABMO2.py]; its [moveOrder], [corner_anchoring],
    [heuristic] and [findMove] are its own. *)

Module Variant.

(** A Python number in the arithmetic of [moveOrder]: an [int] or a
    [float]. *)
Inductive number : Type := Int (z : Z) | Float (f : float).

(** [float(x)] *)
Definition to_float (x : number) : float :=
  match x with
  | Int z => float_of_int z
  | Float f => f
  end.

(** [a * b] and [a + b]: on two [int]s the exact result, otherwise the
    operation on [float]s. *)
Definition mul (a b : number) : number :=
  match a, b with
  | Int x, Int y => Int (x * y)
  | _, _ => Float (to_float a * to_float b)
  end.

Definition add (a b : number) : number :=
  match a, b with
  | Int x, Int y => Int (x + y)
  | _, _ => Float (to_float a + to_float b)
  end.

(** The number as a value of the order. *)
Definition value {V} `{Number V} (x : number) : V :=
  match x with
  | Int z => of_int z
  | Float f => of_float f
  end.

(** [board.index(x)]: the first index that holds [x]. *)
Fixpoint index (board : list Z) (x : Z) : nat :=
  match board with
  | [] => O
  | y :: rest => if y =? x then O else S (index rest x)
  end.

(** One of the two pattern loops of [corner_anchoring]: two points for
    every step in [steps] that does not go up from a cell that is not
    empty. Here no step ends the loop. *)
Definition pattern (board : list Z) (steps : list (nat * nat)) : Z :=
  fold_left
    (fun acc step =>
       if (Evaluator.cell board (snd step) <=? Evaluator.cell board (fst step))
          && (0 <? Evaluator.cell board (fst step))
       then acc + 2 else acc)
    steps 0.

(** [corner_weights[max_idx]], for the four keys of the dictionary. *)
Definition corner_weights (max_idx : nat) : Z :=
  match max_idx with
  | 0%nat => 15
  | 3%nat => 10
  | 12%nat => 10
  | _ => 5
  end.

(** [corner_anchoring], on the 16-cell boards of the game. *)
Definition corner_anchoring (board : list Z) : Z :=
  let max_val := Evaluator.max_tile board in
  let max_idx := index board max_val in
  let score := 0 in
  if negb (existsb (Nat.eqb max_idx) [0; 3; 12; 15]%nat) then 0 else
  let score := score + corner_weights max_idx in
  let '(adjacent, diag, score) :=
    if Nat.eqb max_idx 0 then
      let row_pattern := pattern board [(0, 1); (1, 2); (2, 3)]%nat in
      let col_pattern := pattern board [(0, 4); (4, 8); (8, 12)]%nat in
      ((1%nat, 4%nat), 5%nat, score + (row_pattern + col_pattern))
    else if Nat.eqb max_idx 3 then ((2%nat, 7%nat), 6%nat, score)
    else if Nat.eqb max_idx 12 then ((8%nat, 13%nat), 9%nat, score)
    else ((11%nat, 14%nat), 10%nat, score) in
  let score :=
    fold_left
      (fun score adj =>
         if (0 <? Evaluator.cell board adj)
            && (Evaluator.cell board adj <=? Evaluator.cell board max_idx)
         then score + 5 else score)
      [fst adjacent; snd adjacent] score in
  if (0 <? Evaluator.cell board diag)
     && (Evaluator.cell board diag
         <=? Z.min (Evaluator.cell board (fst adjacent)) (Evaluator.cell board (snd adjacent)))
  then score + 3 else score.

(** [heuristic]: [score * 0.8] is a [float], to which the two [int]
    terms are added one after the other. *)
Definition heuristic (board : list Z) (base_score : Z) : float :=
  let score := (float_of_int base_score * 0.8)%float in
  let corner_value := corner_anchoring board * 20 in
  let empty_tiles := Evaluator.empty_tiles board in
  let filled := 16 - empty_tiles in
  let empty_weight :=
    if 12 <=? filled then 300 else if 8 <=? filled then 250 else 200 in
  let empty_value := empty_tiles * empty_weight in
  (score + float_of_int corner_value + float_of_int empty_value)%float.

Section Engine.

Context {V : Type} `{Number V} {State : Type} `{Game State}.

(** [max(16, max_tile_value / 8)]: the quotient is a [float], and [max]
    returns its first argument unless the second is greater. *)
Definition empty_tile_value (state : State) : number :=
  let max_tile_value := Evaluator.max_tile (_board state) in
  let scaled := (float_of_int max_tile_value / float_of_int 8)%float in
  if ltb (of_int 16) (of_float scaled) then Float scaled else Int 16.

(** [total_score] of [moveOrder] for the action [a]. *)
Definition total_score (state : State) (a : Action) : number :=
  let next_state := move state a in
  let score := getScore next_state in
  let empty_tiles := Evaluator.empty_tiles (_board next_state) in
  add (Int score) (mul (Int empty_tiles) (empty_tile_value state)).

(** The key [moveOrder] sorts by. *)
Definition total_key (state : State) (a : Action) : V := value (total_score state a).

Definition moveOrder (state : State) : list Action :=
  map fst (sort_desc snd (map (fun a => (a, total_key state a)) (actions state))).

Variable heuristic : State -> V.

Fixpoint maxPlayer (depth : nat) (state : State) (alpha beta : V) : M (option V) :=
  modify bump_nodeCount ;;
  modify bump_childCount ;;
  if gameOver state then ret (Some (of_int (getScore state))) else
  match depth with
  | O => ret (Some (heuristic state))
  | S d =>
      let acts := moveOrder state in
      modify bump_parentCount ;;
      max_loop (minPlayer d) state acts (of_int (-10000)) alpha beta
  end

with minPlayer (depth : nat) (state : State) (alpha beta : V) : M (option V) :=
  modify bump_nodeCount ;;
  modify bump_childCount ;;
  if gameOver state then ret (Some (of_int (getScore state))) else
  match depth with
  | O => ret (Some (heuristic state))
  | S d =>
      modify bump_parentCount ;;
      min_loop (maxPlayer d) state (possibleTiles state) (of_float 1e6) alpha beta
  end.

(** The [for a in actions] loop of one depth iteration of [findMove].
    [None] is the [return] out of the loop, and out of [findMove]. *)
Fixpoint root_loop (d : nat) (state : State) (acts : list Action)
    (alpha : V) (bestMove : option Action) (best : V) : M (option (option Action)) :=
  match acts with
  | [] => ret (Some bestMove)
  | a :: rest =>
      let result := move state a in
      t <- timeRemaining ;;
      if negb t then ret None else
      r <- minPlayer d result alpha (of_float infinity) ;;
      match r with
      | None => ret None
      | Some v =>
          let (best, bestMove) :=
            if ltb best v then (v, Some a) else (best, bestMove) in
          let alpha := pymax alpha best in
          root_loop d state rest alpha bestMove best
      end
  end.

(** [while self.timeRemaining(): ...; depth += 1]; [fuel] bounds the
    iterations in the model, and the result says whether [findMove]
    returned ([true]). [self.setMove(bestMove)] stores [None] when no
    action was better than -10000. *)
Fixpoint deepen (fuel : nat) (depth : nat) (state : State) (acts : list Action)
  : M bool :=
  match fuel with
  | O => ret false
  | S fuel' =>
      t <- timeRemaining ;;
      if negb t then ret true else
      modify bump_depthCount ;;
      modify bump_parentCount ;;
      modify bump_nodeCount ;;
      r <- root_loop (depth - 1) state acts (of_float neg_infinity) None (of_int (-10000)) ;;
      match r with
      | None => ret true
      | Some bestMove =>
          modify (with_move bestMove) ;;
          deepen fuel' (S depth) state acts
      end
  end.

Definition findMove (state : State) (p : Player) : option Player :=
  let p := bump_count p in
  let acts := moveOrder state in
  let (finished, p) := deepen (S (ticks p)) 1 state acts p in
  if finished then Some p else None.

End Engine.

(** [self.heuristic(state)] of this class, as a value. *)
Definition heuristic_value {V} `{Number V} {State} `{Game State} (s : State) : V :=
  of_float (heuristic (_board s) (getScore s)).

End Variant.

(** The largest entries of a board for which the weight of an empty
    cell in [Variant.moveOrder] is looked at. *)
Definition small_tiles : list Z := map Z.of_nat (seq 0 129).


(* ================================================================== *)
(** * Order reasoning on [Number] *)

Section Order.

Context {V : Type} `{Number V}.

Lemma ltb_asym (a b : V) : ltb a b = true -> ltb b a = false.
Proof.
  intros Hab. destruct (ltb b a) eqn:Hba; [|reflexivity].
  rewrite <- (ltb_irrefl a). symmetry. eapply ltb_trans; eassumption.
Qed.

Lemma le_lt_trans (a b c : V) : ltb b a = false -> ltb b c = true -> ltb a c = true.
Proof.
  intros Hab Hbc. destruct (ltb a c) eqn:Hac; [reflexivity|].
  destruct (ltb c a) eqn:Hca.
  - rewrite (ltb_trans _ _ _ Hbc Hca) in Hab. discriminate.
  - rewrite (ltb_connex _ _ Hac Hca) in Hab. congruence.
Qed.

Lemma lt_le_trans (a b c : V) : ltb a b = true -> ltb c b = false -> ltb a c = true.
Proof.
  intros Hab Hbc. destruct (ltb a c) eqn:Hac; [reflexivity|].
  destruct (ltb c a) eqn:Hca.
  - rewrite (ltb_trans _ _ _ Hca Hab) in Hbc. discriminate.
  - rewrite <- (ltb_connex _ _ Hac Hca) in Hbc. congruence.
Qed.

Lemma le_trans (a b c : V) : ltb b a = false -> ltb c b = false -> ltb c a = false.
Proof.
  intros Hab Hbc. destruct (ltb c a) eqn:Hca; [|reflexivity].
  rewrite (lt_le_trans _ _ _ Hca Hab) in Hbc. discriminate.
Qed.

End Order.

(** Decides a goal about [ltb], [geb], [leb], [pymax] and [pymin] by cases
    on the comparisons in sight, closing each case with the order laws. *)
Ltac order_norm :=
  repeat match goal with
  | E : ltb ?a ?b = _ |- context [ltb ?a ?b] => rewrite E
  | E : ltb ?a ?b = _, H' : context [ltb ?a ?b] |- _ =>
      tryif constr_eq H' E then fail else rewrite E in H'
  | Himp : true = true -> _ |- _ => specialize (Himp eq_refl)
  | Himp : false = true -> _ |- _ => clear Himp
  | H' : ?x = ?x |- _ => clear H'
  | H' : negb _ = true |- _ => apply negb_true_iff in H'
  | H' : negb _ = false |- _ => apply negb_false_iff in H'
  | |- negb _ = true => apply negb_true_iff
  | |- negb _ = false => apply negb_false_iff
  end.

Ltac order_cases :=
  order_norm;
  repeat (match goal with
          | |- context [if ltb ?a ?b then _ else _] => destruct (ltb a b) eqn:?
          | _ : context [if ltb ?a ?b then _ else _] |- _ =>
              destruct (ltb a b) eqn:?
          | _ : ltb ?a ?b = true -> _ |- _ => destruct (ltb a b) eqn:?
          end; order_norm);
  try lazymatch goal with
      | |- ltb _ _ = _ => idtac
      | |- @eq _ _ _ => apply ltb_connex
      end;
  try match goal with
      | |- ltb ?a ?b = _ => destruct (ltb a b) eqn:?
      end;
  order_norm.

Ltac order_close :=
  try discriminate; try reflexivity; try assumption;
  repeat match goal with
  | Hab : ltb ?a ?b = true, Hba : ltb ?b ?a = true |- _ =>
      rewrite (ltb_asym a b Hab) in Hba; discriminate
  | Haa : ltb ?a ?a = true |- _ => rewrite ltb_irrefl in Haa; discriminate
  | Hab : ltb ?a ?b = true, Hbc : ltb ?b ?c = true |- _ =>
      lazymatch goal with
      | _ : ltb a c = true |- _ => fail
      | _ => pose proof (ltb_trans a b c Hab Hbc)
      end
  | Hab : ltb ?b ?a = false, Hbc : ltb ?b ?c = true |- _ =>
      lazymatch goal with
      | _ : ltb a c = true |- _ => fail
      | _ => pose proof (le_lt_trans a b c Hab Hbc)
      end
  | Hab : ltb ?a ?b = true, Hbc : ltb ?c ?b = false |- _ =>
      lazymatch goal with
      | _ : ltb a c = true |- _ => fail
      | _ => pose proof (lt_le_trans a b c Hab Hbc)
      end
  end;
  try discriminate; try congruence.

Ltac order := unfold geb, leb, pymax, pymin in *; order_cases; order_close.

(* ================================================================== *)
(** * The running maximum and minimum of a loop *)

Section Fold.
Context {V : Type} `{Number V}.

Lemma pymax_fold_ge {A} (g : A -> V) (l : list A) (x : V) :
  ltb (fold_left (fun b a => pymax b (g a)) l x) x = false.
Proof.
  revert x. induction l as [|a l IH]; intros x; simpl.
  - apply ltb_irrefl.
  - specialize (IH (pymax x (g a))). order.
Qed.

Lemma pymax_fold_mono {A} (g : A -> V) (l : list A) (x y : V) :
  ltb y x = false ->
  ltb (fold_left (fun b a => pymax b (g a)) l y)
      (fold_left (fun b a => pymax b (g a)) l x) = false.
Proof.
  revert x y. induction l as [|a l IH]; intros x y Hxy; simpl.
  - assumption.
  - apply IH. order.
Qed.

Lemma pymax_fold_either {A} (g : A -> V) (l : list A) (x y : V) :
  ltb (fold_left (fun b a => pymax b (g a)) l y)
      (fold_left (fun b a => pymax b (g a)) l x) = false
  \/ fold_left (fun b a => pymax b (g a)) l x = x.
Proof.
  revert x y. induction l as [|a l IH]; intros x y; simpl.
  - right; reflexivity.
  - destruct (IH (pymax x (g a)) (pymax y (g a))) as [Hle | Heq]; [left; exact Hle|].
    rewrite Heq.
    destruct (ltb x (g a)) eqn:Hx.
    + left. pose proof (pymax_fold_ge g l (pymax y (g a))). order.
    + right. unfold pymax. rewrite Hx. reflexivity.
Qed.

Lemma pymin_fold_le {A} (g : A -> V) (l : list A) (x : V) :
  ltb x (fold_left (fun b a => pymin b (g a)) l x) = false.
Proof.
  revert x. induction l as [|a l IH]; intros x; simpl.
  - apply ltb_irrefl.
  - specialize (IH (pymin x (g a))). order.
Qed.

Lemma pymin_fold_mono {A} (g : A -> V) (l : list A) (x y : V) :
  ltb y x = false ->
  ltb (fold_left (fun b a => pymin b (g a)) l y)
      (fold_left (fun b a => pymin b (g a)) l x) = false.
Proof.
  revert x y. induction l as [|a l IH]; intros x y Hxy; simpl.
  - assumption.
  - apply IH. order.
Qed.

Lemma pymin_fold_either {A} (g : A -> V) (l : list A) (x y : V) :
  ltb (fold_left (fun b a => pymin b (g a)) l x)
      (fold_left (fun b a => pymin b (g a)) l y) = false
  \/ fold_left (fun b a => pymin b (g a)) l x = x.
Proof.
  revert x y. induction l as [|a l IH]; intros x y; simpl.
  - right; reflexivity.
  - destruct (IH (pymin x (g a)) (pymin y (g a))) as [Hle | Heq]; [left; exact Hle|].
    rewrite Heq.
    destruct (ltb (g a) x) eqn:Hx.
    + left. pose proof (pymin_fold_le g l (pymin y (g a))). order.
    + right. unfold pymin. rewrite Hx. reflexivity.
Qed.
End Fold.

(* ================================================================== *)
(** * Pruning does not change the value *)

Section AlphaBeta.
Context {V : Type} `{Number V} {State : Type} `{Game State}.
Variable heuristic : State -> V.

Lemma max_loop_sound child value state :
  child_sound child value ->
  forall acts best alpha beta p v p',
    ltb alpha beta = true ->
    max_loop child state acts best alpha beta p = (Some v, p') ->
    within_window alpha beta v
      (fold_left (fun b a => pymax b (value (move state a))) acts best).
Proof.
  intros Hchild. induction acts as [|a rest IH]; intros best alpha beta p v p' Hab Hrun.
  - simpl in Hrun. injection Hrun as -> _. simpl. split; intros; order.
  - simpl in Hrun. unfold bind in Hrun.
    destruct (timeRemaining p) as [t p1]. destruct t; simpl in Hrun; [|discriminate].
    destruct (child (move state a) alpha beta p1) as [[c|] p2] eqn:Hc; [|discriminate].
    apply (Hchild _ _ _ _ _ _ Hab) in Hc. destruct Hc as [Hlo Hhi].
    simpl fold_left.
    set (F := fold_left (fun b a => pymax b (value (move state a))) rest) in *.
    remember (value (move state a)) as m eqn:Hm. clear Hm.
    pose proof (pymax_fold_ge (fun a => value (move state a)) rest (pymax best m)) as Hge.
    cbv beta in Hge. fold F in Hge.
    change (if ltb best c then c else best) with (pymax best c) in Hrun.
    destruct (geb (pymax alpha (pymax best c)) beta) eqn:Hcut.
    + simpl in Hrun. injection Hrun as <- _.
      split; intros Hv.
      * assert (ltb (pymax best m) (pymax best c) = false) by (clear Hge; order).
        eapply le_trans; eassumption.
      * clear Hge. order.
    + apply IH in Hrun; [|order]. fold F in Hrun. destruct Hrun as [Hlo' Hhi'].
      pose proof (pymax_fold_ge (fun a => value (move state a)) rest (pymax best c)) as Hge'.
      cbv beta in Hge'. fold F in Hge'.
      split; intros Hv.
      * destruct (ltb (pymax alpha (pymax best c)) v) eqn:Hin.
        -- specialize (Hlo' eq_refl).
           destruct (pymax_fold_either (fun a => value (move state a)) rest (pymax best c) (pymax best m)) as [Hle|Heq]; [cbv beta in Hle; fold F in Hle | cbv beta in Heq; fold F in Heq].
           ++ eapply le_trans; eassumption.
           ++ rewrite Heq in Hlo'. clear Hge Hge' Heq. order.
        -- assert (ltb (pymax best m) v = false) by (clear Hge Hge' Hlo' Hhi'; order).
           eapply le_trans; eassumption.
      * specialize (Hhi' Hv).
        assert (Hle : ltb (pymax best c) (pymax best m) = false).
        { assert (ltb v (pymax best c) = false) by (eapply le_trans; eassumption).
          clear Hge Hge' Hlo' Hhi'. order. }
        pose proof (pymax_fold_mono (fun a => value (move state a)) rest _ _ Hle) as Hmono.
        cbv beta in Hmono. fold F in Hmono. eapply le_trans; eassumption.
Qed.

Lemma min_loop_sound child value state :
  child_sound child value ->
  forall tiles best alpha beta p v p',
    ltb alpha beta = true ->
    min_loop child state tiles best alpha beta p = (Some v, p') ->
    within_window alpha beta v
      (fold_left (fun b t => pymin b (value (addTile state (fst t) (snd t)))) tiles best).
Proof.
  intros Hchild. induction tiles as [|[t tv] rest IH]; intros best alpha beta p v p' Hab Hrun.
  - simpl in Hrun. injection Hrun as -> _. simpl. split; intros; order.
  - simpl in Hrun. unfold bind in Hrun.
    destruct (timeRemaining p) as [k p1]. destruct k; simpl in Hrun; [|discriminate].
    destruct (child (addTile state t tv) alpha beta p1) as [[c|] p2] eqn:Hc; [|discriminate].
    apply (Hchild _ _ _ _ _ _ Hab) in Hc. destruct Hc as [Hlo Hhi].
    simpl fold_left.
    set (F := fold_left (fun b t => pymin b (value (addTile state (fst t) (snd t)))) rest) in *.
    remember (value (addTile state t tv)) as m eqn:Hm. clear Hm.
    pose proof (pymin_fold_le (fun t => value (addTile state (fst t) (snd t))) rest (pymin best m)) as Hge.
    cbv beta in Hge. fold F in Hge.
    change (if ltb c best then c else best) with (pymin best c) in Hrun.
    destruct (geb alpha (pymin beta (pymin best c))) eqn:Hcut.
    + simpl in Hrun. injection Hrun as <- _.
      split; intros Hv.
      * clear Hge. order.
      * assert (ltb (pymin best c) (pymin best m) = false) by (clear Hge; order).
        eapply le_trans; eassumption.
    + apply IH in Hrun; [|order]. fold F in Hrun. destruct Hrun as [Hlo' Hhi'].
      pose proof (pymin_fold_le (fun t => value (addTile state (fst t) (snd t))) rest (pymin best c)) as Hge'.
      cbv beta in Hge'. fold F in Hge'.
      split; intros Hv.
      * specialize (Hlo' Hv).
        assert (Hle : ltb (pymin best m) (pymin best c) = false).
        { assert (ltb (pymin best c) v = false) by (eapply le_trans; eassumption).
          clear Hge Hge' Hlo' Hhi'. order. }
        pose proof (pymin_fold_mono (fun t => value (addTile state (fst t) (snd t))) rest _ _ Hle) as Hmono.
        cbv beta in Hmono. fold F in Hmono. eapply le_trans; eassumption.
      * destruct (ltb v (pymin beta (pymin best c))) eqn:Hin.
        -- specialize (Hhi' eq_refl).
           destruct (pymin_fold_either (fun t => value (addTile state (fst t) (snd t))) rest (pymin best c) (pymin best m)) as [Hle|Heq]; [cbv beta in Hle; fold F in Hle | cbv beta in Heq; fold F in Heq].
           ++ eapply le_trans; eassumption.
           ++ rewrite Heq in Hhi'. clear Hge Hge' Heq. order.
        -- assert (ltb v (pymin best m) = false) by (clear Hge Hge' Hlo' Hhi'; order).
           eapply le_trans; eassumption.
Qed.

Lemma within_window_exact alpha beta v : within_window alpha beta v v.
Proof. split; intros; apply ltb_irrefl. Qed.

Lemma search_sound (depth : nat) :
  child_sound (maxPlayer heuristic depth) (maxFull heuristic depth) /\
  child_sound (minPlayer heuristic depth) (minFull heuristic depth).
Proof.
  induction depth as [|d [IHmax IHmin]].
  - split; intros st alpha beta p v p' Hab Hrun; simpl in *;
      unfold bind, modify, ret in Hrun; simpl in Hrun;
      destruct (gameOver st); injection Hrun as <- _; apply within_window_exact.
  - split; intros st alpha beta p v p' Hab Hrun; simpl in *;
      unfold bind, modify, ret in Hrun; simpl in Hrun;
      destruct (gameOver st).
    + injection Hrun as <- _; apply within_window_exact.
    + eapply max_loop_sound; eassumption.
    + injection Hrun as <- _; apply within_window_exact.
    + eapply min_loop_sound; eassumption.
Qed.

Lemma full_window_exact (v m : V) :
  within_window (of_float neg_infinity) (of_float infinity) v m -> v = m.
Proof.
  intros [Hlo Hhi].
  pose proof (neg_inf_least v). pose proof (neg_inf_least m).
  pose proof (pos_inf_greatest v). pose proof (pos_inf_greatest m).
  order.
Qed.

End AlphaBeta.

(* ================================================================== *)
(** * The clock and the committed move through the search *)

Lemma framed_ret {A} (a : A) : framed (ret a).
Proof. intros p. simpl. auto. Qed.

Lemma framed_modify (f : Player -> Player) :
  (forall p, ticks (f p) = ticks p) -> (forall p, _move (f p) = _move p) ->
  framed (modify f).
Proof.
  intros Ht Hm p. simpl. rewrite Ht, Hm. split; [lia|]. split; [reflexivity|].
  intros q Hq. rewrite (Ht q). auto.
Qed.

Lemma framed_timeRemaining : framed timeRemaining.
Proof.
  intros p. unfold timeRemaining.
  destruct (ticks p) as [|k] eqn:Hp; simpl.
  - rewrite Hp. split; [lia|]. split; [reflexivity|].
    intros q Hq. rewrite <- Hq. simpl. auto.
  - split; [lia|]. split; [reflexivity|].
    intros q Hq. rewrite <- Hq. simpl. auto.
Qed.

Lemma framed_bind {A B} (c : M A) (k : A -> M B) :
  framed c -> (forall a, framed (k a)) -> framed (bind c k).
Proof.
  intros Hc Hk p. unfold bind.
  destruct (Hc p) as (Ht & Hm & Hq).
  destruct (c p) as [a p1] eqn:Hcp. simpl in *.
  destruct (Hk a p1) as (Ht' & Hm' & Hq').
  split; [lia|]. split; [congruence|].
  intros q Hpq. destruct (Hq q Hpq) as [Hfst Hticks].
  destruct (c q) as [a' q1]. simpl in *. subst a'.
  apply Hq'. assumption.
Qed.

Ltac framed_step :=
  match goal with
  | |- framed (bind _ _) => apply framed_bind; [|intros ?]
  | |- framed (ret _) => apply framed_ret
  | |- framed timeRemaining => apply framed_timeRemaining
  | |- framed (modify _) => apply framed_modify; intros; reflexivity
  | |- framed (if ?b then _ else _) => destruct b
  | |- framed (match ?o with Some _ => _ | None => _ end) => destruct o
  | |- framed (let (_, _) := ?x in _) => destruct x
  end.

Section Frames.
Context {V : Type} `{Number V} {State : Type} `{Game State}.
Variable heuristic : State -> V.

Lemma framed_max_loop child state :
  (forall st a b, framed (child st a b)) ->
  forall acts best alpha beta, framed (max_loop child state acts best alpha beta).
Proof.
  intros Hchild. induction acts as [|a rest IH]; intros; simpl; repeat framed_step; auto.
Qed.

Lemma framed_min_loop child state :
  (forall st a b, framed (child st a b)) ->
  forall tiles best alpha beta, framed (min_loop child state tiles best alpha beta).
Proof.
  intros Hchild. induction tiles as [|[t tv] rest IH]; intros; simpl; repeat framed_step; auto.
Qed.

Lemma framed_search (depth : nat) :
  (forall st a b, framed (maxPlayer heuristic depth st a b)) /\
  (forall st a b, framed (minPlayer heuristic depth st a b)).
Proof.
  induction depth as [|d [IHmax IHmin]]; split; intros; simpl; repeat framed_step;
    auto using framed_max_loop, framed_min_loop.
Qed.

Lemma framed_root_loop d state :
  forall acts alpha depthMove depthScore,
    framed (root_loop heuristic d state acts alpha depthMove depthScore).
Proof.
  induction acts as [|a rest IH]; intros; simpl; repeat framed_step; auto.
  apply framed_search.
Qed.


Lemma framed_steady {A} (c : M A) : framed c -> steady c.
Proof.
  intros Hc p. destruct (Hc p) as (Ht & Hm & Hq). split; [assumption|].
  intros q Hpq Hmv. destruct (Hq q Hpq) as [Hf Hk].
  destruct (Hc q) as (_ & Hm' & _). repeat split; congruence.
Qed.

Lemma steady_setMove (m : Action) : steady (setMove m).
Proof. intros p. simpl. split; [lia|]. intros q Hq _. auto. Qed.

Lemma steady_bind {A B} (c : M A) (k : A -> M B) :
  steady c -> (forall a, steady (k a)) -> steady (bind c k).
Proof.
  intros Hc Hk p. unfold bind.
  destruct (Hc p) as (Ht & Hq).
  destruct (c p) as [a p1] eqn:Hcp. simpl in *.
  destruct (Hk a p1) as (Ht' & Hq').
  split; [lia|].
  intros q Hpq Hmv. destruct (Hq q Hpq Hmv) as (Hfst & Hticks & Hmove).
  destruct (c q) as [a' q1]. simpl in *. subst a'.
  apply Hq'; assumption.
Qed.

Lemma steady_depth_iteration depth state acts :
  steady (depth_iteration heuristic depth state acts).
Proof.
  unfold depth_iteration.
  apply steady_bind; [apply framed_steady; repeat framed_step|intros _].
  apply steady_bind; [apply framed_steady, framed_root_loop|intros [dm ds]].
  simpl. destruct dm; [apply steady_setMove|apply framed_steady, framed_ret].
Qed.

Lemma steady_deepen fuel :
  forall depth state acts, steady (deepen heuristic fuel depth state acts).
Proof.
  induction fuel as [|fuel IH]; intros; simpl.
  - apply framed_steady, framed_ret.
  - apply steady_bind; [apply framed_steady, framed_timeRemaining|intros t].
    destruct t; simpl; [|apply framed_steady, framed_ret].
    apply steady_bind; [apply steady_depth_iteration|intros _]. apply IH.
Qed.

(** The loop of [findMove] ends by itself: an iteration starts with a
    check that uses a tick up. *)
Lemma deepen_finishes fuel :
  forall depth state acts p,
    (ticks p < fuel)%nat ->
    fst (deepen heuristic fuel depth state acts p) = true.
Proof.
  induction fuel as [|fuel IH]; intros depth state acts p Hp; [lia|].
  simpl. unfold bind at 1. unfold timeRemaining. cbv beta.
  destruct (ticks p) as [|k] eqn:Hk; simpl; [reflexivity|].
  unfold bind.
  destruct (steady_depth_iteration depth state acts (with_ticks k p)) as [Hle _].
  destruct (depth_iteration heuristic depth state acts (with_ticks k p)) as [u p2].
  simpl in Hle. apply IH. lia.
Qed.

Lemma findMove_unfold state p :
  findMove heuristic state p =
  match moveOrder state with
  | [] => Some (with_move (Some "U"%string) (bump_count p))
  | a0 :: rest =>
      let p1 := with_move (Some a0) (bump_count p) in
      Some (snd (deepen heuristic (S (ticks p1)) 1 state (a0 :: rest) p1))
  end.
Proof.
  unfold findMove. destruct (moveOrder state) as [|a0 rest]; [reflexivity|].
  cbv beta iota zeta delta [setMove modify].
  pose proof (deepen_finishes (S (ticks (with_move (Some a0) (bump_count p)))) 1 state
                (a0 :: rest) (with_move (Some a0) (bump_count p))
                (Nat.lt_succ_diag_r _)) as Hfin.
  destruct (deepen heuristic (S (ticks (with_move (Some a0) (bump_count p)))) 1 state
              (a0 :: rest) (with_move (Some a0) (bump_count p))) as [finished p2].
  simpl in Hfin. subst finished. reflexivity.
Qed.

(** [findMove] returns, whatever the clock says. *)
Lemma findMove_returns state p : exists p', findMove heuristic state p = Some p'.
Proof.
  rewrite findMove_unfold. destruct (moveOrder state); eauto.
Qed.

(** ** Which move a depth iteration can commit *)

Lemma FullyEvaluated_legal d state acts alpha p a v :
  FullyEvaluated heuristic d state acts alpha p a v ->
  In a acts /\ same_board (_board (move state a)) (_board state) = false.
Proof.
  induction 1; simpl; intuition.
Qed.

Lemma root_loop_result d state :
  forall acts alpha depthMove depthScore p depthMove' depthScore' p',
    root_loop heuristic d state acts alpha depthMove depthScore p
      = ((depthMove', depthScore'), p') ->
    (depthMove' = depthMove /\ depthScore' = depthScore) \/
    (exists a, depthMove' = Some a /\
       FullyEvaluated heuristic d state acts alpha p a depthScore').
Proof.
  induction acts as [|a rest IH]; intros alpha dm ds p dm' ds' p' Hrun; simpl in Hrun.
  - injection Hrun as <- <- _. left; auto.
  - destruct (same_board (_board (move state a)) (_board state)) eqn:Hsame.
    + apply IH in Hrun. destruct Hrun as [?|(b & ? & ?)]; [left; assumption|].
      right. exists b. split; [assumption|]. apply FE_skip; assumption.
    + unfold bind in Hrun.
      destruct (timeRemaining p) as [t p1] eqn:Htime.
      destruct t; simpl in Hrun; [|injection Hrun as <- <- _; left; auto].
      destruct (minPlayer heuristic d (move state a) alpha (of_float infinity) p1)
        as [[v|] p2] eqn:Hmin; [|injection Hrun as <- <- _; left; auto].
      destruct (ltb ds v) eqn:Hbetter; apply IH in Hrun.
      * destruct Hrun as [[-> ->]|(b & ? & ?)].
        -- right. exists a. split; [reflexivity|]. eapply FE_here; eassumption.
        -- right. exists b. split; [assumption|]. eapply FE_next; eassumption.
      * destruct Hrun as [?|(b & ? & ?)]; [left; assumption|].
        right. exists b. split; [assumption|]. eapply FE_next; eassumption.
Qed.

Lemma depth_iteration_move depth state acts p :
  let p' := snd (depth_iteration heuristic depth state acts p) in
  getMove p' = getMove p \/
  exists a v, getMove p' = Some a /\
    FullyEvaluated heuristic (depth - 1) state acts (of_float neg_infinity)
      (bump_depthCount p) a v.
Proof.
  unfold depth_iteration, bind, modify. simpl.
  destruct (root_loop heuristic (depth - 1) state acts (of_float neg_infinity) None
              (of_int (-10000)) (bump_depthCount p)) as [[dm ds] p1] eqn:Hrun.
  pose proof (framed_root_loop (depth - 1) state acts (of_float neg_infinity) None
                (of_int (-10000)) (bump_depthCount p)) as (_ & Hmove & _).
  rewrite Hrun in Hmove. simpl in Hmove.
  apply root_loop_result in Hrun. simpl.
  destruct Hrun as [[-> _]|(a & -> & Hfe)]; simpl.
  - left. unfold getMove. assumption.
  - right. exists a, ds. split; [reflexivity|assumption].
Qed.

(** The move the loop of [findMove] leaves committed is the one it found
    or a root action evaluated in full in one of its iterations. *)
Lemma deepen_commit fuel :
  forall depth state acts p p',
    p' = snd (deepen heuristic fuel depth state acts p) ->
    getMove p' = getMove p \/
    exists depth' q a v,
      (depth <= depth')%nat /\ getMove p' = Some a /\
      FullyEvaluated heuristic (depth' - 1) state acts (of_float neg_infinity) q a v.
Proof.
  induction fuel as [|fuel IH]; intros depth state acts p p' Hp'; simpl in Hp';
    [left; subst; reflexivity|].
  unfold bind at 1 in Hp'. unfold timeRemaining in Hp'. cbv beta in Hp'.
  destruct (ticks p) as [|k] eqn:Hk; simpl in Hp'; [left; subst; reflexivity|].
  unfold bind in Hp'.
  pose proof (depth_iteration_move depth state acts (with_ticks k p)) as Hiter.
  destruct (depth_iteration heuristic depth state acts (with_ticks k p)) as [u p2].
  simpl in Hiter.
  specialize (IH (S depth) state acts p2 p' Hp').
  destruct IH as [Hsame|(depth' & q & a & v & Hle & Hset & Hfe)].
  - rewrite Hsame.
    destruct Hiter as [Hkeep|(a & v & Hset & Hfe)]; [left; assumption|].
    right. exists depth, (bump_depthCount (with_ticks k p)), a, v. auto.
  - right. exists depth', q, a, v. split; [lia|auto].
Qed.

Lemma deepen_move fuel :
  forall depth state acts p p',
    p' = snd (deepen heuristic fuel depth state acts p) ->
    getMove p' = getMove p \/
    exists a, getMove p' = Some a /\ In a acts /\
      same_board (_board (move state a)) (_board state) = false.
Proof.
  intros depth state acts p p' Hp'.
  destruct (deepen_commit fuel depth state acts p p' Hp')
    as [Hsame|(depth' & q & a & v & _ & Hset & Hfe)]; [left; assumption|].
  right. exists a. split; [assumption|]. eapply FullyEvaluated_legal; eassumption.
Qed.

End Frames.

(* ================================================================== *)
(** * The move orderer *)

Section Sorting.
Context {V : Type} `{Number V} {A : Type}.
Variable key : A -> V.

Lemma insert_desc_perm (x : A) (l : list A) :
  Permutation (x :: l) (insert_desc key x l).
Proof.
  induction l as [|y l IH]; simpl; [reflexivity|].
  destruct (ltb (key x) (key y)); [|reflexivity].
  rewrite perm_swap. apply perm_skip. exact IH.
Qed.

Lemma sort_desc_perm (l : list A) : Permutation l (sort_desc key l).
Proof.
  induction l as [|x l IH]; simpl; [reflexivity|].
  rewrite <- insert_desc_perm. apply perm_skip. exact IH.
Qed.

Lemma insert_desc_sorted (x : A) (l : list A) :
  StronglySorted (descending key) l -> StronglySorted (descending key) (insert_desc key x l).
Proof.
  induction 1 as [|y l Hl IH Hy]; simpl.
  - repeat constructor.
  - destruct (ltb (key x) (key y)) eqn:Hxy.
    + constructor; [assumption|].
      rewrite <- (insert_desc_perm x l). constructor.
      * unfold descending. order.
      * assumption.
    + constructor; [constructor; assumption|].
      constructor; [assumption|].
      rewrite Forall_forall in *. intros z Hz. specialize (Hy z Hz).
      unfold descending in *. order.
Qed.

Lemma sort_desc_sorted (l : list A) : StronglySorted (descending key) (sort_desc key l).
Proof.
  induction l as [|x l IH]; simpl; [constructor|].
  apply insert_desc_sorted. exact IH.
Qed.

Lemma insert_desc_stable (k : V) (x : A) (l : list A) :
  filter (has_key key k) (insert_desc key x l) = filter (has_key key k) (x :: l).
Proof.
  induction l as [|y l IH]; [reflexivity|].
  simpl insert_desc. destruct (ltb (key x) (key y)) eqn:Hxy; [|reflexivity].
  simpl filter at 1. rewrite IH. simpl.
  unfold has_key.
  destruct (ltb (key x) k) eqn:?, (ltb k (key x)) eqn:?,
           (ltb (key y) k) eqn:?, (ltb k (key y)) eqn:?; simpl; try reflexivity;
    exfalso; order.
Qed.

Lemma sort_desc_stable (k : V) (l : list A) :
  filter (has_key key k) (sort_desc key l) = filter (has_key key k) l.
Proof.
  induction l as [|x l IH]; [reflexivity|].
  simpl sort_desc. rewrite insert_desc_stable. simpl. rewrite IH. reflexivity.
Qed.

(** Sorting the pairs [(a, key a)] by their second component and dropping
    it is sorting by [key]. *)
Lemma insert_desc_decorated (x : A) (l : list A) :
  insert_desc snd (x, key x) (map (fun a => (a, key a)) l)
  = map (fun a => (a, key a)) (insert_desc key x l).
Proof.
  induction l as [|y l IH]; [reflexivity|].
  simpl. destruct (ltb (key x) (key y)); [|reflexivity].
  simpl. rewrite IH. reflexivity.
Qed.

Lemma sort_desc_decorated (l : list A) :
  map fst (sort_desc snd (map (fun a => (a, key a)) l)) = sort_desc key l.
Proof.
  assert (Hdec : sort_desc snd (map (fun a => (a, key a)) l)
                 = map (fun a => (a, key a)) (sort_desc key l)).
  { induction l as [|x l IH]; [reflexivity|].
    simpl. rewrite IH. apply insert_desc_decorated. }
  rewrite Hdec, map_map. simpl. apply map_id.
Qed.

End Sorting.

Section MoveOrder.
Context {V : Type} `{Number V} {State : Type} `{Game State}.

Lemma moveOrder_sort (state : State) :
  moveOrder state = sort_desc (gradient_key state) (actions state).
Proof. apply (sort_desc_decorated (gradient_key state)). Qed.

Lemma moveOrder_perm (state : State) : Permutation (actions state) (moveOrder state).
Proof. rewrite moveOrder_sort. apply sort_desc_perm. Qed.

Lemma moveOrder_In (state : State) (a : Action) :
  In a (moveOrder state) <-> In a (actions state).
Proof.
  split; apply Permutation_in; [symmetry|]; apply moveOrder_perm.
Qed.

Lemma moveOrder_nil (state : State) : moveOrder state = [] <-> actions state = [].
Proof.
  split; intros Hnil.
  - apply Permutation_nil. rewrite <- Hnil. symmetry. apply moveOrder_perm.
  - apply Permutation_nil. rewrite <- Hnil. apply moveOrder_perm.
Qed.
End MoveOrder.

(* ================================================================== *)
(** * With ticks to spare the search is not stopped *)

Section Progress.
Context {V : Type} `{Number V} {State : Type} `{Game State}.
Variable heuristic : State -> V.

Lemma runs_within_ret {A} (v : A) : runs_within (ret (Some v)) 0.
Proof. intros p _. exists v, p. split; [reflexivity|lia]. Qed.

Lemma runs_within_modify {A} (f : Player -> Player) (c : M (option A)) n :
  (forall p, ticks (f p) = ticks p) ->
  runs_within c n -> runs_within (modify f;; c) n.
Proof.
  intros Hf Hc p Hp. unfold bind, modify. specialize (Hc (f p)).
  rewrite Hf in Hc. exact (Hc Hp).
Qed.

Lemma timeRemaining_tick p k : ticks p = S k -> timeRemaining p = (true, with_ticks k p).
Proof. intros Hk. unfold timeRemaining. rewrite Hk. reflexivity. Qed.

Lemma max_loop_runs child cost state :
  (forall st a b, runs_within (child st a b) (cost st)) ->
  forall acts best alpha beta,
    runs_within (max_loop child state acts best alpha beta)
                (list_sum (map (fun a => S (cost (move state a))) acts)).
Proof.
  intros Hchild. induction acts as [|a rest IH]; intros best alpha beta; simpl.
  - apply runs_within_ret.
  - remember (list_sum _) as n eqn:Hn in *. clear Hn.
    intros p Hp.
    destruct (ticks p) as [|k] eqn:Hk; [lia|].
    unfold bind. rewrite (timeRemaining_tick p k Hk). simpl.
    destruct (Hchild (move state a) alpha beta (with_ticks k p)) as (v & p2 & Hv & Hticks);
      [simpl; lia|].
    rewrite Hv. simpl in Hticks.
    destruct (geb (pymax alpha (if ltb best v then v else best)) beta).
    + simpl. eexists _, _. split; [reflexivity|]. simpl. lia.
    + destruct (IH (if ltb best v then v else best)
                   (pymax alpha (if ltb best v then v else best)) beta p2)
        as (w & p3 & Hw & Hleft); [lia|].
      exists w, p3. split; [assumption|lia].
Qed.

Lemma min_loop_runs child cost state :
  (forall st a b, runs_within (child st a b) (cost st)) ->
  forall tiles best alpha beta,
    runs_within (min_loop child state tiles best alpha beta)
                (list_sum (map (fun t => S (cost (addTile state (fst t) (snd t)))) tiles)).
Proof.
  intros Hchild. induction tiles as [|[t tv] rest IH]; intros best alpha beta; simpl.
  - apply runs_within_ret.
  - remember (list_sum _) as n eqn:Hn in *. clear Hn.
    intros p Hp.
    destruct (ticks p) as [|k] eqn:Hk; [lia|].
    unfold bind. rewrite (timeRemaining_tick p k Hk). simpl.
    destruct (Hchild (addTile state t tv) alpha beta (with_ticks k p)) as (v & p2 & Hv & Hticks);
      [simpl; lia|].
    rewrite Hv. simpl in Hticks.
    destruct (geb alpha (pymin beta (if ltb v best then v else best))).
    + simpl. eexists _, _. split; [reflexivity|]. simpl. lia.
    + destruct (IH (if ltb v best then v else best) alpha
                   (pymin beta (if ltb v best then v else best)) p2)
        as (w & p3 & Hw & Hleft); [lia|].
      exists w, p3. split; [assumption|lia].
Qed.

Lemma search_runs (depth : nat) :
  (forall st a b, runs_within (maxPlayer heuristic depth st a b) (max_checks depth st)) /\
  (forall st a b, runs_within (minPlayer heuristic depth st a b) (min_checks depth st)).
Proof.
  induction depth as [|d [IHmax IHmin]]; split; intros st a b; simpl;
    repeat (apply runs_within_modify; [reflexivity|]);
    destruct (gameOver st); try apply runs_within_ret.
  - apply runs_within_modify; [reflexivity|]. apply max_loop_runs. exact IHmin.
  - apply runs_within_modify; [reflexivity|]. apply min_loop_runs. exact IHmax.
Qed.

End Progress.

(* ================================================================== *)
(** * The loops' initial values and the plain maximum and minimum *)

Section Extremes.
Context {V : Type} `{Number V}.

Lemma pymax_fold_attained {A} (g : A -> V) (l : list A) (x : V) :
  fold_left (fun b a => pymax b (g a)) l x = x \/
  exists a, In a l /\ fold_left (fun b a => pymax b (g a)) l x = g a.
Proof.
  revert x. induction l as [|a l IH]; intros x; simpl; [left; reflexivity|].
  destruct (IH (pymax x (g a))) as [Heq|(b & Hb & Heq)].
  - rewrite Heq. unfold pymax. destruct (ltb x (g a)); [right; eauto|left; reflexivity].
  - right. eauto.
Qed.

Lemma pymax_fold_upper {A} (g : A -> V) (l : list A) (x : V) (a : A) :
  In a l -> ltb (fold_left (fun b a => pymax b (g a)) l x) (g a) = false.
Proof.
  revert x. induction l as [|b l IH]; intros x; simpl; [tauto|].
  intros [->|Hin]; [|apply IH; assumption].
  pose proof (pymax_fold_ge g l (pymax x (g a))). order.
Qed.

Lemma pymin_fold_attained {A} (g : A -> V) (l : list A) (x : V) :
  fold_left (fun b a => pymin b (g a)) l x = x \/
  exists a, In a l /\ fold_left (fun b a => pymin b (g a)) l x = g a.
Proof.
  revert x. induction l as [|a l IH]; intros x; simpl; [left; reflexivity|].
  destruct (IH (pymin x (g a))) as [Heq|(b & Hb & Heq)].
  - rewrite Heq. unfold pymin. destruct (ltb (g a) x); [right; eauto|left; reflexivity].
  - right. eauto.
Qed.

Lemma pymin_fold_lower {A} (g : A -> V) (l : list A) (x : V) (a : A) :
  In a l -> ltb (g a) (fold_left (fun b a => pymin b (g a)) l x) = false.
Proof.
  revert x. induction l as [|b l IH]; intros x; simpl; [tauto|].
  intros [->|Hin]; [|apply IH; assumption].
  pose proof (pymin_fold_le g l (pymin x (g a))). order.
Qed.

Lemma fold_left_map_pymax {A} (g : A -> V) (l : list A) (x : V) :
  fold_left pymax (map g l) x = fold_left (fun b a => pymax b (g a)) l x.
Proof. revert x. induction l; intros; simpl; auto. Qed.

Lemma fold_left_map_pymin {A} (g : A -> V) (l : list A) (x : V) :
  fold_left pymin (map g l) x = fold_left (fun b a => pymin b (g a)) l x.
Proof. revert x. induction l; intros; simpl; auto. Qed.

(** A running maximum started below every element ends at the maximum of
    the elements, in whatever order they come. *)
Lemma pymax_fold_from_below {A} (g : A -> V) (l l' : list A) (a0 : A) (lo : V) :
  (forall a, In a l <-> In a (a0 :: l')) ->
  (forall a, In a (a0 :: l') -> ltb (g a) lo = false) ->
  fold_left (fun b a => pymax b (g a)) l lo
  = fold_left (fun b a => pymax b (g a)) l' (g a0).
Proof.
  intros Hsame Hlo.
  pose proof (pymax_fold_ge g l lo) as Hge1.
  pose proof (pymax_fold_ge g l' (g a0)) as Hge2.
  apply ltb_connex.
  - (* the code's value is not below the element the other one is *)
    destruct (pymax_fold_attained g l' (g a0)) as [Heq|(b & Hb & Heq)]; rewrite Heq.
    + apply pymax_fold_upper, Hsame. left; reflexivity.
    + apply pymax_fold_upper, Hsame. right; assumption.
  - destruct (pymax_fold_attained g l lo) as [Heq|(b & Hb & Heq)]; rewrite Heq.
    + pose proof (Hlo a0 (or_introl eq_refl)). clear Hge1. order.
    + apply Hsame in Hb. destruct Hb as [<-|Hb]; [assumption|].
      apply pymax_fold_upper. assumption.
Qed.

Lemma pymin_fold_from_above {A} (g : A -> V) (l l' : list A) (a0 : A) (hi : V) :
  (forall a, In a l <-> In a (a0 :: l')) ->
  (forall a, In a (a0 :: l') -> ltb hi (g a) = false) ->
  fold_left (fun b a => pymin b (g a)) l hi
  = fold_left (fun b a => pymin b (g a)) l' (g a0).
Proof.
  intros Hsame Hhi.
  pose proof (pymin_fold_le g l hi) as Hge1.
  pose proof (pymin_fold_le g l' (g a0)) as Hge2.
  apply ltb_connex.
  - destruct (pymin_fold_attained g l hi) as [Heq|(b & Hb & Heq)]; rewrite Heq.
    + pose proof (Hhi a0 (or_introl eq_refl)). clear Hge1. order.
    + apply Hsame in Hb. destruct Hb as [<-|Hb]; [assumption|].
      apply pymin_fold_lower. assumption.
  - destruct (pymin_fold_attained g l' (g a0)) as [Heq|(b & Hb & Heq)]; rewrite Heq.
    + apply pymin_fold_lower, Hsame. left; reflexivity.
    + apply pymin_fold_lower, Hsame. right; assumption.
Qed.

End Extremes.

Section Range.
Context {V : Type} `{Number V} {State : Type} `{Game State}.
Variable heuristic : State -> V.

Lemma fold_left_ext_in {A} (f g : V -> A -> V) (l : list A) (x : V) :
  (forall b a, In a l -> f b a = g b a) -> fold_left f l x = fold_left g l x.
Proof.
  revert x. induction l as [|a l IH]; intros x Hfg; simpl; [reflexivity|].
  rewrite Hfg by (left; reflexivity). apply IH. intros; apply Hfg; right; assumption.
Qed.

Lemma nonempty_length {A} (l : list A) :
  negb (Nat.eqb (List.length l) 0) = true -> exists a l', l = a :: l'.
Proof. destruct l; simpl; [discriminate|eauto]. Qed.

Lemma between_sentinels_spec (v : V) :
  between_sentinels v = true ->
  ltb v (of_int (-10000)) = false /\ ltb (of_float 1e6) v = false.
Proof.
  unfold between_sentinels, leb. rewrite andb_true_iff, !negb_true_iff. tauto.
Qed.

(** In range, the loops' initial values do not show: [maxFull] and
    [minFull] are the plain maximum and minimum over the children. *)
Lemma in_range_values (depth : nat) :
  (forall s, max_in_range heuristic depth s = true ->
     maxFull heuristic depth s = maxValue heuristic depth s /\
     between_sentinels (maxValue heuristic depth s) = true) /\
  (forall s, min_in_range heuristic depth s = true ->
     minFull heuristic depth s = minValue heuristic depth s /\
     between_sentinels (minValue heuristic depth s) = true).
Proof.
  induction depth as [|d [IHmax IHmin]].
  - split; intros s Hs; simpl in *; destruct (gameOver s); auto.
  - split; intros s Hs; simpl in *; destruct (gameOver s); auto;
      apply andb_true_iff in Hs; destruct Hs as [Hne Hall];
      apply nonempty_length in Hne; destruct Hne as (a0 & l' & Hl);
      rewrite forallb_forall in Hall.
    + (* a Max node *)
      assert (Hfull : forall a, In a (actions s) ->
                minFull heuristic d (move s a) = minValue heuristic d (move s a))
        by (intros a Ha; apply IHmin, Hall, Ha).
      assert (Hbetween : forall a, In a (actions s) ->
                between_sentinels (minValue heuristic d (move s a)) = true)
        by (intros a Ha; apply IHmin, Hall, Ha).
      rewrite (fold_left_ext_in _ (fun b a => pymax b (minValue heuristic d (move s a))))
        by (intros b a Ha; rewrite Hfull; [reflexivity|apply moveOrder_In, Ha]).
      rewrite Hl in *. simpl map. cbv iota. rewrite fold_left_map_pymax.
      split.
      * apply (pymax_fold_from_below (fun a => minValue heuristic d (move s a))).
        -- intros a. rewrite moveOrder_In, Hl. reflexivity.
        -- intros a Ha. apply between_sentinels_spec, Hbetween, Ha.
      * destruct (pymax_fold_attained (fun a => minValue heuristic d (move s a)) l'
                    (minValue heuristic d (move s a0))) as [Heq|(b & Hb & Heq)];
          rewrite Heq; apply Hbetween; simpl; auto.
    + (* a Chance node *)
      assert (Hfull : forall t, In t (possibleTiles s) ->
                maxFull heuristic d (addTile s (fst t) (snd t))
                = maxValue heuristic d (addTile s (fst t) (snd t)))
        by (intros t Ht; apply IHmax, Hall, Ht).
      assert (Hbetween : forall t, In t (possibleTiles s) ->
                between_sentinels (maxValue heuristic d (addTile s (fst t) (snd t))) = true)
        by (intros t Ht; apply IHmax, Hall, Ht).
      rewrite (fold_left_ext_in _
                 (fun b t => pymin b (maxValue heuristic d (addTile s (fst t) (snd t)))))
        by (intros b t Ht; rewrite Hfull; [reflexivity|exact Ht]).
      rewrite Hl in *. simpl map. cbv iota. rewrite fold_left_map_pymin.
      split.
      * apply (pymin_fold_from_above
                 (fun t => maxValue heuristic d (addTile s (fst t) (snd t)))).
        -- intros t. reflexivity.
        -- intros t Ht. apply between_sentinels_spec, Hbetween, Ht.
      * destruct (pymin_fold_attained
                    (fun t => maxValue heuristic d (addTile s (fst t) (snd t))) l'
                    (maxValue heuristic d (addTile s (fst a0) (snd a0))))
          as [Heq|(b & Hb & Heq)];
          rewrite Heq; apply Hbetween; simpl; auto.
Qed.

End Range.

(* ================================================================== *)
(** * The properties of [findMove] *)

Section FindMove.
Context {V : Type} `{Number V} {State : Type} `{Game State}.
Variable heuristic : State -> V.

(** With no tick left the loop over the root actions evaluates nothing. *)
Lemma root_loop_out_of_time d state :
  forall acts alpha depthMove depthScore p,
    ticks p = 0%nat ->
    root_loop heuristic d state acts alpha depthMove depthScore p
      = ((depthMove, depthScore), p).
Proof.
  induction acts as [|a rest IH]; intros alpha dm ds p Hp; simpl; [reflexivity|].
  destruct (same_board _ _); [apply IH; assumption|].
  unfold bind, timeRemaining. rewrite Hp. reflexivity.
Qed.

(** An action that leaves the board as it is costs the loop nothing. *)
Lemma root_loop_noops d state :
  forall acts alpha depthMove depthScore p,
    Forall (fun a => same_board (_board (move state a)) (_board state) = true) acts ->
    root_loop heuristic d state acts alpha depthMove depthScore p
      = ((depthMove, depthScore), p).
Proof.
  induction acts as [|a rest IH]; intros alpha dm ds p Hall; simpl; [reflexivity|].
  inversion Hall as [|? ? Ha Hrest]; subst. rewrite Ha. apply IH. assumption.
Qed.

Lemma deepen_out_of_time fuel depth state acts p :
  (ticks p <= 1)%nat ->
  getMove (snd (deepen heuristic fuel depth state acts p)) = getMove p.
Proof.
  intros Hp. destruct fuel as [|fuel]; [reflexivity|].
  simpl. unfold bind at 1. unfold timeRemaining. cbv beta.
  destruct (ticks p) as [|k] eqn:Hk; [reflexivity|].
  assert (k = 0%nat) by lia. subst k. simpl.
  unfold bind at 1. unfold depth_iteration, bind, modify. simpl.
  rewrite root_loop_out_of_time by reflexivity. simpl.
  destruct fuel as [|fuel]; [reflexivity|].
  simpl. reflexivity.
Qed.

(** C1: on a state with a legal action [findMove] returns, whatever the
    budget, and the move it has committed is one of the state's legal
    actions. When the deadline passes before the first root action of
    depth 1 is started (no tick, or the one tick the loop's own test
    takes), the committed move is the first of [moveOrder]. *)
Theorem findMove_commits_legal_move (state : State) (p : Player) :
  actions state <> [] ->
  exists p' m,
    findMove heuristic state p = Some p' /\
    getMove p' = Some m /\
    In m (actions state) /\
    ((ticks p <= 1)%nat -> Some m = hd_error (moveOrder state)).
Proof.
  intros Hlegal. rewrite findMove_unfold.
  destruct (moveOrder state) as [|a0 rest] eqn:Horder.
  - apply moveOrder_nil in Horder. contradiction.
  - cbv zeta.
    set (p1 := with_move (Some a0) (bump_count p)).
    pose proof (deepen_move heuristic (S (ticks p1)) 1 state (a0 :: rest) p1 _ eq_refl)
      as Hmove.
    assert (Hin0 : In a0 (actions state))
      by (apply moveOrder_In; rewrite Horder; left; reflexivity).
    destruct Hmove as [Hsame|(a & Ha & Hin & _)].
    + eexists _, a0. repeat split; [exact Hsame|exact Hin0].
    + eexists _, a. split; [reflexivity|]. split; [exact Ha|].
      split; [apply moveOrder_In; rewrite Horder; exact Hin|].
      intros Hp. simpl.
      rewrite (deepen_out_of_time (S (ticks p1)) 1 state (a0 :: rest) p1 Hp) in Ha.
      symmetry. exact Ha.
Qed.

(** C4: on a state without a legal action [findMove] returns, and the
    player it leaves has ['U'] committed: [getMove] gives ['U']. The call
    raises [_count] by one and does nothing else: no node is visited, no
    iteration started, and the clock is not looked at. The evaluator
    plays no part: whatever function stands for [heuristic], the call
    leaves this same player. *)
Theorem findMove_no_legal_action (state : State) (p : Player) :
  actions state = [] ->
  exists p',
    findMove heuristic state p = Some p' /\
    getMove p' = Some "U"%string /\
    _count p' = _count p + 1 /\
    _nodeCount p' = _nodeCount p /\
    _parentCount p' = _parentCount p /\
    _childCount p' = _childCount p /\
    _depthCount p' = _depthCount p /\
    _pruneCount p' = _pruneCount p /\
    ticks p' = ticks p /\
    forall other : State -> V, findMove other state p = Some p'.
Proof.
  intros Hnone. apply moveOrder_nil in Hnone.
  exists (with_move (Some "U"%string) (bump_count p)).
  unfold findMove. rewrite Hnone. simpl.
  repeat match goal with |- _ /\ _ => split end; reflexivity.
Qed.

(** The loop over the root actions runs as if the no-ops were not in
    the list: same result, same counters, same clock. *)
Lemma root_loop_filter d state :
  forall acts alpha depthMove depthScore p,
    root_loop heuristic d state acts alpha depthMove depthScore p
    = root_loop heuristic d state (filter (changes_board state) acts)
        alpha depthMove depthScore p.
Proof.
  induction acts as [|a rest IH]; intros alpha dm ds p; simpl; [reflexivity|].
  unfold changes_board at 1.
  destruct (same_board (_board (move state a)) (_board state)) eqn:Hsame; simpl;
    [apply IH|].
  rewrite Hsame. unfold bind.
  destruct (timeRemaining p) as [t p1]. destruct t; simpl; [|reflexivity].
  destruct (minPlayer heuristic d (move state a) alpha (of_float infinity) p1)
    as [[v|] p2]; [|reflexivity].
  destruct (ltb ds v); apply IH.
Qed.

(** The loop of [findMove], read off iteration by iteration. *)
Lemma deepen_deepening fuel :
  forall depth state acts p p',
    deepen heuristic fuel depth state acts p = (true, p') ->
    Deepening heuristic state acts depth p p'.
Proof.
  induction fuel as [|fuel IH]; intros depth state acts p p' Hrun; simpl in Hrun;
    [discriminate|].
  unfold bind at 1 in Hrun.
  destruct (timeRemaining p) as [t p1] eqn:Htime.
  destruct t; simpl in Hrun; [|injection Hrun as <-; apply Deepening_end; exact Htime].
  unfold bind at 1 in Hrun.
  pose proof (depth_iteration_move heuristic depth state acts p1) as Hiter.
  destruct (depth_iteration heuristic depth state acts p1) as [[] p2] eqn:Hbody.
  simpl in Hiter. apply IH in Hrun.
  assert (Hmove : getMove p1 = getMove p).
  { unfold timeRemaining in Htime. destruct (ticks p); [discriminate|].
    injection Htime as <-. reflexivity. }
  destruct Hiter as [Hkeep|(a & v & Hset & Hfe)].
  - eapply Deepening_keep; [exact Htime|exact Hbody|congruence|exact Hrun].
  - eapply Deepening_commit; [exact Htime|exact Hbody|exact Hfe|exact Hset|exact Hrun].
Qed.

Lemma Deepening_move state acts depth p p' :
  Deepening heuristic state acts depth p p' ->
  getMove p' = getMove p \/
  exists depth' q a v,
    (depth <= depth')%nat /\ getMove p' = Some a /\
    FullyEvaluated heuristic (depth' - 1) state acts (of_float neg_infinity) q a v.
Proof.
  induction 1 as [depth p p' Htime
                 |depth p p1 p2 p' Htime Hbody Hkeep Hrest IH
                 |depth p p1 p2 p' a v Htime Hbody Hfe Hset Hrest IH].
  - left. unfold timeRemaining in Htime. destruct (ticks p); [|discriminate].
    injection Htime as <-. reflexivity.
  - destruct IH as [Hsame|(depth' & q & b & w & Hle & Hb & Hfull)].
    + left. congruence.
    + right. exists depth', q, b, w. split; [lia|auto].
  - destruct IH as [Hsame|(depth' & q & b & w & Hle & Hb & Hfull)].
    + right. exists depth, (bump_depthCount p1), a, v.
      split; [lia|]. split; [congruence|exact Hfe].
    + right. exists depth', q, b, w. split; [lia|auto].
Qed.

(** C9, as the code has it: a move committed on a state with legal
    actions is the first of [moveOrder], committed before the search, or
    an action that changes the board. The loop over the root actions
    passes over an action that leaves the board unchanged: it runs as it
    does on the list without the no-ops, with the same result, the same
    counters and the same clock, so a no-op is not evaluated there; its
    best move is the one it started with or an action of the list that
    changes the board; and the move a depth iteration commits is never a
    no-op. A root action evaluated in full changes the board, and a list
    of no-ops leaves the loop where it started, no node visited. *)
Theorem noop_skipped_at_root (state : State) (p p' : Player) (m : Action) :
  actions state <> [] ->
  findMove heuristic state p = Some p' ->
  getMove p' = Some m ->
  (Some m = hd_error (moveOrder state) \/
   same_board (_board (move state m)) (_board state) = false) /\
  (forall d acts alpha depthMove depthScore q,
     root_loop heuristic d state acts alpha depthMove depthScore q
     = root_loop heuristic d state (filter (changes_board state) acts)
         alpha depthMove depthScore q) /\
  (forall d a rest alpha depthMove depthScore q,
     same_board (_board (move state a)) (_board state) = true ->
     root_loop heuristic d state (a :: rest) alpha depthMove depthScore q
     = root_loop heuristic d state rest alpha depthMove depthScore q) /\
  (forall d acts alpha depthMove depthScore q a,
     fst (fst (root_loop heuristic d state acts alpha depthMove depthScore q)) = Some a ->
     depthMove = Some a \/
     (In a acts /\ same_board (_board (move state a)) (_board state) = false)) /\
  (forall depth acts q,
     let q' := snd (depth_iteration heuristic depth state acts q) in
     getMove q' = getMove q \/
     exists a, getMove q' = Some a /\ In a acts /\
       same_board (_board (move state a)) (_board state) = false) /\
  (forall d acts alpha q a v,
     FullyEvaluated heuristic d state acts alpha q a v ->
     same_board (_board (move state a)) (_board state) = false) /\
  (forall d acts alpha depthMove depthScore q,
     Forall (fun a => same_board (_board (move state a)) (_board state) = true) acts ->
     root_loop heuristic d state acts alpha depthMove depthScore q
       = ((depthMove, depthScore), q)).
Proof.
  intros Hlegal Hrun Hm. split; [|split; [|split; [|split; [|split; [|split]]]]].
  - rewrite findMove_unfold in Hrun.
    destruct (moveOrder state) as [|a0 rest] eqn:Horder.
    + apply moveOrder_nil in Horder. contradiction.
    + cbv zeta in Hrun.
      set (p1 := with_move (Some a0) (bump_count p)) in *.
      pose proof (deepen_move heuristic (S (ticks p1)) 1 state (a0 :: rest) p1 _ eq_refl)
        as Hp'.
      set (r := deepen heuristic (S (ticks p1)) 1 state (a0 :: rest) p1) in *.
      injection Hrun as <-.
      destruct Hp' as [Hsame|(a & Ha & _ & Hchange)].
      * left. rewrite Hm in Hsame. simpl in *. exact Hsame.
      * right. rewrite Hm in Ha. injection Ha as ->. exact Hchange.
  - intros. apply root_loop_filter.
  - intros d a rest alpha dm ds q Hsame. simpl. rewrite Hsame. reflexivity.
  - intros d acts alpha dm ds q a Hbest.
    destruct (root_loop heuristic d state acts alpha dm ds q) as [[dm' ds'] q'] eqn:Hloop.
    simpl in Hbest. subst dm'. apply root_loop_result in Hloop.
    destruct Hloop as [[Hdm _]|(b & Hb & Hfe)].
    + left. symmetry. exact Hdm.
    + right. injection Hb as <-. eapply FullyEvaluated_legal. exact Hfe.
  - intros depth acts q.
    destruct (depth_iteration_move heuristic depth state acts q) as [Hkeep|(a & v & Ha & Hfe)].
    + left. exact Hkeep.
    + right. exists a. split; [exact Ha|]. eapply FullyEvaluated_legal. exact Hfe.
  - intros d acts alpha q a v Hfe. eapply FullyEvaluated_legal. exact Hfe.
  - intros. apply root_loop_noops. assumption.
Qed.

(** C3: what a depth iteration can do to the committed move. Either it
    leaves it as it was, or it commits a root action that was evaluated
    in full at this depth ([FullyEvaluated] has no case for a search that
    returned [None]); with no root action evaluated in full it leaves it
    as it was. When the deadline check in front of a root action fails
    or its search returns [None], the loop stops there and hands back
    its best move and best score untouched. The best move of the loop is
    the one it started with or a root action evaluated in full, its
    value the best score. A call of [findMove] on a state with an action
    commits the first of [moveOrder] and then runs as [Deepening] says:
    iteration after iteration, each leaving the committed move or
    replacing it by a root action evaluated in full in it, until the
    clock stops the loop. So the move [findMove] leaves committed is the
    first of [moveOrder] (['U'] when there is none) or a root action
    evaluated in full at some depth. *)
Theorem commitment_only_from_full_evaluations (state : State) :
  (forall depth acts p,
     let p' := snd (depth_iteration heuristic depth state acts p) in
     getMove p' = getMove p \/
     exists a v, getMove p' = Some a /\
       FullyEvaluated heuristic (depth - 1) state acts (of_float neg_infinity)
         (bump_depthCount p) a v) /\
  (forall depth acts p,
     (forall a v,
        ~ FullyEvaluated heuristic (depth - 1) state acts (of_float neg_infinity)
            (bump_depthCount p) a v) ->
     getMove (snd (depth_iteration heuristic depth state acts p)) = getMove p) /\
  (forall d a rest alpha depthMove depthScore p,
     same_board (_board (move state a)) (_board state) = false ->
     fst (timeRemaining p) = false \/
     fst (minPlayer heuristic d (move state a) alpha (of_float infinity)
            (snd (timeRemaining p))) = None ->
     fst (root_loop heuristic d state (a :: rest) alpha depthMove depthScore p)
       = (depthMove, depthScore)) /\
  (forall d acts alpha depthMove depthScore p,
     let r := fst (root_loop heuristic d state acts alpha depthMove depthScore p) in
     r = (depthMove, depthScore) \/
     exists a, fst r = Some a /\
       FullyEvaluated heuristic d state acts alpha p a (snd r)) /\
  (forall p p' a0 rest,
     moveOrder state = a0 :: rest ->
     findMove heuristic state p = Some p' ->
     Deepening heuristic state (a0 :: rest) 1 (with_move (Some a0) (bump_count p)) p') /\
  (forall acts depth p p',
     Deepening heuristic state acts depth p p' ->
     getMove p' = getMove p \/
     exists depth' q a v,
       (depth <= depth')%nat /\ getMove p' = Some a /\
       FullyEvaluated heuristic (depth' - 1) state acts (of_float neg_infinity) q a v) /\
  (forall p p',
     findMove heuristic state p = Some p' ->
     getMove p' = Some (hd "U"%string (moveOrder state)) \/
     exists depth q a v,
       (1 <= depth)%nat /\ getMove p' = Some a /\
       FullyEvaluated heuristic (depth - 1) state (moveOrder state)
         (of_float neg_infinity) q a v).
Proof.
  split; [|split; [|split; [|split; [|split; [|split]]]]].
  - intros. apply depth_iteration_move.
  - intros depth acts p Hnone.
    destruct (depth_iteration_move heuristic depth state acts p) as [Hkeep|(a & v & _ & Hfe)];
      [exact Hkeep|].
    destruct (Hnone a v Hfe).
  - intros d a rest alpha dm ds p Hchange Habort. simpl. rewrite Hchange.
    unfold bind. destruct (timeRemaining p) as [t p1]. simpl in Habort.
    destruct t; simpl.
    + destruct Habort as [Habort|Habort]; [discriminate|].
      destruct (minPlayer heuristic d (move state a) alpha (of_float infinity) p1)
        as [[v|] p2]; [discriminate|reflexivity].
    + reflexivity.
  - intros d acts alpha dm ds p.
    destruct (root_loop heuristic d state acts alpha dm ds p) as [[dm' ds'] p'] eqn:Hrun.
    apply root_loop_result in Hrun. simpl.
    destruct Hrun as [[-> ->]|(a & -> & Hfe)]; [left; reflexivity|right; eauto].
  - intros p p' a0 rest Horder Hrun. unfold findMove in Hrun. rewrite Horder in Hrun.
    cbv beta iota zeta delta [setMove modify] in Hrun.
    destruct (deepen heuristic (S (ticks (with_move (Some a0) (bump_count p)))) 1 state
                (a0 :: rest) (with_move (Some a0) (bump_count p))) as [finished p2] eqn:Hloop.
    destruct finished; [|discriminate]. injection Hrun as <-.
    eapply deepen_deepening. exact Hloop.
  - intros acts depth p p'. apply Deepening_move.
  - intros p p' Hrun. rewrite findMove_unfold in Hrun.
    destruct (moveOrder state) as [|a0 rest]; [injection Hrun as <-; left; reflexivity|].
    cbv zeta in Hrun.
    set (p1 := with_move (Some a0) (bump_count p)) in *.
    pose proof (deepen_commit heuristic (S (ticks p1)) 1 state (a0 :: rest) p1 _ eq_refl)
      as Hcommit.
    set (r := deepen heuristic (S (ticks p1)) 1 state (a0 :: rest) p1) in *.
    injection Hrun as <-.
    destruct Hcommit as [Hsame|Hfull]; [left; exact Hsame|right; exact Hfull].
Qed.

(** C8: the committed move depends on the state and on the clock alone.
    Two players with the same number of ticks on the clock, whatever
    their counters and whatever move they held before, commit the same
    move; so does the same player on a second call with the clock set as
    on the first. *)
Theorem findMove_deterministic (state : State) (k : nat) (p q : Player) :
  option_map getMove (findMove heuristic state (start_clock k p))
  = option_map getMove (findMove heuristic state (start_clock k q)) /\
  match findMove heuristic state (start_clock k p) with
  | Some p1 =>
      option_map getMove (findMove heuristic state (start_clock k p1))
      = Some (getMove p1)
  | None => False
  end.
Proof.
  assert (Hblind : forall p q : Player, ticks p = ticks q ->
            option_map getMove (findMove heuristic state p)
            = option_map getMove (findMove heuristic state q)).
  { clear p q. intros p q Hpq. rewrite !findMove_unfold.
    destruct (moveOrder state) as [|a0 rest]; [reflexivity|].
    cbv zeta. unfold option_map. f_equal.
    set (p1 := with_move (Some a0) (bump_count p)).
    set (q1 := with_move (Some a0) (bump_count q)).
    assert (Hticks : ticks p1 = ticks q1) by exact Hpq.
    rewrite <- Hticks.
    destruct (steady_deepen heuristic (S (ticks p1)) 1 state (a0 :: rest) p1) as [_ Hsame].
    destruct (Hsame q1 Hticks eq_refl) as (_ & _ & Hmove). exact Hmove. }
  split; [apply Hblind; reflexivity|].
  destruct (findMove_returns heuristic state (start_clock k p)) as [p1 Hp1].
  rewrite Hp1. rewrite (Hblind (start_clock k p1) (start_clock k p) eq_refl), Hp1.
  reflexivity.
Qed.

End FindMove.

(* ================================================================== *)
(** * The properties of the search and of the move orderer *)

Section Search.
Context {V : Type} `{Number V} {State : Type} `{Game State}.
Variable heuristic : State -> V.

(** C6, as the code has it: [moveOrder] returns the legal actions, each
    as often as it is listed, in descending order of the gradient score
    of the board the action leads to, and actions of equal score keep the
    order [state.actions()] gave them. It is a function of the state: it
    neither reads nor changes the player. *)
Theorem moveOrder_sorted_by_gradient (state : State) :
  Permutation (actions state) (moveOrder state) /\
  StronglySorted (descending (gradient_key state)) (moveOrder state) /\
  forall k, with_key (gradient_key state) k (moveOrder state)
            = with_key (gradient_key state) k (actions state).
Proof.
  split; [apply moveOrder_perm|]. rewrite moveOrder_sort. split.
  - apply (sort_desc_sorted (gradient_key state)).
  - intros k. apply (sort_desc_stable (gradient_key state)).
Qed.

(** C5, as the code has it: the game's score is the value of a node,
    Max or Chance, at any depth, exactly through the [gameOver] test in
    front of everything else. There is no second test on the children:
    when [gameOver] is false, a Max node without legal actions returns
    the initial [-10000] of its loop and a Chance node without placements
    the initial [1e6] (below depth 0; at depth 0 both return the
    evaluation). *)
Theorem terminal_score_only_when_game_over
    (depth : nat) (state : State) (alpha beta : V) (p : Player) :
  (gameOver state = true ->
     fst (maxPlayer heuristic depth state alpha beta p) = Some (of_int (getScore state)) /\
     fst (minPlayer heuristic depth state alpha beta p) = Some (of_int (getScore state))) /\
  (gameOver state = false ->
     (actions state = [] ->
        fst (maxPlayer heuristic (S depth) state alpha beta p) = Some (of_int (-10000))) /\
     (possibleTiles state = [] ->
        fst (minPlayer heuristic (S depth) state alpha beta p) = Some (of_float 1e6)) /\
     fst (maxPlayer heuristic 0 state alpha beta p) = Some (heuristic state) /\
     fst (minPlayer heuristic 0 state alpha beta p) = Some (heuristic state)).
Proof.
  split; intros Hover.
  - destruct depth; simpl; unfold bind, modify, ret; simpl; rewrite Hover; auto.
  - repeat split; try intros Hnone; simpl; unfold bind, modify, ret; simpl;
      rewrite Hover; try reflexivity.
    + apply moveOrder_nil in Hnone. rewrite Hnone. reflexivity.
    + rewrite Hnone. reflexivity.
Qed.

(** The pruned search returns what the search without cut-offs returns:
    with the full window, a value that [maxPlayer] or [minPlayer] returns
    is the value of [maxFull] or [minFull]. *)
Lemma pruning_keeps_value (depth : nat) (state : State) (p p' : Player) (v : V) :
  (maxPlayer heuristic depth state (of_float neg_infinity) (of_float infinity) p
     = (Some v, p') -> v = maxFull heuristic depth state) /\
  (minPlayer heuristic depth state (of_float neg_infinity) (of_float infinity) p
     = (Some v, p') -> v = minFull heuristic depth state).
Proof.
  destruct (search_sound heuristic depth) as [Hmax Hmin].
  split; intros Hrun; apply full_window_exact.
  - exact (Hmax _ _ _ _ _ _ inf_apart Hrun).
  - exact (Hmin _ _ _ _ _ _ inf_apart Hrun).
Qed.

(** C2, as the code has it. Take a state and a depth such that every
    terminal score and every evaluation met lies between [-10000] and
    [1e6] and every node expanded has a child. Then a value returned by
    [maxPlayer] with the full window is the value of the full min/max
    traversal, and with [max_checks] ticks on the clock (no check fails)
    it does return that value. The same holds of [minPlayer]. *)
Theorem alphabeta_equals_minimax (depth : nat) (state : State) :
  (max_in_range heuristic depth state = true ->
     (forall p v p',
        maxPlayer heuristic depth state (of_float neg_infinity) (of_float infinity) p
          = (Some v, p') ->
        v = maxValue heuristic depth state) /\
     (forall p, (max_checks depth state <= ticks p)%nat ->
        fst (maxPlayer heuristic depth state (of_float neg_infinity) (of_float infinity) p)
          = Some (maxValue heuristic depth state))) /\
  (min_in_range heuristic depth state = true ->
     (forall p v p',
        minPlayer heuristic depth state (of_float neg_infinity) (of_float infinity) p
          = (Some v, p') ->
        v = minValue heuristic depth state) /\
     (forall p, (min_checks depth state <= ticks p)%nat ->
        fst (minPlayer heuristic depth state (of_float neg_infinity) (of_float infinity) p)
          = Some (minValue heuristic depth state))).
Proof.
  destruct (in_range_values heuristic depth) as [Hmax Hmin].
  destruct (search_runs heuristic depth) as [Rmax Rmin].
  split; intros Hrange.
  - destruct (Hmax state Hrange) as [Heq _].
    assert (Hvalue : forall p v p',
              maxPlayer heuristic depth state (of_float neg_infinity) (of_float infinity) p
                = (Some v, p') -> v = maxValue heuristic depth state).
    { intros p v p' Hrun. rewrite <- Heq.
      eapply (proj1 (pruning_keeps_value depth state p p' v)). exact Hrun. }
    split; [exact Hvalue|].
    intros p Hp. destruct (Rmax state (of_float neg_infinity) (of_float infinity) p Hp)
      as (v & p' & Hrun & _).
    rewrite Hrun. simpl. f_equal. eapply Hvalue. exact Hrun.
  - destruct (Hmin state Hrange) as [Heq _].
    assert (Hvalue : forall p v p',
              minPlayer heuristic depth state (of_float neg_infinity) (of_float infinity) p
                = (Some v, p') -> v = minValue heuristic depth state).
    { intros p v p' Hrun. rewrite <- Heq.
      eapply (proj2 (pruning_keeps_value depth state p p' v)). exact Hrun. }
    split; [exact Hvalue|].
    intros p Hp. destruct (Rmin state (of_float neg_infinity) (of_float infinity) p Hp)
      as (v & p' & Hrun & _).
    rewrite Hrun. simpl. f_equal. eapply Hvalue. exact Hrun.
Qed.

End Search.

(* ================================================================== *)
(** * [stats] *)

(** C10: [stats] ends in [ZeroDivisionError] exactly when [_count] or
    [_parentCount] is zero; in the first case nothing has been printed,
    in the second the average depth has. It does so on a new player, and
    otherwise all three lines are printed. *)
Theorem stats_zero_division (p : Player) :
  (snd (stats p) = Some ZeroDivisionError <-> (_count p = 0 \/ _parentCount p = 0)) /\
  (_count p = 0 <-> stats p = ([], Some ZeroDivisionError)) /\
  (snd (stats p) = None <-> List.length (fst (stats p)) = 3%nat) /\
  stats new_player = ([], Some ZeroDivisionError).
Proof.
  unfold stats, true_div.
  destruct (Z.eqb_spec (_count p) 0) as [Hc|Hc];
    destruct (Z.eqb_spec (_parentCount p) 0) as [Hp|Hp]; simpl;
    repeat split; intros; auto; try discriminate; try tauto;
    try (destruct H; congruence); try congruence.
Qed.

(* ================================================================== *)
(** * The corner score of the evaluator *)

Lemma chain_loop_range board i1 j1 i2 j2 i3 j3 :
  let c := Evaluator.chain_loop board [(i1, j1); (i2, j2); (i3, j3)] 1 in
  c = 1 \/ c = 2 \/ c = 3 \/ c = 4.
Proof.
  simpl.
  repeat match goal with
         | |- context [if ?b then _ else _] => destruct b
         end; auto.
Qed.

Lemma chain_max_range board :
  let c := Z.max (Evaluator.row_chain board) (Evaluator.col_chain board) in
  c = 1 \/ c = 2 \/ c = 3 \/ c = 4.
Proof.
  unfold Evaluator.row_chain, Evaluator.col_chain.
  pose proof (chain_loop_range board 0 1 1 2 2 3) as Hr.
  pose proof (chain_loop_range board 0 4 4 8 8 12) as Hc.
  cbv zeta in *. lia.
Qed.

(** The corner score is one of eight numbers. *)
Lemma existsb_exists_eq (x : float) (l : list float) :
  existsb (Leibniz.eqb x) l = true -> In x l.
Proof.
  intros Hx. apply existsb_exists in Hx. destruct Hx as (y & Hin & Heq).
  apply Leibniz.eqb_spec in Heq. subst y. exact Hin.
Qed.

Lemma improved_corner_score_values board :
  In (Evaluator.improved_corner_score board) corner_scores.
Proof.
  unfold Evaluator.improved_corner_score, Evaluator.anchor_penalty,
    Evaluator.monotonic_chain_score.
  pose proof (chain_max_range board) as Hc. cbv zeta in Hc.
  destruct (Evaluator.cell board 0 =? Evaluator.max_tile board);
    destruct Hc as [-> | [-> | [-> | ->]]];
    apply existsb_exists_eq; vm_compute; reflexivity.
Qed.

Lemma monotonic_chain_score_values board :
  In (Evaluator.monotonic_chain_score board) [0.25; 0.5; 0.75; 1]%float.
Proof.
  unfold Evaluator.monotonic_chain_score.
  pose proof (chain_max_range board) as Hc. cbv zeta in Hc.
  destruct Hc as [-> | [-> | [-> | ->]]]; apply existsb_exists_eq; vm_compute; reflexivity.
Qed.

(** The corner term at every score from 0 to [2^22 - 1]. *)
Lemma scores_checked : all_scores 22 (Uint63.of_Z 0) (Uint63.of_Z 4194304) = true.
Proof. vm_compute. reflexivity. Qed.

Lemma all_scores_spec n :
  forall a step,
    Uint63.to_Z step = 2 ^ Z.of_nat n ->
    Uint63.to_Z a + 2 ^ Z.of_nat n <= 2 ^ 62 ->
    all_scores n a step = true ->
    forall z, Uint63.to_Z a <= z < Uint63.to_Z a + 2 ^ Z.of_nat n ->
      score_check (Uint63.of_Z z) = true.
Proof.
  induction n as [|n IH]; intros a step Hstep Hroom Hall z Hz.
  - simpl in Hall. change (2 ^ Z.of_nat 0) with 1 in Hz.
    replace z with (Uint63.to_Z a) by lia. rewrite Uint63.of_to_Z. exact Hall.
  - simpl in Hall. apply andb_true_iff in Hall. destruct Hall as [Hlow Hhigh].
    assert (Hpow : 2 ^ Z.of_nat (S n) = 2 * 2 ^ Z.of_nat n).
    { rewrite Nat2Z.inj_succ, Z.pow_succ_r by lia. reflexivity. }
    assert (Hpos : 0 < 2 ^ Z.of_nat n) by (apply Z.pow_pos_nonneg; lia).
    assert (Hhalf : Uint63.to_Z (Uint63.lsr step (Uint63.of_Z 1)) = 2 ^ Z.of_nat n).
    { rewrite Uint63.lsr_spec, Hstep, Hpow. change (Uint63.to_Z (Uint63.of_Z 1)) with 1.
      change (2 ^ 1) with 2. rewrite Z.mul_comm. apply Z.div_mul. lia. }
    pose proof (Uint63.to_Z_bounded a) as Ha.
    assert (Hsum : Uint63.to_Z (Uint63.add a (Uint63.lsr step (Uint63.of_Z 1)))
                   = Uint63.to_Z a + 2 ^ Z.of_nat n).
    { rewrite Uint63.add_spec, Hhalf. apply Z.mod_small.
      change Uint63.wB with (2 ^ 63). change (2 ^ 62) with 4611686018427387904 in Hroom.
      change (2 ^ 63) with 9223372036854775808. lia. }
    destruct (Z_lt_le_dec z (Uint63.to_Z a + 2 ^ Z.of_nat n)) as [Hlt|Hge].
    + apply (IH a (Uint63.lsr step (Uint63.of_Z 1)) Hhalf); [lia|exact Hlow|lia].
    + apply (IH (Uint63.add a (Uint63.lsr step (Uint63.of_Z 1))) (Uint63.lsr step (Uint63.of_Z 1)) Hhalf);
        [rewrite Hsum; lia|exact Hhigh|rewrite Hsum; lia].
Qed.

(** [float(z)] is the conversion of the machine integer [z]. *)
Lemma float_of_int_uint63 z :
  0 <= z < 2 ^ 63 -> float_of_int z = PrimFloat.of_uint63 (Uint63.of_Z z).
Proof.
  intros Hz. unfold float_of_int.
  rewrite <- (SF2Prim_Prim2SF (PrimFloat.of_uint63 (Uint63.of_Z z))).
  rewrite of_uint63_spec, Uint63.of_Z_spec.
  change Uint63.wB with (2 ^ 63). rewrite Z.mod_small by exact Hz. reflexivity.
Qed.

Lemma corner_term_nonzero board s :
  1 <= s < 4194304 ->
  PrimFloat.eqb (Evaluator.corner_term board s) 0 = false.
Proof.
  intros Hs. unfold Evaluator.corner_term.
  rewrite float_of_int_uint63 by (change (2 ^ 63) with 9223372036854775808; lia).
  assert (Hcheck : score_check (Uint63.of_Z s) = true).
  { apply (all_scores_spec 22 (Uint63.of_Z 0) (Uint63.of_Z 4194304)).
    - reflexivity.
    - vm_compute. discriminate.
    - exact scores_checked.
    - change (Uint63.to_Z (Uint63.of_Z 0)) with 0. change (2 ^ Z.of_nat 22) with 4194304. lia. }
  unfold score_check in Hcheck. cbv zeta in Hcheck.
  assert (Hnz : Uint63.eqb (Uint63.of_Z s) (Uint63.of_Z 0) = false).
  { apply not_true_is_false. intros Heq. apply Uint63.eqb_spec in Heq.
    apply (f_equal Uint63.to_Z) in Heq. rewrite Uint63.of_Z_spec in Heq.
    change Uint63.wB with 9223372036854775808 in Heq. rewrite Z.mod_small in Heq by lia.
    change (Uint63.to_Z (Uint63.of_Z 0)) with 0 in Heq. lia. }
  rewrite Hnz in Hcheck. simpl orb in Hcheck.
  repeat (apply andb_true_iff in Hcheck; destruct Hcheck as [Hcheck ?]).
  pose proof (improved_corner_score_values board) as Hin.
  unfold corner_scores in Hin. simpl In in Hin.
  repeat match goal with H : negb _ = true |- _ => apply negb_true_iff in H end.
  destruct Hin as [<-|[<-|[<-|[<-|[<-|[<-|[<-|[<-|[]]]]]]]]]; assumption.
Qed.

Lemma corner_term_at_zero board : Evaluator.corner_term board 0 = 0%float.
Proof.
  unfold Evaluator.corner_term, Evaluator.improved_corner_score, Evaluator.anchor_penalty,
    Evaluator.monotonic_chain_score.
  pose proof (chain_max_range board) as Hc. cbv zeta in Hc.
  destruct (Evaluator.cell board 0 =? Evaluator.max_tile board);
    destruct Hc as [-> | [-> | [-> | ->]]]; vm_compute; reflexivity.
Qed.

(** C7, as the code has it: [improved_corner_score] is
    [0.8 * anchor + 0.2 * chain]. The anchor is 1.0 exactly when cell 0
    holds a largest tile, and 0.0 otherwise: only cell 0, of the four
    corners, counts. The chain part is one of 0.25, 0.5, 0.75 and 1
    whatever the board. The score is therefore at least 0.05 on every
    board and never zero; it is at least 0.85 when cell 0 holds a largest
    tile and at most 0.2 when it does not, wherever else the largest tile
    stands. The corner term of the evaluation is
    [base_score * 0.55 * improved_corner_score]: it is 0 at the score 0,
    and at every score from 1 to [2^22 - 1] it is not zero, on every
    board. *)
Theorem corner_score_never_zero (board : list Z) :
  PrimFloat.leb 0.05 (Evaluator.improved_corner_score board) = true /\
  (if Evaluator.cell board 0 =? Evaluator.max_tile board
   then PrimFloat.leb 0.85 (Evaluator.improved_corner_score board)
   else PrimFloat.leb (Evaluator.improved_corner_score board) 0.2) = true /\
  Evaluator.improved_corner_score board
    = (0.8 * Evaluator.anchor_penalty board
       + 0.2 * Evaluator.monotonic_chain_score board)%float /\
  (Evaluator.anchor_penalty board = 1%float
   <-> Evaluator.cell board 0 = Evaluator.max_tile board) /\
  (Evaluator.anchor_penalty board = 0%float
   <-> Evaluator.cell board 0 <> Evaluator.max_tile board) /\
  In (Evaluator.monotonic_chain_score board) [0.25; 0.5; 0.75; 1]%float /\
  PrimFloat.eqb (Evaluator.improved_corner_score board) 0 = false /\
  (forall base_score : Z,
     Evaluator.corner_term board base_score
     = (float_of_int base_score * 0.55 * Evaluator.improved_corner_score board)%float) /\
  Evaluator.corner_term board 0 = 0%float /\
  (forall base_score : Z,
     1 <= base_score < 4194304 ->
     PrimFloat.eqb (Evaluator.corner_term board base_score) 0 = false).
Proof.
  assert (Hbounds :
    PrimFloat.leb 0.05 (Evaluator.improved_corner_score board) = true /\
    (if Evaluator.cell board 0 =? Evaluator.max_tile board
     then PrimFloat.leb 0.85 (Evaluator.improved_corner_score board)
     else PrimFloat.leb (Evaluator.improved_corner_score board) 0.2) = true /\
    PrimFloat.eqb (Evaluator.improved_corner_score board) 0 = false).
  { unfold Evaluator.improved_corner_score, Evaluator.anchor_penalty,
      Evaluator.monotonic_chain_score.
    pose proof (chain_max_range board) as Hc. cbv zeta in Hc.
    destruct (Evaluator.cell board 0 =? Evaluator.max_tile board);
      destruct Hc as [-> | [-> | [-> | ->]]]; repeat split; vm_compute; reflexivity. }
  destruct Hbounds as (Hlow & Hside & Hnonzero).
  assert (Hdistinct : (1 : float) <> 0%float).
  { intros Heq. apply (f_equal (fun x => PrimFloat.eqb x 0)) in Heq.
    vm_compute in Heq. discriminate. }
  split; [exact Hlow|]. split; [exact Hside|]. split; [reflexivity|].
  split; [|split; [|split; [|split; [|split; [|split]]]]].
  - unfold Evaluator.anchor_penalty.
    destruct (Z.eqb_spec (Evaluator.cell board 0) (Evaluator.max_tile board)) as [Heq|Hne];
      split; intros Hanchor; auto; try contradiction.
    symmetry in Hanchor. contradiction.
  - unfold Evaluator.anchor_penalty.
    destruct (Z.eqb_spec (Evaluator.cell board 0) (Evaluator.max_tile board)) as [Heq|Hne];
      split; intros Hanchor; auto; contradiction.
  - apply monotonic_chain_score_values.
  - exact Hnonzero.
  - intros base_score. reflexivity.
  - apply corner_term_at_zero.
  - intros base_score. apply corner_term_nonzero.
Qed.

(** C7 fails as stated: on [centre_heavy] no corner holds the largest
    tile, and with a score of 4 the corner term of the evaluation is
    0.11, not zero. *)
Lemma corner_term_without_corner :
  max_in_corner centre_heavy = false /\
  Evaluator.improved_corner_score centre_heavy = 0.05%float /\
  Evaluator.corner_term centre_heavy 4 = 0.11000000000000001%float /\
  PrimFloat.eqb (Evaluator.corner_term centre_heavy 4) 0 = false.
Proof. vm_compute. repeat split. Qed.

(* ================================================================== *)
(** * Further properties of the search *)

Section Further.
Context {V : Type} `{Number V} {State : Type} `{Game State}.
Variable heuristic : State -> V.

(** X1: the search is sound for every window, not only the full one. A
    value [v] returned by [maxPlayer] or [minPlayer] with [alpha < beta]
    bounds the value [m] of the search without cut-offs from the side it
    can still matter on: [v <= m] when [v] is above [alpha], [m <= v]
    when [v] is below [beta], hence [v = m] inside the window. *)
Theorem search_within_window
    (depth : nat) (state : State) (alpha beta : V) (p : Player) (v : V) :
  ltb alpha beta = true ->
  (fst (maxPlayer heuristic depth state alpha beta p) = Some v ->
   within_window alpha beta v (maxFull heuristic depth state)) /\
  (fst (minPlayer heuristic depth state alpha beta p) = Some v ->
   within_window alpha beta v (minFull heuristic depth state)).
Proof.
  intros Hwindow. destruct (search_sound heuristic depth) as [Hmax Hmin].
  split; intros Hrun.
  - destruct (maxPlayer heuristic depth state alpha beta p) as [r p'] eqn:Hrun'.
    simpl in Hrun. subst r. exact (Hmax _ _ _ _ _ _ Hwindow Hrun').
  - destruct (minPlayer heuristic depth state alpha beta p) as [r p'] eqn:Hrun'.
    simpl in Hrun. subst r. exact (Hmin _ _ _ _ _ _ Hwindow Hrun').
Qed.

Lemma deepen_uses_the_clock fuel :
  forall depth state acts p,
    fst (deepen heuristic fuel depth state acts p) = true ->
    ticks (snd (deepen heuristic fuel depth state acts p)) = 0%nat.
Proof.
  induction fuel as [|fuel IH]; intros depth state acts p; simpl; [discriminate|].
  unfold bind at 1 3. unfold timeRemaining. cbv beta.
  destruct (ticks p) as [|k] eqn:Hk; simpl; [intros _; exact Hk|].
  unfold bind.
  destruct (depth_iteration heuristic depth state acts (with_ticks k p)) as [u p2].
  apply IH.
Qed.

(** X2: [findMove] returns on every state and every clock. On a state
    with a legal action it returns only once the clock has run out: it
    keeps deepening while a check passes. *)
Theorem findMove_returns_at_deadline (state : State) (p : Player) :
  exists p', findMove heuristic state p = Some p' /\
             (actions state = [] \/ ticks p' = 0%nat).
Proof.
  unfold findMove.
  destruct (moveOrder state) as [|a0 rest] eqn:Horder.
  - apply moveOrder_nil in Horder. eauto.
  - cbv beta iota zeta delta [setMove modify].
    set (p1 := with_move (Some a0) (bump_count p)).
    pose proof (deepen_finishes heuristic (S (ticks p1)) 1 state (a0 :: rest) p1
                  (Nat.lt_succ_diag_r _)) as Hfin.
    pose proof (deepen_uses_the_clock (S (ticks p1)) 1 state (a0 :: rest) p1 Hfin) as Hzero.
    destruct (deepen heuristic (S (ticks p1)) 1 state (a0 :: rest) p1) as [finished p2].
    simpl in Hfin, Hzero. subst finished. eauto.
Qed.

End Further.

(* ================================================================== *)
(** * The properties on the example positions *)

Local Open Scope string_scope.

(** [findMove_commits_legal_move] on [opening] with one tick: the move
    committed is ['U'], the first of [moveOrder]. *)
Lemma findMove_commits_legal_move_opening :
  actions opening <> [] /\
  exists p' m,
    findMove tree_heuristic opening (start_clock 1 new_player) = Some p' /\
    getMove p' = Some m /\
    In m (actions opening) /\
    ((ticks (start_clock 1 new_player) <= 1)%nat ->
     Some m = hd_error (moveOrder opening)).
Proof.
  split; [discriminate|].
  apply (findMove_commits_legal_move tree_heuristic opening (start_clock 1 new_player)).
  discriminate.
Defined.

(** [findMove_no_legal_action] on the full board [stuck], from the
    player of [__init__] with three ticks on the clock: ['U'] is
    committed, [_count] is 1, and the three ticks are still there. *)
Lemma findMove_no_legal_action_stuck :
  actions stuck = [] /\
  exists p',
    findMove tree_heuristic stuck (start_clock 3 new_player) = Some p' /\
    p' = mkPlayer 0 0 0 0 1 0 (Some "U") 3 /\
    getMove p' = Some "U" /\
    forall other : GameTree -> pyvalue,
      findMove other stuck (start_clock 3 new_player) = Some p'.
Proof.
  assert (Hnone : actions stuck = []) by reflexivity.
  split; [exact Hnone|].
  destruct (findMove_no_legal_action tree_heuristic stuck (start_clock 3 new_player) Hnone)
    as (p' & Hrun & Hmove & _ & _ & _ & _ & _ & _ & _ & Hother).
  exists p'. split; [exact Hrun|]. split; [|split; [exact Hmove|exact Hother]].
  injection Hrun as <-. reflexivity.
Defined.

(** [noop_skipped_at_root] on [noop_first] with two ticks. ['L'] leaves
    the board as it is and stands first in [moveOrder]; it is committed
    before the search. The iteration at depth 1 passes over it, spends
    its one check on ['R'], visits the one node under ['R'] and commits
    ['R'], which changes the board. *)
Lemma noop_skipped_at_root_noop_first :
  let p := start_clock 2 new_player in
  let p' := mkPlayer 1 0 1 1 1 0 (Some "R") 0 in
  actions noop_first <> [] /\
  moveOrder (V := pyvalue) noop_first = ["L"; "R"] /\
  same_board (_board (move noop_first "L")) (_board noop_first) = true /\
  findMove tree_heuristic noop_first p = Some p' /\
  (Some "R" = hd_error (moveOrder noop_first) \/
   same_board (_board (move noop_first "R")) (_board noop_first) = false) /\
  root_loop tree_heuristic 0 noop_first ["L"; "R"] (of_float neg_infinity) None
    (of_int (-10000)) (start_clock 1 new_player)
  = root_loop tree_heuristic 0 noop_first (filter (changes_board noop_first) ["L"; "R"])
      (of_float neg_infinity) None (of_int (-10000)) (start_clock 1 new_player) /\
  filter (changes_board noop_first) ["L"; "R"] = ["R"] /\
  root_loop tree_heuristic 0 noop_first ["L"; "R"] (of_float neg_infinity) None
    (of_int (-10000)) (start_clock 1 new_player)
  = ((Some "R", of_float 0), mkPlayer 1 0 1 0 0 0 None 0).
Proof.
  cbv zeta.
  assert (Hlegal : actions noop_first <> []) by discriminate.
  assert (Hrun : findMove tree_heuristic noop_first (start_clock 2 new_player)
                 = Some (mkPlayer 1 0 1 1 1 0 (Some "R") 0))
    by (vm_compute; reflexivity).
  destruct (noop_skipped_at_root tree_heuristic noop_first (start_clock 2 new_player)
              (mkPlayer 1 0 1 1 1 0 (Some "R") 0) "R" Hlegal Hrun eq_refl)
    as (Hmove & Hfilter & _).
  split; [exact Hlegal|]. split; [vm_compute; reflexivity|].
  split; [reflexivity|]. split; [exact Hrun|]. split; [exact Hmove|].
  split; [apply Hfilter|]. split; vm_compute; reflexivity.
Defined.

(** C9 fails as stated: the one action of [noop_only] leaves the board
    as it is; [moveOrder] lists it, [findMove] commits it whatever the
    budget (here five ticks), and [maxPlayer] expands it as a branch
    (two nodes are visited: the root and its child). *)
Lemma noop_committed_and_expanded :
  same_board (_board (move noop_only "L")) (_board noop_only) = true /\
  moveOrder (V := pyvalue) noop_only = ["L"] /\
  option_map getMove (findMove tree_heuristic noop_only (start_clock 5 new_player))
    = Some (Some "L") /\
  _nodeCount (snd (maxPlayer tree_heuristic 1 noop_only (of_float neg_infinity)
                     (of_float infinity) (start_clock 5 new_player))) = 2.
Proof. vm_compute. repeat split. Qed.

(** [commitment_only_from_full_evaluations] on [opening]. With two
    ticks the loop at depth 2 passes the check in front of ['U'] and the
    search under ['U'] runs out of time and returns [None]: the loop
    stops with nothing chosen. One iteration at depth 2 with four ticks
    evaluates ['U'] in full, the search under ['L'] returns [None], and
    ['U'] is committed. A call of [findMove] with seven ticks commits
    ['U'] before the search and ['L'] in the iteration at depth 1; the
    iteration at depth 2 is stopped inside the search under ['U'], and
    ['L'] stays committed. *)
Lemma commitment_only_from_full_evaluations_opening :
  let p := start_clock 4 new_player in
  let p' := snd (depth_iteration tree_heuristic 2 opening (moveOrder opening) p) in
  let q := start_clock 2 new_player in
  let r := start_clock 7 new_player in
  let r' := mkPlayer 5 1 5 2 1 0 (Some "L") 0 in
  (getMove p' = Some "U" /\
   (getMove p' = getMove p \/
    exists a v, getMove p' = Some a /\
      FullyEvaluated tree_heuristic (2 - 1) opening (moveOrder opening)
        (of_float neg_infinity) (bump_depthCount p) a v)) /\
  (same_board (_board (move opening "U")) (_board opening) = false /\
   fst (timeRemaining q) = true /\
   fst (minPlayer tree_heuristic 1 (move opening "U") (of_float neg_infinity)
          (of_float infinity) (snd (timeRemaining q))) = None /\
   fst (root_loop tree_heuristic 1 opening ["U"; "L"; "R"] (of_float neg_infinity)
          None (of_int (-10000)) q) = (None, of_int (-10000))) /\
  (moveOrder (V := pyvalue) opening = ["U"; "L"; "R"] /\
   findMove tree_heuristic opening r = Some r' /\
   Deepening tree_heuristic opening ["U"; "L"; "R"] 1
     (with_move (Some "U") (bump_count r)) r').
Proof.
  cbv zeta.
  pose proof (commitment_only_from_full_evaluations tree_heuristic opening)
    as (Hiter & _ & Habort & _ & Hloop & _).
  assert (Hnone : fst (minPlayer tree_heuristic 1 (move opening "U") (of_float neg_infinity)
                         (of_float infinity)
                         (snd (timeRemaining (start_clock 2 new_player)))) = None)
    by (vm_compute; reflexivity).
  assert (Horder : moveOrder (V := pyvalue) opening = ["U"; "L"; "R"])
    by (vm_compute; reflexivity).
  assert (Hrun : findMove tree_heuristic opening (start_clock 7 new_player)
                 = Some (mkPlayer 5 1 5 2 1 0 (Some "L") 0))
    by (vm_compute; reflexivity).
  split; [|split].
  - split; [vm_compute; reflexivity|].
    exact (Hiter 2%nat (moveOrder opening) (start_clock 4 new_player)).
  - split; [reflexivity|]. split; [reflexivity|]. split; [exact Hnone|].
    exact (Habort 1%nat "U" ["L"; "R"] (of_float neg_infinity) None (of_int (-10000))
             (start_clock 2 new_player) eq_refl (or_intror Hnone)).
  - split; [exact Horder|]. split; [exact Hrun|].
    exact (Hloop (start_clock 7 new_player) (mkPlayer 5 1 5 2 1 0 (Some "L") 0)
             "U" ["L"; "R"] Horder Hrun).
Defined.

(** [terminal_score_only_when_game_over] on the full board, reported as
    the end of the game and not. *)
Lemma terminal_score_game_over :
  gameOver game_over = true /\
  fst (maxPlayer tree_heuristic 3 game_over (of_float neg_infinity) (of_float infinity)
         new_player) = Some (of_int 100) /\
  fst (minPlayer tree_heuristic 3 game_over (of_float neg_infinity) (of_float infinity)
         new_player) = Some (of_int 100) /\
  gameOver stuck = false /\ actions stuck = [] /\
  fst (maxPlayer tree_heuristic 3 stuck (of_float neg_infinity) (of_float infinity)
         new_player) = Some (of_int (-10000)).
Proof.
  split; [reflexivity|].
  pose proof (proj1 (terminal_score_only_when_game_over tree_heuristic 3 game_over
                       (of_float neg_infinity) (of_float infinity) new_player) eq_refl)
    as [Hmax Hmin].
  split; [exact Hmax|]. split; [exact Hmin|].
  split; [reflexivity|]. split; [reflexivity|].
  exact (proj1 (proj2 (terminal_score_only_when_game_over tree_heuristic 2 stuck
                         (of_float neg_infinity) (of_float infinity) new_player) eq_refl)
           eq_refl).
Defined.

(** C5 fails as stated: the full board [stuck] has no legal action and
    no placement, and the engine does not call it the end of the game.
    Its score is 100; the Max node returns [-10000] and the Chance node
    [1e6], and at depth 0 both return the evaluation, which is above the
    score. *)
Lemma no_fallback_without_game_over :
  actions stuck = [] /\ possibleTiles stuck = [] /\
  gameOver stuck = false /\ getScore stuck = 100 /\
  fst (maxPlayer tree_heuristic 1 stuck (of_float neg_infinity) (of_float infinity)
         new_player) = Some (of_int (-10000)) /\
  fst (minPlayer tree_heuristic 1 stuck (of_float neg_infinity) (of_float infinity)
         new_player) = Some (of_float 1e6) /\
  fst (maxPlayer tree_heuristic 0 stuck (of_float neg_infinity) (of_float infinity)
         new_player) = Some (of_float 102.80141601562499) /\
  ltb (of_int (-10000)) (of_int 100 : pyvalue) = true /\
  ltb (of_int 100 : pyvalue) (of_float 102.80141601562499) = true /\
  ltb (of_int 100 : pyvalue) (of_float 1e6) = true.
Proof. vm_compute. repeat split. Qed.

(** C6 fails as stated: on [opening] the code puts ['U'] first, the
    action with the largest gradient (7 against 2 and 0.2); by the
    specification's key ['U'] comes last, with 224 against 244 for ['L']
    and ['R'], which merge the two tiles and free a cell. *)
Lemma moveOrder_not_by_ordering_score :
  actions opening = ["L"; "R"; "U"] /\
  moveOrder (V := pyvalue) opening = ["U"; "L"; "R"] /\
  (orderingScore opening "U" < orderingScore opening "L")%Q /\
  (orderingScore opening "U" < orderingScore opening "R")%Q /\
  Evaluator.weighted_sum (_board (move opening "U")) = 7%float /\
  Evaluator.weighted_sum (_board (move opening "L")) = 2%float.
Proof. vm_compute. repeat split. Qed.

(** [alphabeta_equals_minimax] on [opening] at depth 2, where eight
    ticks are enough, and on the Chance node under ['U'] at depth 1. *)
Lemma alphabeta_equals_minimax_opening :
  max_in_range tree_heuristic 2 opening = true /\
  (max_checks (V := pyvalue) 2 opening <= ticks (start_clock 8 new_player))%nat /\
  fst (maxPlayer tree_heuristic 2 opening (of_float neg_infinity) (of_float infinity)
         (start_clock 8 new_player))
    = Some (maxValue tree_heuristic 2 opening) /\
  min_in_range tree_heuristic 1 (move opening "U") = true /\
  fst (minPlayer tree_heuristic 1 (move opening "U") (of_float neg_infinity)
         (of_float infinity) (start_clock 2 new_player))
    = Some (minValue tree_heuristic 1 (move opening "U")).
Proof.
  assert (Hmax : max_in_range tree_heuristic 2 opening = true) by (vm_compute; reflexivity).
  assert (Hmin : min_in_range tree_heuristic 1 (move opening "U") = true)
    by (vm_compute; reflexivity).
  assert (Hticks : (max_checks (V := pyvalue) 2 opening
                    <= ticks (start_clock 8 new_player))%nat)
    by (vm_compute; repeat constructor).
  assert (Hticks' : (min_checks (V := pyvalue) 1 (move opening "U")
                    <= ticks (start_clock 2 new_player))%nat)
    by (vm_compute; repeat constructor).
  split; [exact Hmax|]. split; [exact Hticks|].
  split; [|split; [exact Hmin|]].
  - exact (proj2 (proj1 (alphabeta_equals_minimax tree_heuristic 2 opening) Hmax)
             (start_clock 8 new_player) Hticks).
  - exact (proj2 (proj2 (alphabeta_equals_minimax tree_heuristic 1 (move opening "U")) Hmin)
             (start_clock 2 new_player) Hticks').
Defined.

(** C2 fails as stated: in [late_game] every placement ends the game
    with a score of 3932160. The full min/max traversal gives the root
    that value; the search returns [1e6], the initial [best] of a Chance
    node, which no child undercuts. *)
Lemma sentinel_caps_value :
  fst (maxPlayer tree_heuristic 2 late_game (of_float neg_infinity) (of_float infinity)
         (start_clock 10 new_player)) = Some (of_float 1e6) /\
  maxValue tree_heuristic 2 late_game = of_int 3932160 /\
  ltb (of_float 1e6 : pyvalue) (of_int 3932160) = true /\
  max_in_range tree_heuristic 2 late_game = false.
Proof. vm_compute. repeat split. Qed.

(** After a search that stopped at depth 1 no node has been expanded:
    [stats] prints the average depth and ends in [ZeroDivisionError]. *)
Example stats_after_shallow_search :
  option_map stats (findMove tree_heuristic opening (start_clock 2 new_player))
  = Some ([("Average depth", 1%Q)], Some ZeroDivisionError).
Proof. vm_compute. reflexivity. Qed.

(** [search_within_window] on [opening] at depth 2 with the window
    [(0, 5)]: one branch is cut off, and the value returned, inside the
    window, is the one the search without cut-offs gives. *)
Lemma search_within_window_opening :
  let run := maxPlayer tree_heuristic 2 opening (of_int 0) (of_int 5)
               (start_clock 8 new_player) in
  ltb (of_int 0 : pyvalue) (of_int 5) = true /\
  fst run = Some (maxFull tree_heuristic 2 opening) /\
  _pruneCount (snd run) = 1 /\
  within_window (of_int 0) (of_int 5) (maxFull tree_heuristic 2 opening)
    (maxFull tree_heuristic 2 opening).
Proof.
  cbv zeta.
  assert (Hwindow : ltb (of_int 0 : pyvalue) (of_int 5) = true) by reflexivity.
  assert (Hrun : fst (maxPlayer tree_heuristic 2 opening (of_int 0) (of_int 5)
                        (start_clock 8 new_player))
                 = Some (maxFull tree_heuristic 2 opening))
    by (vm_compute; reflexivity).
  split; [exact Hwindow|]. split; [exact Hrun|]. split; [vm_compute; reflexivity|].
  exact (proj1 (search_within_window tree_heuristic 2 opening (of_int 0) (of_int 5)
                  (start_clock 8 new_player) (maxFull tree_heuristic 2 opening) Hwindow)
           Hrun).
Defined.

Local Close Scope string_scope.

(* ================================================================== *)
(** * The instrumentation *)

(** Closes a goal about the counters and the clock of two players: the
    updates of the record are unfolded, and the rest is arithmetic. *)
Ltac tally_close :=
  unfold tally, spent, bump_nodeCount, bump_parentCount, bump_childCount,
    bump_depthCount, bump_count, bump_pruneCount, with_move, with_ticks in *;
  cbn [_nodeCount _parentCount _childCount _depthCount _count _pruneCount _move ticks
       fst snd] in *;
  lia.

Section Tally.
Context {V : Type} `{Number V} {State : Type} `{Game State}.
Variable heuristic : State -> V.

Lemma max_loop_tallies child state :
  (forall st a b, tallies 1 0 (child st a b)) ->
  forall acts best alpha beta, tallies 0 1 (max_loop child state acts best alpha beta).
Proof.
  intros Hchild. induction acts as [|a rest IH]; intros best alpha beta p r p' Hrun;
    simpl in Hrun.
  - injection Hrun as _ <-. tally_close.
  - unfold bind at 1 in Hrun. unfold timeRemaining in Hrun.
    destruct (ticks p) as [|k] eqn:Hk; simpl in Hrun; [injection Hrun as _ <-; tally_close|].
    unfold bind at 1 in Hrun.
    destruct (child (move state a) alpha beta (with_ticks k p)) as [[v|] p2] eqn:Hc;
      apply Hchild in Hc.
    + destruct (geb (pymax alpha (if ltb best v then v else best)) beta).
      * injection Hrun as _ <-. tally_close.
      * apply IH in Hrun. tally_close.
    + injection Hrun as _ <-. tally_close.
Qed.

Lemma min_loop_tallies child state :
  (forall st a b, tallies 1 0 (child st a b)) ->
  forall tiles best alpha beta, tallies 0 1 (min_loop child state tiles best alpha beta).
Proof.
  intros Hchild. induction tiles as [|[t tv] rest IH]; intros best alpha beta p r p' Hrun;
    simpl in Hrun.
  - injection Hrun as _ <-. tally_close.
  - unfold bind at 1 in Hrun. unfold timeRemaining in Hrun.
    destruct (ticks p) as [|k] eqn:Hk; simpl in Hrun; [injection Hrun as _ <-; tally_close|].
    unfold bind at 1 in Hrun.
    destruct (child (addTile state t tv) alpha beta (with_ticks k p)) as [[v|] p2] eqn:Hc;
      apply Hchild in Hc.
    + destruct (geb alpha (pymin beta (if ltb v best then v else best))).
      * injection Hrun as _ <-. tally_close.
      * apply IH in Hrun. tally_close.
    + injection Hrun as _ <-. tally_close.
Qed.

Lemma search_tallies (depth : nat) :
  (forall st a b, tallies 1 0 (maxPlayer heuristic depth st a b)) /\
  (forall st a b, tallies 1 0 (minPlayer heuristic depth st a b)).
Proof.
  induction depth as [|d [IHmax IHmin]]; split; intros st a b p r p' Hrun;
    simpl in Hrun; unfold bind at 1 2, modify in Hrun; simpl in Hrun;
    destruct (gameOver st); try (injection Hrun as _ <-; tally_close).
  - unfold bind at 1 in Hrun. simpl in Hrun.
    apply (max_loop_tallies _ st IHmin) in Hrun. tally_close.
  - unfold bind at 1 in Hrun. simpl in Hrun.
    apply (min_loop_tallies _ st IHmax) in Hrun. tally_close.
Qed.

Lemma root_loop_tallies d state :
  forall acts alpha depthMove depthScore,
    tallies 0 0 (root_loop heuristic d state acts alpha depthMove depthScore).
Proof.
  induction acts as [|a rest IH]; intros alpha dm ds p r p' Hrun; simpl in Hrun.
  - injection Hrun as _ <-. tally_close.
  - destruct (same_board (_board (move state a)) (_board state));
      [apply IH in Hrun; exact Hrun|].
    unfold bind at 1 in Hrun. unfold timeRemaining in Hrun.
    destruct (ticks p) as [|k] eqn:Hk; simpl in Hrun; [injection Hrun as _ <-; tally_close|].
    unfold bind at 1 in Hrun.
    destruct (minPlayer heuristic d (move state a) alpha (of_float infinity) (with_ticks k p))
      as [[v|] p2] eqn:Hc; apply (proj2 (search_tallies d)) in Hc.
    + destruct (ltb ds v); apply IH in Hrun; tally_close.
    + injection Hrun as _ <-. tally_close.
Qed.

(** One depth iteration raises [_depthCount] by one; the loop of
    [findMove] uses a tick for every iteration it starts. *)
Lemma deepen_tallies fuel :
  forall depth state acts p r p',
    deepen heuristic fuel depth state acts p = (r, p') ->
    _childCount p' - _childCount p = _nodeCount p' - _nodeCount p /\
    (_nodeCount p' - _nodeCount p) + (_depthCount p' - _depthCount p) = spent p p' /\
    0 <= _depthCount p' - _depthCount p /\
    (0 < spent p p' -> 0 < _depthCount p' - _depthCount p) /\
    0 <= _pruneCount p' - _pruneCount p <= _parentCount p' - _parentCount p /\
    0 <= _parentCount p' - _parentCount p <= _nodeCount p' - _nodeCount p /\
    _count p' = _count p.
Proof.
  induction fuel as [|fuel IH]; intros depth state acts p r p' Hrun; simpl in Hrun.
  - injection Hrun as _ <-. tally_close.
  - unfold bind at 1 in Hrun. unfold timeRemaining in Hrun.
    destruct (ticks p) as [|k] eqn:Hk; simpl in Hrun; [injection Hrun as _ <-; tally_close|].
    unfold bind at 1 in Hrun. unfold depth_iteration in Hrun.
    unfold bind at 1 2, modify in Hrun.
    destruct (root_loop heuristic (depth - 1) state acts (of_float neg_infinity) None
                (of_int (-10000)) (bump_depthCount (with_ticks k p))) as [[dm ds] p2] eqn:Hroot.
    apply root_loop_tallies in Hroot.
    destruct dm as [m|]; simpl in Hrun; apply IH in Hrun; tally_close.
Qed.

End Tally.

Section Deadline.
Context {V : Type} `{Number V} {State : Type} `{Game State}.
Variable heuristic : State -> V.

Lemma max_loop_stops child state :
  (forall st a b, stops_at_deadline (child st a b)) ->
  forall acts best alpha beta, stops_at_deadline (max_loop child state acts best alpha beta).
Proof.
  intros Hchild. induction acts as [|a rest IH]; intros best alpha beta p p' Hrun;
    simpl in Hrun; [discriminate|].
  unfold bind at 1 in Hrun. unfold timeRemaining in Hrun.
  destruct (ticks p) as [|k] eqn:Hk; simpl in Hrun; [injection Hrun as <-; exact Hk|].
  unfold bind at 1 in Hrun.
  destruct (child (move state a) alpha beta (with_ticks k p)) as [[v|] p2] eqn:Hc.
  - destruct (geb (pymax alpha (if ltb best v then v else best)) beta); [discriminate|].
    eapply IH; eassumption.
  - injection Hrun as <-. eapply Hchild; eassumption.
Qed.

Lemma min_loop_stops child state :
  (forall st a b, stops_at_deadline (child st a b)) ->
  forall tiles best alpha beta, stops_at_deadline (min_loop child state tiles best alpha beta).
Proof.
  intros Hchild. induction tiles as [|[t tv] rest IH]; intros best alpha beta p p' Hrun;
    simpl in Hrun; [discriminate|].
  unfold bind at 1 in Hrun. unfold timeRemaining in Hrun.
  destruct (ticks p) as [|k] eqn:Hk; simpl in Hrun; [injection Hrun as <-; exact Hk|].
  unfold bind at 1 in Hrun.
  destruct (child (addTile state t tv) alpha beta (with_ticks k p)) as [[v|] p2] eqn:Hc.
  - destruct (geb alpha (pymin beta (if ltb v best then v else best))); [discriminate|].
    eapply IH; eassumption.
  - injection Hrun as <-. eapply Hchild; eassumption.
Qed.

Lemma search_stops (depth : nat) :
  (forall st a b, stops_at_deadline (maxPlayer heuristic depth st a b)) /\
  (forall st a b, stops_at_deadline (minPlayer heuristic depth st a b)).
Proof.
  induction depth as [|d [IHmax IHmin]]; split; intros st a b p p' Hrun;
    simpl in Hrun; unfold bind at 1 2, modify in Hrun; simpl in Hrun;
    destruct (gameOver st); try discriminate.
  - unfold bind at 1 in Hrun. simpl in Hrun.
    exact (max_loop_stops _ st IHmin _ _ _ _ _ _ Hrun).
  - unfold bind at 1 in Hrun. simpl in Hrun.
    exact (min_loop_stops _ st IHmax _ _ _ _ _ _ Hrun).
Qed.

Lemma max_loop_spends child cost size state :
  (forall st a b, tallies 1 0 (child st a b)) ->
  (forall st a b, spends (child st a b) (cost st) (size st)) ->
  forall acts best alpha beta,
    spends (max_loop child state acts best alpha beta)
           (list_sum (map (fun a => S (cost (move state a))) acts))
           (list_sum (map (fun a => size (move state a)) acts)).
Proof.
  intros Htally Hchild. induction acts as [|a rest IH]; intros best alpha beta p r p' Hrun.
  - simpl in Hrun. injection Hrun as _ <-. simpl. unfold spent. lia.
  - pose proof (max_loop_tallies child state Htally _ _ _ _ _ _ _ Hrun) as Hall.
    simpl in Hrun. simpl map. simpl list_sum.
    remember (list_sum (map (fun a => S (cost (move state a))) rest)) as n eqn:Hn.
    remember (list_sum (map (fun a => size (move state a)) rest)) as m eqn:Hm.
    unfold bind at 1 in Hrun. unfold timeRemaining in Hrun.
    destruct (ticks p) as [|k] eqn:Hk; simpl in Hrun.
    { injection Hrun as <- <-. clear IH Hn Hm. split; [tally_close|split; [tally_close|congruence]]. }
    unfold bind at 1 in Hrun.
    destruct (child (move state a) alpha beta (with_ticks k p)) as [[v|] p2] eqn:Hc.
    + pose proof (Htally _ _ _ _ _ _ Hc) as Hct. apply Hchild in Hc. destruct Hc as (Hle & Hlp & Heq).
      destruct (geb (pymax alpha (if ltb best v then v else best)) beta).
      * injection Hrun as <- <-. clear IH Hn Hm. split; [tally_close|]. split; [tally_close|].
        intros _ Hp. exfalso. tally_close.
      * pose proof (max_loop_tallies child state Htally _ _ _ _ _ _ _ Hrun) as Hrt.
        apply IH in Hrun. clear IH Hn Hm. destruct Hrun as (Hle' & Hlp' & Heq').
        split; [tally_close|]. split; [tally_close|]. intros Hr Hp.
        assert (Hp2 : _pruneCount p2 = _pruneCount p) by tally_close.
        assert (Hp3 : _pruneCount p' = _pruneCount p2) by tally_close.
        specialize (Heq ltac:(discriminate) Hp2). specialize (Heq' Hr Hp3). tally_close.
    + injection Hrun as <- <-. apply Hchild in Hc. clear IH Hn Hm.
      split; [tally_close|split; [tally_close|congruence]].
Qed.

Lemma min_loop_spends child cost size state :
  (forall st a b, tallies 1 0 (child st a b)) ->
  (forall st a b, spends (child st a b) (cost st) (size st)) ->
  forall tiles best alpha beta,
    spends (min_loop child state tiles best alpha beta)
           (list_sum (map (fun t => S (cost (addTile state (fst t) (snd t)))) tiles))
           (list_sum (map (fun t => size (addTile state (fst t) (snd t))) tiles)).
Proof.
  intros Htally Hchild. induction tiles as [|[t tv] rest IH]; intros best alpha beta p r p' Hrun.
  - simpl in Hrun. injection Hrun as _ <-. simpl. unfold spent. lia.
  - pose proof (min_loop_tallies child state Htally _ _ _ _ _ _ _ Hrun) as Hall.
    simpl in Hrun. simpl map. simpl list_sum.
    remember (list_sum (map (fun t => S (cost (addTile state (fst t) (snd t)))) rest))
      as n eqn:Hn.
    remember (list_sum (map (fun t => size (addTile state (fst t) (snd t))) rest))
      as m eqn:Hm.
    unfold bind at 1 in Hrun. unfold timeRemaining in Hrun.
    destruct (ticks p) as [|k] eqn:Hk; simpl in Hrun.
    { injection Hrun as <- <-. clear IH Hn Hm. split; [tally_close|split; [tally_close|congruence]]. }
    unfold bind at 1 in Hrun.
    destruct (child (addTile state t tv) alpha beta (with_ticks k p)) as [[v|] p2] eqn:Hc.
    + pose proof (Htally _ _ _ _ _ _ Hc) as Hct. apply Hchild in Hc. destruct Hc as (Hle & Hlp & Heq).
      destruct (geb alpha (pymin beta (if ltb v best then v else best))).
      * injection Hrun as <- <-. clear IH Hn Hm. split; [tally_close|]. split; [tally_close|].
        intros _ Hp. exfalso. tally_close.
      * pose proof (min_loop_tallies child state Htally _ _ _ _ _ _ _ Hrun) as Hrt.
        apply IH in Hrun. clear IH Hn Hm. destruct Hrun as (Hle' & Hlp' & Heq').
        split; [tally_close|]. split; [tally_close|]. intros Hr Hp.
        assert (Hp2 : _pruneCount p2 = _pruneCount p) by tally_close.
        assert (Hp3 : _pruneCount p' = _pruneCount p2) by tally_close.
        specialize (Heq ltac:(discriminate) Hp2). specialize (Heq' Hr Hp3). tally_close.
    + injection Hrun as <- <-. apply Hchild in Hc. clear IH Hn Hm.
      split; [tally_close|split; [tally_close|congruence]].
Qed.

Lemma search_spends (depth : nat) :
  (forall st a b, spends (maxPlayer heuristic depth st a b)
                         (max_checks depth st) (max_expanded depth st)) /\
  (forall st a b, spends (minPlayer heuristic depth st a b)
                         (min_checks depth st) (min_expanded depth st)).
Proof.
  induction depth as [|d [IHmax IHmin]]; split; intros st a b p r p' Hrun;
    simpl in Hrun; unfold bind at 1 2, modify in Hrun; simpl in Hrun; simpl;
    destruct (gameOver st);
    try (injection Hrun as _ <-; unfold spent; simpl; lia).
  - unfold bind at 1 in Hrun. simpl in Hrun.
    apply (max_loop_spends _ _ _ st (proj2 (search_tallies heuristic d)) IHmin) in Hrun.
    remember (list_sum (map (fun a => S _) _)) as n eqn:Hn in *. clear Hn.
    remember (list_sum _) as m eqn:Hm in *. clear Hm.
    destruct Hrun as (Hle & Hlp & Heq).
    split; [tally_close|]. split; [tally_close|].
    intros Hr Hp. specialize (Heq Hr). tally_close.
  - unfold bind at 1 in Hrun. simpl in Hrun.
    apply (min_loop_spends _ _ _ st (proj1 (search_tallies heuristic d)) IHmax) in Hrun.
    remember (list_sum (map (fun t => S _) _)) as n eqn:Hn in *. clear Hn.
    remember (list_sum _) as m eqn:Hm in *. clear Hm.
    destruct Hrun as (Hle & Hlp & Heq).
    split; [tally_close|]. split; [tally_close|].
    intros Hr Hp. specialize (Heq Hr). tally_close.
Qed.

End Deadline.

Section Counters.
Context {V : Type} `{Number V} {State : Type} `{Game State}.
Variable heuristic : State -> V.

(** X3: over a call of [maxPlayer] or [minPlayer], whatever its outcome,
    [_childCount] and [_nodeCount] grow by the same amount, which is one
    more than the number of deadline checks that passed; the nodes
    expanded are at most the nodes visited, the branches cut off at most
    the nodes expanded, and [_count] and [_depthCount] do not change. *)
Theorem search_counts (depth : nat) (state : State) (alpha beta : V) (p : Player) :
  tally 1 0 p (snd (maxPlayer heuristic depth state alpha beta p)) /\
  tally 1 0 p (snd (minPlayer heuristic depth state alpha beta p)).
Proof.
  destruct (search_tallies heuristic depth) as [Hmax Hmin]. split.
  - destruct (maxPlayer heuristic depth state alpha beta p) as [r p'] eqn:Hrun.
    exact (Hmax _ _ _ _ _ _ Hrun).
  - destruct (minPlayer heuristic depth state alpha beta p) as [r p'] eqn:Hrun.
    exact (Hmin _ _ _ _ _ _ Hrun).
Qed.

Lemma findMove_tallies state p p' :
  findMove heuristic state p = Some p' ->
  _count p' = _count p + 1 /\
  _childCount p' - _childCount p = _nodeCount p' - _nodeCount p /\
  (_nodeCount p' - _nodeCount p) + (_depthCount p' - _depthCount p) = spent p p' /\
  0 <= _depthCount p' - _depthCount p /\
  (0 < spent p p' -> 0 < _depthCount p' - _depthCount p) /\
  0 <= _pruneCount p' - _pruneCount p <= _parentCount p' - _parentCount p /\
  _parentCount p' - _parentCount p <= _nodeCount p' - _nodeCount p.
Proof.
  rewrite findMove_unfold. destruct (moveOrder state) as [|a0 rest].
  - intros [= <-]. tally_close.
  - cbv zeta. set (p1 := with_move (Some a0) (bump_count p)).
    destruct (deepen heuristic (S (ticks p1)) 1 state (a0 :: rest) p1) as [r p2] eqn:Hrun.
    intros [= <-]. apply deepen_tallies in Hrun. subst p1. tally_close.
Qed.

(** X4: [findMove] returns and raises [_count] by one. [_childCount]
    and [_nodeCount] grow by the same amount; every deadline check that
    passed started a depth iteration or a node, so [_depthCount] and
    [_nodeCount] grow together by the number of ticks used, and a depth
    iteration was started if any check passed. The branches cut off are
    at most the nodes expanded, and these at most the nodes visited. *)
Theorem findMove_counts (state : State) (p : Player) :
  exists p', findMove heuristic state p = Some p' /\
    _count p' = _count p + 1 /\
    _childCount p' - _childCount p = _nodeCount p' - _nodeCount p /\
    (_nodeCount p' - _nodeCount p) + (_depthCount p' - _depthCount p) = spent p p' /\
    0 <= _depthCount p' - _depthCount p /\
    (0 < spent p p' -> 0 < _depthCount p' - _depthCount p) /\
    0 <= _pruneCount p' - _pruneCount p <= _parentCount p' - _parentCount p /\
    _parentCount p' - _parentCount p <= _nodeCount p' - _nodeCount p.
Proof.
  destruct (findMove_returns heuristic state p) as [p' Hrun].
  exists p'. split; [exact Hrun|]. exact (findMove_tallies state p p' Hrun).
Qed.

Lemma findMove_well_counted state p p' :
  well_counted p -> findMove heuristic state p = Some p' ->
  well_counted p' /\ 0 < _count p'.
Proof.
  intros Hp Hrun. apply findMove_tallies in Hrun. unfold well_counted in *.
  unfold spent in Hrun. lia.
Qed.

Lemma findMove_shallow state p p' :
  (ticks p <= 1)%nat -> findMove heuristic state p = Some p' ->
  _parentCount p' = _parentCount p.
Proof.
  intros Hp Hrun. apply findMove_tallies in Hrun. unfold spent in Hrun. lia.
Qed.

End Counters.

Lemma stats_lines_bounds (p : Player) :
  well_counted p ->
  forall label x, In (label, x) (fst (stats p)) ->
    (0 <= x)%Q /\ (label = "Branching factor"%string -> (1 <= x)%Q).
Proof.
  intros (Hcn & Hprune & Hparent & Hdepth & Hcount) label x.
  unfold stats, true_div.
  destruct (Z.eqb_spec (_count p) 0) as [Hc|Hc]; [intros []|].
  assert (Havg : (0 <= inject_Z (_depthCount p) / inject_Z (_count p))%Q).
  { apply Qle_shift_div_l; [change 0%Q with (inject_Z 0); rewrite <- Zlt_Qlt; lia|].
    rewrite Qmult_0_l. change 0%Q with (inject_Z 0). rewrite <- Zle_Qle. lia. }
  destruct (Z.eqb_spec (_parentCount p) 0) as [Hq|Hq]; simpl.
  - intros [[= <- <-]|[]]. split; [exact Havg|discriminate].
  - assert (Hbf : (1 <= inject_Z (_childCount p) / inject_Z (_parentCount p))%Q).
    { apply Qle_shift_div_l; [change 0%Q with (inject_Z 0); rewrite <- Zlt_Qlt; lia|].
      rewrite Qmult_1_l. rewrite <- Zle_Qle. lia. }
    intros [[= <- <-]|[[= <- <-]|[[= <- <-]|[]]]].
    + split; [exact Havg|discriminate].
    + split; [|intros _; exact Hbf].
      eapply Qle_trans; [|exact Hbf]. discriminate.
    + split; [|discriminate]. change 0%Q with (inject_Z 0). rewrite <- Zle_Qle. lia.
Qed.

Section Play.
Context {V : Type} `{Number V} {State : Type} `{Game State}.
Variable heuristic : State -> V.

(** X5: the counters of a player that starts well counted, as [__init__]
    leaves it, are well counted after [findMove], with [_count] above
    zero. [stats] then never fails on the average depth: it prints that
    line first, and after it the branching factor and the pruned nodes
    unless no node has been expanded yet, which is exactly when it fails,
    on the branching factor. Every number it prints is zero or more, and
    the branching factor is 1 or more. *)
Theorem stats_after_findMove (state : State) (p p' : Player) :
  well_counted p ->
  findMove heuristic state p = Some p' ->
  well_counted p' /\
  0 < _count p' /\
  fst (stats p')
    = ("Average depth"%string, Qdiv (inject_Z (_depthCount p')) (inject_Z (_count p')))
      :: (if _parentCount p' =? 0 then []
          else [("Branching factor"%string,
                 Qdiv (inject_Z (_childCount p')) (inject_Z (_parentCount p')));
                ("Pruned nodes"%string, inject_Z (_pruneCount p'))]) /\
  snd (stats p') = (if _parentCount p' =? 0 then Some ZeroDivisionError else None) /\
  (snd (stats p') = Some ZeroDivisionError <-> _parentCount p' = 0) /\
  forall label x, In (label, x) (fst (stats p')) ->
    (0 <= x)%Q /\ (label = "Branching factor"%string -> (1 <= x)%Q).
Proof.
  intros Hp Hrun. destruct (findMove_well_counted heuristic state p p' Hp Hrun) as [Hp' Hc].
  split; [exact Hp'|]. split; [exact Hc|].
  split; [|split; [|split; [|apply stats_lines_bounds; exact Hp']]];
    unfold stats, true_div;
    (destruct (Z.eqb_spec (_count p') 0) as [Hz|Hz]; [lia|]);
    destruct (Z.eqb_spec (_parentCount p') 0) as [Hq|Hq]; simpl; try reflexivity;
    split; intros; auto; try discriminate; contradiction.
Qed.

(** X6: [maxPlayer] and [minPlayer] return [None] only with the clock
    run out: no check made after an aborted search passes. *)
Theorem search_stops_only_at_deadline
    (depth : nat) (state : State) (alpha beta : V) (p : Player) :
  (fst (maxPlayer heuristic depth state alpha beta p) = None ->
   ticks (snd (maxPlayer heuristic depth state alpha beta p)) = 0%nat) /\
  (fst (minPlayer heuristic depth state alpha beta p) = None ->
   ticks (snd (minPlayer heuristic depth state alpha beta p)) = 0%nat).
Proof.
  destruct (search_stops heuristic depth) as [Hmax Hmin]. split; intros Hrun.
  - destruct (maxPlayer heuristic depth state alpha beta p) as [r p'] eqn:Hrun'.
    simpl in *. subst r. exact (Hmax _ _ _ _ _ Hrun').
  - destruct (minPlayer heuristic depth state alpha beta p) as [r p'] eqn:Hrun'.
    simpl in *. subst r. exact (Hmin _ _ _ _ _ Hrun').
Qed.

(** X7: cut-offs and the deadline only take nodes away. A search visits
    at most the nodes of the tree without pruning (one more than its
    deadline checks) and expands at most the nodes that tree expands;
    when it returns a value and has cut nothing off, it has visited and
    expanded exactly those. *)
Theorem search_within_the_full_tree
    (depth : nat) (state : State) (alpha beta : V) (p : Player) :
  let run := maxPlayer heuristic depth state alpha beta p in
  let run' := minPlayer heuristic depth state alpha beta p in
  (_nodeCount (snd run) - _nodeCount p <= 1 + Z.of_nat (max_checks depth state) /\
   _parentCount (snd run) - _parentCount p <= Z.of_nat (max_expanded depth state) /\
   (fst run <> None -> _pruneCount (snd run) = _pruneCount p ->
    _nodeCount (snd run) - _nodeCount p = 1 + Z.of_nat (max_checks depth state) /\
    _parentCount (snd run) - _parentCount p = Z.of_nat (max_expanded depth state))) /\
  (_nodeCount (snd run') - _nodeCount p <= 1 + Z.of_nat (min_checks depth state) /\
   _parentCount (snd run') - _parentCount p <= Z.of_nat (min_expanded depth state) /\
   (fst run' <> None -> _pruneCount (snd run') = _pruneCount p ->
    _nodeCount (snd run') - _nodeCount p = 1 + Z.of_nat (min_checks depth state) /\
    _parentCount (snd run') - _parentCount p = Z.of_nat (min_expanded depth state))).
Proof.
  cbv zeta. split.
  - destruct (maxPlayer heuristic depth state alpha beta p) as [r p'] eqn:Hrun. cbn [fst snd].
    pose proof (proj1 (search_tallies heuristic depth) _ _ _ _ _ _ Hrun) as Ht.
    pose proof (proj1 (search_spends heuristic depth) _ _ _ _ _ _ Hrun) as (Hle & Hlp & Heq).
    split; [clear Heq; tally_close|]. split; [exact Hlp|].
    intros Hr Hp. specialize (Heq Hr Hp). tally_close.
  - destruct (minPlayer heuristic depth state alpha beta p) as [r p'] eqn:Hrun. cbn [fst snd].
    pose proof (proj2 (search_tallies heuristic depth) _ _ _ _ _ _ Hrun) as Ht.
    pose proof (proj2 (search_spends heuristic depth) _ _ _ _ _ _ Hrun) as (Hle & Hlp & Heq).
    split; [clear Heq; tally_close|]. split; [exact Hlp|].
    intros Hr Hp. specialize (Heq Hr Hp). tally_close.
Qed.

End Play.

(* ================================================================== *)
(** * The choice of a depth iteration *)

Section Root.
Context {V : Type} `{Number V} {State : Type} `{Game State}.
Variable heuristic : State -> V.

Lemma root_loop_first_best d state :
  forall acts alpha depthMove depthScore p,
    ltb depthScore alpha = false ->
    (root_checks d state acts <= ticks p)%nat ->
    exists depthMove' depthScore' p',
      root_loop heuristic d state acts alpha depthMove depthScore p
        = ((depthMove', depthScore'), p') /\
      ((depthMove' = depthMove /\ depthScore' = depthScore /\
        forall b, In b acts -> changes_board state b = true ->
          ltb depthScore (minFull heuristic d (move state b)) = false) \/
       (exists l1 a l2,
          acts = l1 ++ a :: l2 /\ depthMove' = Some a /\
          depthScore' = minFull heuristic d (move state a) /\
          changes_board state a = true /\
          ltb depthScore depthScore' = true /\
          (forall b, In b l1 -> changes_board state b = true ->
             ltb (minFull heuristic d (move state b)) depthScore' = true) /\
          (forall b, In b l2 -> changes_board state b = true ->
             ltb depthScore' (minFull heuristic d (move state b)) = false))).
Proof.
  induction acts as [|a rest IH]; intros alpha dm ds p Hinv Hticks.
  - exists dm, ds, p. split; [reflexivity|]. left. repeat split; auto. intros b [].
  - simpl. unfold root_checks in Hticks. simpl in Hticks. fold (root_checks d state rest) in Hticks.
    unfold changes_board at 1 in Hticks.
    destruct (same_board (_board (move state a)) (_board state)) eqn:Hsame; simpl in Hticks.
    + destruct (IH alpha dm ds p Hinv Hticks) as (dm' & ds' & p' & Hrun & Hres).
      exists dm', ds', p'. split; [exact Hrun|].
      destruct Hres as [(-> & -> & Hall)|(l1 & c & l2 & -> & -> & -> & Hc & Hlt & Hbefore & Hafter)].
      * left. repeat split; auto. intros b [<-|Hb] Hch; [|auto].
        unfold changes_board in Hch. rewrite Hsame in Hch. discriminate.
      * right. exists (a :: l1), c, l2. repeat split; auto.
        intros b [<-|Hb] Hch; [|auto].
        unfold changes_board in Hch. rewrite Hsame in Hch. discriminate.
    + remember (root_checks d state rest) as n eqn:Hn.
      destruct (ticks p) as [|k] eqn:Hk; [lia|].
      unfold bind at 1. rewrite (timeRemaining_tick p k Hk). simpl.
      unfold bind at 1.
      destruct (proj2 (search_runs heuristic d) (move state a) alpha (of_float infinity)
                  (with_ticks k p)) as (v & p2 & Hv & Hleft); [simpl; lia|].
      rewrite Hv. simpl in Hleft.
      assert (Hvm : ltb ds v = ltb ds (minFull heuristic d (move state a)) /\
                    (ltb ds v = true -> v = minFull heuristic d (move state a))).
      { remember (minFull heuristic d (move state a)) as m eqn:Hm.
        destruct (ltb alpha (of_float infinity)) eqn:Hwin.
        - destruct (proj2 (search_sound heuristic d) _ _ _ _ _ _ Hwin Hv) as [Hlo Hhi].
          rewrite <- Hm in Hlo, Hhi.
          assert (Hmv : ltb v m = false).
          { destruct (ltb v (of_float infinity)) eqn:Hfin; [auto|].
            rewrite (ltb_connex _ _ Hfin (pos_inf_greatest v)). apply pos_inf_greatest. }
          destruct (ltb ds m) eqn:Hdm.
          + assert (Hav : ltb alpha v = true).
            { eapply lt_le_trans; [|exact Hmv]. eapply le_lt_trans; eassumption. }
            assert (v = m) by (apply ltb_connex; auto).
            subst v. rewrite Hdm. auto.
          + destruct (ltb ds v) eqn:Hdv; [|split; [reflexivity|discriminate]].
            assert (Hav : ltb alpha v = true) by (eapply le_lt_trans; eassumption).
            rewrite (lt_le_trans _ _ _ Hdv (Hlo Hav)) in Hdm. discriminate.
        - pose proof (ltb_connex _ _ Hwin (pos_inf_greatest alpha)) as Ha. subst alpha.
          pose proof (ltb_connex _ _ Hinv (pos_inf_greatest ds)) as Hd.
          rewrite Hd, !pos_inf_greatest. split; [reflexivity|discriminate]. }
      destruct Hvm as [Hsame_test Hexact].
      remember (minFull heuristic d (move state a)) as m eqn:Hm.
      destruct (ltb ds v) eqn:Hbetter.
      * specialize (Hexact eq_refl). subst v.
        destruct (IH (pymax alpha m) (Some a) m p2) as (dm' & ds' & p' & Hrun & Hres);
          [clear IH Hn; order | lia |].
        exists dm', ds', p'. split; [exact Hrun|]. right.
        destruct Hres as [(-> & -> & Hall)|(l1 & c & l2 & -> & -> & -> & Hc & Hlt & Hbefore & Hafter)].
        -- exists [], a, rest. unfold changes_board. rewrite Hsame.
           repeat split; auto; intros b [].
        -- exists (a :: l1), c, l2. repeat split; auto.
           ++ symmetry in Hsame_test. eapply ltb_trans; eassumption.
           ++ intros b [<-|Hb] Hch; [rewrite <- Hm; exact Hlt|auto].
      * destruct (IH (pymax alpha v) dm ds p2) as (dm' & ds' & p' & Hrun & Hres);
          [clear IH Hn; order | lia |].
        exists dm', ds', p'. split; [exact Hrun|].
        destruct Hres as [(-> & -> & Hall)|(l1 & c & l2 & -> & -> & -> & Hc & Hlt & Hbefore & Hafter)].
        -- left. repeat split; auto. intros b [<-|Hb] Hch; [|auto].
           rewrite <- Hm. symmetry. exact Hsame_test.
        -- right. exists (a :: l1), c, l2. repeat split; auto.
           intros b [<-|Hb] Hch; [|auto]. rewrite <- Hm.
           symmetry in Hsame_test. eapply le_lt_trans; eassumption.
Qed.

(** X8: a depth iteration that the clock does not stop commits the first
    of the root actions with the largest value, the values being those
    of the search without pruning: the window handed on from one root
    action to the next does not change the choice. Actions that leave
    the board as it is take no part, nor does a value of -10000 or less;
    when no action is left the committed move stays. *)
Theorem iteration_commits_first_best
    (depth : nat) (state : State) (acts : list Action) (p : Player) :
  (root_checks (depth - 1) state acts <= ticks p)%nat ->
  let p' := snd (depth_iteration heuristic depth state acts p) in
  let value a := minFull heuristic (depth - 1) (move state a) in
  (getMove p' = getMove p /\
   forall b, In b acts -> changes_board state b = true ->
     ltb (of_int (-10000)) (value b) = false) \/
  (exists l1 a l2,
     acts = l1 ++ a :: l2 /\ getMove p' = Some a /\
     changes_board state a = true /\
     ltb (of_int (-10000)) (value a) = true /\
     (forall b, In b l1 -> changes_board state b = true -> ltb (value b) (value a) = true) /\
     (forall b, In b l2 -> changes_board state b = true -> ltb (value a) (value b) = false)).
Proof.
  intros Hticks. cbv zeta.
  unfold depth_iteration, bind, modify.
  destruct (root_loop_first_best (depth - 1) state acts (of_float neg_infinity)
              None (of_int (-10000)) (bump_depthCount p))
    as (dm & ds & p1 & Hrun & Hres); [apply neg_inf_least|exact Hticks|].
  pose proof (framed_root_loop heuristic (depth - 1) state acts (of_float neg_infinity) None
                (of_int (-10000)) (bump_depthCount p)) as (_ & Hmove & _).
  rewrite Hrun in *. simpl in Hmove. simpl.
  destruct Hres as [(-> & -> & Hall)|(l1 & a & l2 & -> & -> & -> & Hc & Hlt & Hbefore & Hafter)].
  - left. split; [exact Hmove|exact Hall].
  - right. exists l1, a, l2. simpl. repeat split; auto.
Qed.

End Root.

(* ================================================================== *)
(** * The values of expanded nodes *)

Section Caps.
Context {V : Type} `{Number V} {State : Type} `{Game State}.
Variable heuristic : State -> V.

Lemma max_loop_at_least child state :
  forall acts best alpha beta p v p',
    max_loop child state acts best alpha beta p = (Some v, p') ->
    ltb v best = false.
Proof.
  induction acts as [|a rest IH]; intros best alpha beta p v p' Hrun; simpl in Hrun.
  - injection Hrun as <- _. apply ltb_irrefl.
  - unfold bind at 1 in Hrun.
    destruct (timeRemaining p) as [t p1]. destruct t; simpl in Hrun; [|discriminate].
    unfold bind at 1 in Hrun.
    destruct (child (move state a) alpha beta p1) as [[c|] p2]; [|discriminate].
    destruct (geb (pymax alpha (if ltb best c then c else best)) beta).
    + injection Hrun as <- _. order.
    + apply IH in Hrun. order.
Qed.

Lemma min_loop_at_most child state :
  forall tiles best alpha beta p v p',
    min_loop child state tiles best alpha beta p = (Some v, p') ->
    ltb best v = false.
Proof.
  induction tiles as [|[t tv] rest IH]; intros best alpha beta p v p' Hrun; simpl in Hrun.
  - injection Hrun as <- _. apply ltb_irrefl.
  - unfold bind at 1 in Hrun.
    destruct (timeRemaining p) as [k p1]. destruct k; simpl in Hrun; [|discriminate].
    unfold bind at 1 in Hrun.
    destruct (child (addTile state t tv) alpha beta p1) as [[c|] p2]; [|discriminate].
    destruct (geb alpha (pymin beta (if ltb c best then c else best))).
    + injection Hrun as <- _. order.
    + apply IH in Hrun. order.
Qed.

(** X13: a node that is expanded never returns a value beyond the
    initial [best] of its loop: a Max node nothing below -10000, a
    Chance node nothing above [1e6], whatever the scores and the
    evaluations below it. *)
Theorem expanded_node_value_is_capped
    (d : nat) (state : State) (alpha beta : V) (p : Player) (v : V) :
  gameOver state = false ->
  (fst (maxPlayer heuristic (S d) state alpha beta p) = Some v ->
   ltb v (of_int (-10000)) = false) /\
  (fst (minPlayer heuristic (S d) state alpha beta p) = Some v ->
   ltb (of_float 1e6) v = false).
Proof.
  intros Hover. split; intros Hrun.
  - destruct (maxPlayer heuristic (S d) state alpha beta p) as [r p'] eqn:Hrun'.
    simpl in Hrun. subst r. simpl in Hrun'. rewrite Hover in Hrun'.
    unfold bind at 1 2 3, modify in Hrun'. simpl in Hrun'.
    exact (max_loop_at_least _ _ _ _ _ _ _ _ _ Hrun').
  - destruct (minPlayer heuristic (S d) state alpha beta p) as [r p'] eqn:Hrun'.
    simpl in Hrun. subst r. simpl in Hrun'. rewrite Hover in Hrun'.
    unfold bind at 1 2 3, modify in Hrun'. simpl in Hrun'.
    exact (min_loop_at_most _ _ _ _ _ _ _ _ _ Hrun').
Qed.

End Caps.

(* ================================================================== *)
(** * The corner score at its largest *)

Lemma chain_loop_full board i j k l :
  Evaluator.chain_loop board [(i, j); (j, k); (k, l)] 1 = 4 <-> full_chain board i j k l.
Proof.
  unfold full_chain. simpl.
  destruct (Z.leb_spec (Evaluator.cell board j) (Evaluator.cell board i));
    destruct (Z.ltb_spec 0 (Evaluator.cell board j)); simpl; try (split; [discriminate|lia]);
  destruct (Z.leb_spec (Evaluator.cell board k) (Evaluator.cell board j));
    destruct (Z.ltb_spec 0 (Evaluator.cell board k)); simpl; try (split; [discriminate|lia]);
  destruct (Z.leb_spec (Evaluator.cell board l) (Evaluator.cell board k));
    destruct (Z.ltb_spec 0 (Evaluator.cell board l)); simpl; try (split; [discriminate|lia]).
  split; [lia|reflexivity].
Qed.

(** X9: [improved_corner_score] is at most 1 on every board, and 1
    exactly when cell 0 holds a largest tile and the top row or the left
    column is a full chain: each tile at most the one before it, and the
    last cell not empty. *)
Theorem corner_score_at_most_one (board : list Z) :
  PrimFloat.leb (Evaluator.improved_corner_score board) 1 = true /\
  (PrimFloat.eqb (Evaluator.improved_corner_score board) 1 = true <->
   Evaluator.cell board 0 = Evaluator.max_tile board /\
   (full_chain board 0 1 2 3 \/ full_chain board 0 4 8 12)).
Proof.
  pose proof (chain_loop_full board 0 1 2 3) as Hrow.
  pose proof (chain_loop_full board 0 4 8 12) as Hcol.
  fold (Evaluator.row_chain board) in Hrow. fold (Evaluator.col_chain board) in Hcol.
  unfold Evaluator.improved_corner_score, Evaluator.anchor_penalty,
    Evaluator.monotonic_chain_score.
  pose proof (chain_loop_range board 0 1 1 2 2 3) as Hr.
  pose proof (chain_loop_range board 0 4 4 8 8 12) as Hc.
  fold (Evaluator.row_chain board) in Hr. fold (Evaluator.col_chain board) in Hc.
  cbv zeta in Hr, Hc.
  assert (Hmax : Z.max (Evaluator.row_chain board) (Evaluator.col_chain board) = 4 <->
                 full_chain board 0 1 2 3 \/ full_chain board 0 4 8 12).
  { rewrite <- Hrow, <- Hcol. lia. }
  assert (Hrange : let c := Z.max (Evaluator.row_chain board) (Evaluator.col_chain board) in
                   c = 1 \/ c = 2 \/ c = 3 \/ c = 4) by (cbv zeta; lia).
  cbv zeta in Hrange. rewrite <- Hmax. clear Hrow Hcol Hr Hc Hmax.
  destruct (Z.eqb_spec (Evaluator.cell board 0) (Evaluator.max_tile board)) as [Ha|Ha];
    destruct Hrange as [-> | [-> | [-> | ->]]];
    (split; [vm_compute; reflexivity|]);
    split; try (vm_compute; discriminate); try (intros [? ?]; congruence); auto;
    try (intros [_ ?]; discriminate).
Qed.

(* ================================================================== *)
(** * The evaluator on the boards of the game *)

Lemma exact_steps : forallb exact_step [16; 12; 8; 6; 4; 2; 1] = true.
Proof. vm_compute. reflexivity. Qed.

Lemma gradient_checks_hold :
  forallb (fun k => forallb (gradient_check k) tile_range) sum_range = true.
Proof. vm_compute. reflexivity. Qed.

Lemma small_int_checks :
  forallb (fun c => PrimFloat.Leibniz.eqb (float_of_int c) (small_int c)) tile_range = true.
Proof. vm_compute. reflexivity. Qed.

Lemma in_tile_range c : 0 <= c <= 17 -> In c tile_range.
Proof.
  intros Hc. unfold tile_range. apply in_map_iff. exists (Z.to_nat c).
  split; [lia|]. apply in_seq. lia.
Qed.

Lemma in_sum_range k : 0 <= k <= 1581 -> In k sum_range.
Proof.
  intros Hk. unfold sum_range. apply in_map_iff. exists (Z.to_nat k).
  split; [lia|]. apply in_seq. lia.
Qed.

Lemma small_int_agrees c : 0 <= c <= 17 -> float_of_int c = small_int c.
Proof.
  intros Hc. apply Leibniz.eqb_spec.
  exact (proj1 (forallb_forall _ _) small_int_checks c (in_tile_range c Hc)).
Qed.

Lemma exact_step_spec w k c :
  In w [16; 12; 8; 6; 4; 2; 1] -> 0 <= k <= 1581 -> 0 <= c <= 17 ->
  (quarter k + float_of_int c * quarter w)%float = quarter (k + c * w).
Proof.
  intros Hw Hk Hc. rewrite (small_int_agrees c Hc).
  pose proof (proj1 (forallb_forall _ _) exact_steps w Hw) as Hstep.
  unfold exact_step in Hstep.
  pose proof (proj1 (forallb_forall _ _) Hstep k (in_sum_range k Hk)) as Hk'.
  pose proof (proj1 (forallb_forall _ _) Hk' c (in_tile_range c Hc)) as Hc'.
  apply Leibniz.eqb_spec. exact Hc'.
Qed.

Lemma cell_in_range board i :
  Forall (fun c => 0 <= c <= 17) board -> 0 <= Evaluator.cell board i <= 17.
Proof.
  intros Hall. unfold Evaluator.cell.
  destruct (Nat.lt_ge_cases i (List.length board)) as [Hlt|Hge].
  - apply (proj1 (Forall_forall _ _) Hall). apply nth_In. exact Hlt.
  - rewrite nth_overflow by exact Hge. lia.
Qed.

Lemma quarter_weight_spec n :
  (n < 15)%nat ->
  In (nth n quarter_weights 0) [16; 12; 8; 6; 4; 2; 1] /\
  nth n Evaluator.tile_weights 0%float = quarter (nth n quarter_weights 0) /\
  0 <= nth n quarter_weights 0 <= 16.
Proof.
  intros Hn.
  do 15 (destruct n as [|n]; [vm_compute; intuition (auto; discriminate)|]). lia.
Qed.

Lemma prefix_weight_bound n : (n <= 15)%nat -> prefix_weight n <= 93.
Proof.
  intros Hn. do 16 (destruct n as [|n]; [vm_compute; discriminate|]). lia.
Qed.

Lemma weighted_prefix board :
  Forall (fun c => 0 <= c <= 17) board ->
  forall n, (n <= 15)%nat ->
    fold_left
      (fun acc i => acc + float_of_int (Evaluator.cell board i)
                          * nth i Evaluator.tile_weights 0)%float
      (seq 0 n) (float_of_int 0)
    = quarter (exact_sum board n) /\
    0 <= exact_sum board n <= 17 * prefix_weight n.
Proof.
  intros Hall. induction n as [|n IH]; intros Hn.
  - split; [vm_compute; reflexivity|]. vm_compute. split; discriminate.
  - destruct (IH ltac:(lia)) as [Hsum Hbound].
    pose proof (prefix_weight_bound n ltac:(lia)) as Hprefix.
    rewrite seq_S, fold_left_app. cbn [fold_left plus]. rewrite Hsum.
    unfold exact_sum, prefix_weight in *.
    rewrite !seq_S, !fold_left_app. cbn [fold_left plus].
    destruct (quarter_weight_spec n ltac:(lia)) as (Hw & -> & Hw16).
    pose proof (cell_in_range board n Hall) as Hc.
    remember (fold_left _ (seq 0 n) 0) as k eqn:Hk in Hbound |- *. clear Hk.
    remember (fold_left _ (seq 0 n) 0) as t eqn:Ht. clear Ht.
    remember (nth n quarter_weights 0) as w eqn:Hweq. clear Hweq.
    remember (Evaluator.cell board n) as c eqn:Hceq. clear Hceq.
    split; [|nia].
    apply exact_step_spec; auto. lia.
Qed.

Lemma weighted_sum_exact board :
  exponent_board board ->
  exists k c, 0 <= k <= 1581 /\ 0 <= c <= 17 /\
    Evaluator.weighted_sum board = (quarter k + small_int c * 0.1)%float.
Proof.
  intros [_ Hall]. unfold Evaluator.weighted_sum.
  change (seq 0 16) with (seq 0 15 ++ [15%nat]). rewrite fold_left_app.
  destruct (weighted_prefix board Hall 15 (le_n _)) as [-> Hbound].
  pose proof (prefix_weight_bound 15 (le_n _)) as Hprefix.
  pose proof (cell_in_range board 15 Hall) as Hc.
  exists (exact_sum board 15), (Evaluator.cell board 15).
  split; [lia|]. split; [exact Hc|].
  cbn [fold_left]. rewrite (small_int_agrees _ Hc). reflexivity.
Qed.

Lemma gradient_check_spec board :
  exponent_board board ->
  exists k c, Evaluator.weighted_sum board = (quarter k + small_int c * 0.1)%float /\
              gradient_check k c = true.
Proof.
  intros Hboard. destruct (weighted_sum_exact board Hboard) as (k & c & Hk & Hc & Hsum).
  exists k, c. split; [exact Hsum|].
  pose proof (proj1 (forallb_forall _ _) gradient_checks_hold k (in_sum_range k Hk)) as Hk'.
  exact (proj1 (forallb_forall _ _) Hk' c (in_tile_range c Hc)).
Qed.

Lemma max_possible_value : (float_of_int 2048 * 4.0)%float = 8192%float.
Proof. vm_compute. reflexivity. Qed.

Lemma float_of_zero : float_of_int 0 = 0%float.
Proof. vm_compute. reflexivity. Qed.

(** X18: on a board of the game, sixteen exponents from 0 to 17, the
    normalised sum of [tile_gradient_score] stays below the cap of 1.0:
    the score is the weighted sum divided by 8192, which is at least 0
    and below 0.05. *)
Theorem gradient_score_below_its_cap (board : list Z) :
  exponent_board board ->
  Evaluator.tile_gradient_score board
    = (Evaluator.weighted_sum board / (float_of_int 2048 * 4.0))%float /\
  (0 <=? Evaluator.tile_gradient_score board)%float = true /\
  (Evaluator.tile_gradient_score board <? 0.05)%float = true.
Proof.
  intros Hboard. destruct (gradient_check_spec board Hboard) as (k & c & Hsum & Hcheck).
  unfold gradient_check in Hcheck. cbv zeta in Hcheck.
  apply andb_prop in Hcheck. destruct Hcheck as [Hcheck _].
  apply andb_prop in Hcheck. destruct Hcheck as [Hcheck Hsmall].
  apply andb_prop in Hcheck. destruct Hcheck as [Hcap Hpos].
  unfold Evaluator.tile_gradient_score. cbv zeta.
  rewrite max_possible_value, Hsum, Hcap. auto.
Qed.

Lemma empty_bonus_at_zero :
  forallb (fun e =>
    forallb (fun pct =>
      PrimFloat.Leibniz.eqb (float_of_int 0 * pct * float_of_int e)%float 0%float)
      [0.02; 0.018; 0.015]%float)
    empty_range = true.
Proof. vm_compute. reflexivity. Qed.

Lemma empty_tiles_range board :
  List.length board = 16%nat -> In (Evaluator.empty_tiles board) empty_range.
Proof.
  intros Hlen. unfold Evaluator.empty_tiles, empty_range. apply in_map.
  apply in_seq. pose proof (filter_length_le (fun c => c =? 0) board). lia.
Qed.

(** X19: at a score of 0 [heuristic] is 0 on every board of the game:
    each term of the evaluation is a share of the score. *)
Theorem heuristic_zero_at_score_zero (board : list Z) :
  exponent_board board -> Evaluator.heuristic board 0 = 0%float.
Proof.
  intros Hboard.
  destruct (gradient_check_spec board Hboard) as (k & c & Hsum & Hcheck).
  unfold gradient_check in Hcheck. cbv zeta in Hcheck.
  apply andb_prop in Hcheck. destruct Hcheck as [Hcheck Hzero].
  apply andb_prop in Hcheck. destruct Hcheck as [Hcheck _].
  apply andb_prop in Hcheck. destruct Hcheck as [Hcap _].
  apply Leibniz.eqb_spec in Hzero.
  assert (Hgrad : (float_of_int 0 * Evaluator.GRADIENT_BONUS_PCT
                   * Evaluator.tile_gradient_score board)%float = 0%float).
  { unfold Evaluator.tile_gradient_score. cbv zeta.
    rewrite max_possible_value, float_of_zero, Hsum, Hcap. exact Hzero. }
  assert (Hempty : (float_of_int 0 * Evaluator.tile_pct board
                    * float_of_int (Evaluator.empty_tiles board))%float = 0%float).
  { pose proof (proj1 (forallb_forall _ _) empty_bonus_at_zero _
                  (empty_tiles_range board (proj1 Hboard))) as He.
    apply Leibniz.eqb_spec.
    apply (proj1 (forallb_forall _ _) He).
    unfold Evaluator.tile_pct. cbv zeta.
    destruct (12 <=? _); [simpl; auto|]. destruct (8 <=? _); simpl; auto. }
  unfold Evaluator.heuristic. cbv zeta.
  rewrite corner_term_at_zero, Hempty, Hgrad.
  destruct (Evaluator.cell board 0 =? Evaluator.max_tile board); vm_compute; reflexivity.
Qed.

(* ================================================================== *)
(** * The games of [Runner.py] *)

(** ** The dictionary of the distribution *)

Lemma get_absent d k default :
  ~ In k (map fst d) -> Runner.get d k default = default.
Proof.
  induction d as [|[k' v] d IH]; simpl; intros Hk; [reflexivity|].
  destruct (Z.eqb_spec k' k) as [->|Hne]; [exfalso; auto|]. apply IH. tauto.
Qed.

Lemma set_keys d k v :
  map fst (Runner.set d k v) = if existsb (Z.eqb k) (map fst d) then map fst d
                               else map fst d ++ [k].
Proof.
  induction d as [|[k' v'] d IH]; simpl; [reflexivity|].
  rewrite (Z.eqb_sym k k').
  destruct (Z.eqb_spec k' k) as [->|Hne]; simpl; [reflexivity|].
  rewrite IH. destruct (existsb (Z.eqb k) (map fst d)); reflexivity.
Qed.

Lemma set_NoDup d k v : NoDup (map fst d) -> NoDup (map fst (Runner.set d k v)).
Proof.
  intros Hd. rewrite set_keys.
  destruct (existsb (Z.eqb k) (map fst d)) eqn:Hex; [exact Hd|].
  apply NoDup_app; [exact Hd|repeat constructor; intros []|].
  intros x Hx [Heq|[]]. subst x.
  assert (existsb (Z.eqb k) (map fst d) = true)
    by (apply existsb_exists; exists k; split; [exact Hx|apply Z.eqb_refl]).
  congruence.
Qed.

Lemma set_counts d k :
  NoDup (map fst d) ->
  counts_total (Runner.set d k (Runner.get d k 0 + 1)) = counts_total d + 1 /\
  (Forall (fun item => 0 < snd item) d ->
   Forall (fun item => 0 < snd item) (Runner.set d k (Runner.get d k 0 + 1))).
Proof.
  induction d as [|[k' v'] d IH]; simpl; intros Hd.
  - split; [reflexivity|]. intros _. repeat constructor.
  - inversion Hd as [|? ? Hnotin Hd']; subst.
    destruct (Z.eqb_spec k' k) as [->|Hne]; simpl.
    + split; [lia|]. intros Hall. inversion Hall; subst. simpl in *.
      constructor; [simpl; lia|assumption].
    + destruct (IH Hd') as [Hsum Hpos]. split; [lia|].
      intros Hall. inversion Hall; subst. constructor; auto.
Qed.

Lemma tile_counts_spec (max_tiles : list Z) :
  NoDup (map fst (Runner.tile_counts max_tiles)) /\
  counts_total (Runner.tile_counts max_tiles) = Z.of_nat (List.length max_tiles) /\
  Forall (fun item => 0 < snd item) (Runner.tile_counts max_tiles).
Proof.
  unfold Runner.tile_counts.
  assert (Hgen : forall d,
    NoDup (map fst d) ->
    let d' := fold_left (fun d tile => let tile_val := 2 ^ tile in
                Runner.set d tile_val (Runner.get d tile_val 0 + 1)) max_tiles d in
    NoDup (map fst d') /\
    counts_total d' = counts_total d + Z.of_nat (List.length max_tiles) /\
    (Forall (fun item => 0 < snd item) d -> Forall (fun item => 0 < snd item) d')).
  { induction max_tiles as [|t rest IH]; intros d Hd; cbv zeta.
    - simpl. repeat split; auto. lia.
    - cbn [fold_left List.length]. cbv zeta.
      destruct (set_counts d (2 ^ t) Hd) as [Hsum Hpos].
      pose proof (set_NoDup d (2 ^ t) (Runner.get d (2 ^ t) 0 + 1) Hd) as Hd'.
      destruct (IH _ Hd') as (Hn & Hs & Hp). cbv zeta in Hn, Hs, Hp.
      split; [exact Hn|]. split; [rewrite Hs, Hsum; lia|]. auto. }
  destruct (Hgen [] ltac:(constructor)) as (Hn & Hs & Hp). cbv zeta in *.
  split; [exact Hn|]. split; [rewrite Hs; reflexivity|]. apply Hp. constructor.
Qed.

Lemma insert_item_perm x l : Permutation (Runner.insert_item x l) (x :: l).
Proof.
  induction l as [|y l IH]; simpl; [reflexivity|].
  destruct (Runner.item_ltb y x); [|reflexivity].
  rewrite IH. apply perm_swap.
Qed.

Lemma sorted_items_perm d : Permutation (Runner.sorted_items d) d.
Proof.
  induction d as [|x d IH]; simpl; [reflexivity|].
  rewrite insert_item_perm. constructor. exact IH.
Qed.

Lemma insert_item_ascending x l :
  ~ In (fst x) (map fst l) -> ascending_keys l -> ascending_keys (Runner.insert_item x l).
Proof.
  unfold ascending_keys.
  induction l as [|y l IH]; simpl; intros Hx Hl.
  - repeat constructor.
  - inversion Hl as [|? ? Hl' Hy]; subst.
    destruct (Runner.item_ltb y x) eqn:Hlt.
    + constructor; [apply IH; tauto|].
      eapply Permutation_Forall; [symmetry; apply insert_item_perm|].
      constructor; [|exact Hy].
      unfold Runner.item_ltb in Hlt. lia.
    + assert (Hxy : fst x < fst y) by (unfold Runner.item_ltb in Hlt; lia).
      constructor; [exact Hl|]. constructor; [exact Hxy|].
      eapply Forall_impl; [|exact Hy]. simpl. intros; lia.
Qed.

Lemma sorted_items_ascending d :
  NoDup (map fst d) -> ascending_keys (Runner.sorted_items d).
Proof.
  induction d as [|x d IH]; simpl; intros Hd; [constructor|].
  inversion Hd; subst. apply insert_item_ascending; [|auto].
  intros Hin. apply (Permutation_in _ (Permutation_map fst (sorted_items_perm d))) in Hin.
  contradiction.
Qed.

Lemma counts_total_perm d d' : Permutation d d' -> counts_total d = counts_total d'.
Proof. induction 1; simpl; lia. Qed.

(** ** The games *)

Lemma well_counted_start_clock k p : well_counted (start_clock k p) <-> well_counted p.
Proof. reflexivity. Qed.

Section Games.
Context {V : Type} `{Number V} {State : Type} `{Game State}.
Variable heuristic : State -> V.
Variable result : nat -> State -> option Action -> State.
Variable randomize : nat -> State.
Variable budget : nat -> nat.

Lemma game_loop_spec fuel :
  forall n state agent m state' agent' m' n',
    Runner.game_loop heuristic result budget fuel n state agent m
      = Some (state', agent', m', n') ->
    gameOver state' = true /\
    0 <= m' - m <= Z.of_nat fuel /\
    _count agent' - _count agent = m' - m /\
    Z.of_nat n' - Z.of_nat n = m' - m /\
    (m' = m <-> gameOver state = true) /\
    (well_counted agent -> well_counted agent') /\
    ((forall k, (budget k <= 1)%nat) -> _parentCount agent' = _parentCount agent).
Proof.
  induction fuel as [|fuel IH]; intros n state agent m state' agent' m' n' Hrun;
    simpl in Hrun; destruct (gameOver state) eqn:Hover.
  - injection Hrun as <- <- <- <-. repeat match goal with |- _ /\ _ => split end; auto; try lia; try tauto.
  - discriminate.
  - injection Hrun as <- <- <- <-.
    repeat match goal with |- _ /\ _ => split end; auto; try lia; try tauto.
  - destruct (findMove heuristic state (start_clock (budget n) agent)) as [agent1|] eqn:Hfind;
      [|discriminate].
    apply IH in Hrun. destruct Hrun as (Hend & Hm & Hc & Hn & _ & Hwell & Hshallow).
    pose proof (findMove_tallies heuristic _ _ _ Hfind) as Ht.
    pose proof (findMove_well_counted heuristic state (start_clock (budget n) agent) agent1) as Hw.
    change (_count (start_clock (budget n) agent)) with (_count agent) in Ht.
    split; [exact Hend|]. split; [lia|]. split; [lia|]. split; [lia|].
    split; [split; [intros; exfalso; lia|congruence]|]. split.
    + intros Hag. apply Hwell. apply (Hw (proj2 (well_counted_start_clock _ _) Hag) Hfind).
    + intros Hb. rewrite (Hshallow Hb).
      apply (findMove_shallow heuristic state (start_clock (budget n) agent) agent1 (Hb n) Hfind).
Qed.


Lemma run_game_spec fuel i n agent r agent' n' :
  Runner.run_game heuristic result randomize budget fuel i n agent
    = Runner.Returned (r, agent', n') ->
  exists final,
    Runner.game_loop heuristic result budget fuel n (randomize i) agent 0
      = Some (final, agent', Runner.moves r, n') /\
    Runner.score r = getScore final /\
    Runner.py_max (_board final) = Runner.Returned (Runner.max_tile r).
Proof.
  unfold Runner.run_game.
  destruct (Runner.game_loop heuristic result budget fuel n (randomize i) agent 0)
    as [[[[final agent1] m1] n1]|]; [|discriminate].
  destruct (Runner.py_max (_board final)) as [mt|e|] eqn:Hmax; try discriminate.
  intros [= <- <- <-]. exists final. auto.
Qed.

(** X10: when [run_game] returns, the game it played is over.
    [findMove] was called once for every move ([_count] has grown by
    [moves]) and, unless the game was over from the start, at least
    once; the score and the largest tile reported are those of the final
    state; an agent that was well counted is so afterwards. *)
Theorem run_game_plays_to_the_end
    (fuel i n : nat) (agent : Player) (r : Runner.GameResult) (agent' : Player) (n' : nat) :
  Runner.run_game heuristic result randomize budget fuel i n agent
    = Runner.Returned (r, agent', n') ->
  0 <= Runner.moves r <= Z.of_nat fuel /\
  _count agent' = _count agent + Runner.moves r /\
  Z.of_nat n' = Z.of_nat n + Runner.moves r /\
  (Runner.moves r = 0 <-> gameOver (randomize i) = true) /\
  (well_counted agent -> well_counted agent') /\
  exists final,
    gameOver final = true /\ Runner.score r = getScore final /\
    Runner.py_max (_board final) = Runner.Returned (Runner.max_tile r).
Proof.
  intros Hrun. destruct (run_game_spec _ _ _ _ _ _ _ Hrun) as (final & Hloop & Hscore & Hmax).
  apply game_loop_spec in Hloop.
  destruct Hloop as (Hend & Hm & Hc & Hn & Hzero & Hwell & _).
  split; [lia|]. split; [lia|]. split; [lia|]. split; [exact Hzero|]. split; [exact Hwell|].
  exists final. auto.
Qed.

Lemma games_loop_spec fuel :
  forall todo i n agent scores max_tiles total_moves scores' max_tiles' total_moves' agent',
    Runner.games_loop heuristic result randomize budget fuel todo i n agent
      scores max_tiles total_moves
      = Runner.Returned (scores', max_tiles', total_moves', agent') ->
    List.length scores' = (List.length scores + todo)%nat /\
    List.length max_tiles' = (List.length max_tiles + todo)%nat /\
    (well_counted agent -> well_counted agent') /\
    ((forall k, (budget k <= 1)%nat) -> _parentCount agent' = _parentCount agent).
Proof.
  induction todo as [|todo IH];
    intros i n agent scores max_tiles total_moves scores' max_tiles' total_moves' agent' Hrun;
    simpl in Hrun.
  - injection Hrun as <- <- <- <-.
    repeat match goal with |- _ /\ _ => split end; auto; lia.
  - destruct (Runner.run_game heuristic result randomize budget fuel i n agent)
      as [[[r agent1] n1]|e|] eqn:Hgame; try discriminate.
    apply IH in Hrun. destruct Hrun as (Hs & Ht & Hwell & Hshallow).
    rewrite length_app in Hs, Ht. simpl in Hs, Ht.
    destruct (run_game_spec _ _ _ _ _ _ _ Hgame) as (final & Hloop & _).
    apply game_loop_spec in Hloop.
    destruct Hloop as (_ & _ & _ & _ & _ & Hwell1 & Hshallow1).
    split; [lia|]. split; [lia|]. split; [auto|].
    intros Hb. rewrite (Hshallow Hb). auto.
Qed.

(** X11: when [evaluate_agent] reaches its summary, at least one game
    was played and [stats] printed its three lines, with a branching
    factor of 1 or more; in the distribution the tiles stand in strictly
    ascending order, each with a count above zero, and the counts add up
    to the number of games. *)
Theorem evaluate_agent_summary (fuel : nat) (games : Z) (s : Runner.Summary) :
  Runner.evaluate_agent heuristic result randomize budget fuel games = Runner.Returned s ->
  0 < games /\
  Runner.games_played s = games /\
  List.length (Runner.agent_stats s) = 3%nat /\
  (forall label x, In (label, x) (Runner.agent_stats s) ->
     (0 <= x)%Q /\ (label = "Branching factor"%string -> (1 <= x)%Q)) /\
  counts_total (map fst (Runner.distribution s)) = games /\
  ascending_keys (map fst (Runner.distribution s)) /\
  Forall (fun item => 0 < snd item) (map fst (Runner.distribution s)).
Proof.
  unfold Runner.evaluate_agent.
  destruct (Runner.games_loop heuristic result randomize budget fuel (Z.to_nat games)
              0 0 new_player [] [] 0) as [[[[scores max_tiles] total_moves] agent]|e|]
    eqn:Hloop; try discriminate.
  apply games_loop_spec in Hloop. destruct Hloop as (Hs & Ht & Hwell & _).
  simpl in Hs, Ht.
  assert (Hagent : well_counted agent) by (apply Hwell; unfold well_counted; simpl; lia).
  unfold true_div at 1.
  destruct (Z.eqb_spec (Z.of_nat (List.length scores)) 0) as [Hz|Hz]; [discriminate|].
  destruct (Runner.py_max scores) as [max_score|e|]; try discriminate.
  destruct (true_div total_moves games) as [e|avg_moves]; [discriminate|].
  pose proof (stats_lines_bounds agent Hagent) as Hbounds.
  assert (Hlines : snd (stats agent) = None -> List.length (fst (stats agent)) = 3%nat).
  { unfold stats, true_div.
    destruct (_count agent =? 0); [discriminate|].
    destruct (_parentCount agent =? 0); [discriminate|]. reflexivity. }
  destruct (stats agent) as [printed [e|]]; [discriminate|].
  intros [= <-]. simpl.
  assert (Hid : forall l : list (Z * Z), map (fun item => (fst item, snd item)) l = l)
    by (induction l as [|[k c] l IHl]; simpl; congruence).
  rewrite map_map. cbn [fst snd]. rewrite Hid.
  destruct (tile_counts_spec max_tiles) as (Hnodup & Htotal & Hpos).
  split; [lia|]. split; [reflexivity|]. split; [auto|]. split; [exact Hbounds|].
  split; [|split].
  - rewrite (counts_total_perm _ _ (sorted_items_perm _)), Htotal. lia.
  - apply sorted_items_ascending. exact Hnodup.
  - eapply Permutation_Forall; [symmetry; apply sorted_items_perm|exact Hpos].
Qed.

(** X12: under a time limit that lets one deadline check pass per move
    at most, no node is ever expanded and [evaluate_agent] does not
    reach its summary. It ends in [ZeroDivisionError] (from [stats], or
    from the average over no games) or in the [ValueError] of an empty
    board, unless a game goes on for ever. *)
Theorem evaluate_agent_needs_an_expanded_node (fuel : nat) (games : Z) :
  (forall k, (budget k <= 1)%nat) ->
  Runner.evaluate_agent heuristic result randomize budget fuel games = Runner.Unfinished \/
  Runner.evaluate_agent heuristic result randomize budget fuel games
    = Runner.Raised Runner.ValueError \/
  Runner.evaluate_agent heuristic result randomize budget fuel games
    = Runner.Raised (Runner.Arithmetic ZeroDivisionError).
Proof.
  intros Hbudget. unfold Runner.evaluate_agent.
  destruct (Runner.games_loop heuristic result randomize budget fuel (Z.to_nat games)
              0 0 new_player [] [] 0) as [[[[scores max_tiles] total_moves] agent]|[[]|]|]
    eqn:Hloop; auto.
  apply games_loop_spec in Hloop. destruct Hloop as (_ & _ & _ & Hshallow).
  specialize (Hshallow Hbudget). simpl in Hshallow.
  destruct (true_div (Runner.py_sum scores) (Z.of_nat (List.length scores))) as [[]|avg]; auto.
  destruct (Runner.py_max scores) as [max_score|[[]|]|]; auto.
  destruct (true_div total_moves games) as [[]|avg_moves]; auto.
  unfold stats, true_div. rewrite Hshallow. simpl.
  destruct (_count agent =? 0); auto.
Qed.

End Games.

(* ================================================================== *)
(** * The agent of [LearningAgent.py] *)

Section VariantOrder.
Context {V : Type} `{Number V} {State : Type} `{Game State}.

Lemma variant_moveOrder_sort (state : State) :
  Variant.moveOrder state = sort_desc (Variant.total_key state) (actions state).
Proof. apply (sort_desc_decorated (Variant.total_key state)). Qed.

(** X14: [moveOrder] of this class returns the legal actions, each as
    often as it is listed, in descending order of [total_score], the
    score after the action plus the weighted number of empty cells, and
    actions of equal [total_score] keep the order [state.actions()] gave
    them. *)
Theorem variant_moveOrder_sorted_by_total_score (state : State) :
  Permutation (actions state) (Variant.moveOrder state) /\
  StronglySorted (descending (Variant.total_key state)) (Variant.moveOrder state) /\
  forall k, with_key (Variant.total_key state) k (Variant.moveOrder state)
            = with_key (Variant.total_key state) k (actions state).
Proof.
  rewrite variant_moveOrder_sort. split; [apply sort_desc_perm|]. split.
  - apply (sort_desc_sorted (Variant.total_key state)).
  - intros k. apply (sort_desc_stable (Variant.total_key state)).
Qed.

End VariantOrder.

Lemma scaled_tile_below_16 :
  forallb (fun x => negb (ltb (of_int 16 : pyvalue)
                            (of_float (float_of_int x / float_of_int 8))))
          small_tiles = true.
Proof. vm_compute. reflexivity. Qed.

Section VariantWeight.
Context {State : Type} `{Game State}.

(** The weight of the specification: 16 up to the tile 128, and an eighth
    of the largest tile value from the tile 256 on. *)
Lemma emptyTileWeight_small (state : State) :
  0 <= Evaluator.max_tile (_board state) <= 7 ->
  emptyTileWeight state = inject_Z 16.
Proof.
  intros Hmax. unfold emptyTileWeight, maxTileValueOnBoard, tileValue. cbv zeta.
  set (m := Evaluator.max_tile (_board state)) in *.
  assert (Hle : Qle_bool (inject_Z (if m =? 0 then 0 else 2 ^ m) / inject_Z 8)
                         (inject_Z 16) = true).
  { apply Qle_bool_iff. apply Qle_shift_div_r; [reflexivity|].
    rewrite <- inject_Z_mult, <- Zle_Qle.
    destruct (m =? 0); [lia|].
    assert (2 ^ m <= 2 ^ 7) by (apply Z.pow_le_mono_r; lia). lia. }
  rewrite Hle. reflexivity.
Qed.

Lemma emptyTileWeight_large (state : State) :
  8 <= Evaluator.max_tile (_board state) ->
  (emptyTileWeight state == inject_Z (2 ^ (Evaluator.max_tile (_board state) - 3)))%Q /\
  16 < 2 ^ (Evaluator.max_tile (_board state) - 3).
Proof.
  intros Hmax. unfold emptyTileWeight, maxTileValueOnBoard, tileValue. cbv zeta.
  set (m := Evaluator.max_tile (_board state)) in *.
  assert (Hbig : 2 ^ 5 <= 2 ^ (m - 3)) by (apply Z.pow_le_mono_r; lia).
  assert (Hpow : 2 ^ m = 2 ^ (m - 3) * 8).
  { replace m with ((m - 3) + 3) at 1 by lia. rewrite Z.pow_add_r by lia. reflexivity. }
  destruct (Z.eqb_spec m 0) as [Hzero|_]; [lia|].
  assert (Hscaled : (inject_Z (2 ^ m) / inject_Z 8 == inject_Z (2 ^ (m - 3)))%Q).
  { rewrite Hpow, inject_Z_mult. apply Qdiv_mult_l. discriminate. }
  split; [|change (2 ^ 5) with 32 in Hbig; lia].
  destruct (Qle_bool (inject_Z (2 ^ m) / inject_Z 8) (inject_Z 16)) eqn:Hle;
    [|exact Hscaled].
  apply Qle_bool_iff in Hle. rewrite Hscaled in Hle.
  rewrite <- Zle_Qle in Hle. change (2 ^ 5) with 32 in Hbig. lia.
Qed.

(** X15: on a board whose largest entry is between 0 and 128, as on
    every board of tile exponents, [max(16, max_tile_value / 8)] is 16,
    because the code takes the exponent for the tile value: the weight of
    an empty cell does not grow with the game, and [total_score] is the
    [int] [score + 16 * empty_tiles]. This is the ordering score of the
    specification while the largest tile is at most 128 (exponent 7).
    From the tile 256 on (exponent 8) the specification's weight is an
    eighth of the tile value, [2^(exponent - 3)], more than 16, and its
    ordering score is [score + 2^(exponent - 3) * empty_tiles]. *)
Theorem variant_empty_tile_value_is_16 (state : State) (a : Action) :
  0 <= Evaluator.max_tile (_board state) <= 128 ->
  Variant.empty_tile_value (V := pyvalue) state = Variant.Int 16 /\
  Variant.total_score (V := pyvalue) state a
    = Variant.Int (getScore (move state a)
                   + Evaluator.empty_tiles (_board (move state a)) * 16) /\
  (Evaluator.max_tile (_board state) <= 7 ->
   (orderingScore state a
    == inject_Z (getScore (move state a)
                 + Evaluator.empty_tiles (_board (move state a)) * 16))%Q) /\
  (8 <= Evaluator.max_tile (_board state) ->
   16 < 2 ^ (Evaluator.max_tile (_board state) - 3) /\
   (orderingScore state a
    == inject_Z (getScore (move state a)
                 + Evaluator.empty_tiles (_board (move state a))
                   * 2 ^ (Evaluator.max_tile (_board state) - 3)))%Q).
Proof.
  intros Hmax.
  assert (Hin : In (Evaluator.max_tile (_board state)) small_tiles).
  { unfold small_tiles. apply in_map_iff.
    exists (Z.to_nat (Evaluator.max_tile (_board state))). split; [lia|].
    apply in_seq. lia. }
  pose proof (proj1 (forallb_forall _ _) scaled_tile_below_16 _ Hin) as Hsmall.
  apply negb_true_iff in Hsmall.
  assert (Hvalue : Variant.empty_tile_value (V := pyvalue) state = Variant.Int 16).
  { unfold Variant.empty_tile_value. cbv zeta. rewrite Hsmall. reflexivity. }
  split; [exact Hvalue|]. split; [|split].
  - unfold Variant.total_score. cbv zeta. rewrite Hvalue. reflexivity.
  - intros Hlow. unfold orderingScore. cbv zeta.
    rewrite emptyTileWeight_small by lia.
    rewrite inject_Z_plus, inject_Z_mult. reflexivity.
  - intros Hhigh. destruct (emptyTileWeight_large state Hhigh) as [Hweight Hmore].
    split; [exact Hmore|].
    unfold orderingScore. cbv zeta. rewrite Hweight.
    rewrite inject_Z_plus, inject_Z_mult. reflexivity.
Qed.

End VariantWeight.

Lemma index_nth (board : list Z) (x : Z) :
  In x board -> nth (Variant.index board x) board 0 = x.
Proof.
  induction board as [|y rest IH]; simpl; [intros []|].
  destruct (Z.eqb_spec y x) as [->|Hne]; [reflexivity|].
  intros [Hy|Hin]; [contradiction|auto].
Qed.

Lemma fold_max_In (rest : list Z) (x : Z) : In (fold_left Z.max rest x) (x :: rest).
Proof.
  revert x. induction rest as [|y rest IH]; intros x; simpl; [auto|].
  destruct (IH (Z.max x y)) as [Heq|Hin]; [|auto].
  rewrite <- Heq. destruct (Z.max_spec x y) as [[_ ->]|[_ ->]]; auto.
Qed.

Lemma max_tile_index (board : list Z) :
  board <> [] ->
  Evaluator.cell board (Variant.index board (Evaluator.max_tile board))
  = Evaluator.max_tile board.
Proof.
  intros Hne. apply index_nth. destruct board as [|x rest]; [contradiction|].
  apply fold_max_In.
Qed.

Lemma pattern_range board s1 s2 s3 : 0 <= Variant.pattern board [s1; s2; s3] <= 6.
Proof.
  unfold Variant.pattern. simpl.
  repeat match goal with
         | |- context [if ?b then _ else _] => destruct b
         end; lia.
Qed.

(** X16: on a 16-cell board [corner_anchoring] is 0 exactly when the
    first cell that holds the largest tile is not a corner; a bonus
    other than 0 means that a corner holds a largest tile. On a corner
    the bonus is the weight of the corner and up to 25 more, 40 at most
    in all. *)
Theorem variant_corner_anchoring_needs_a_corner (board : list Z) :
  List.length board = 16%nat ->
  let max_idx := Variant.index board (Evaluator.max_tile board) in
  (Variant.corner_anchoring board = 0 <-> ~ In max_idx [0; 3; 12; 15]%nat) /\
  (Variant.corner_anchoring board <> 0 -> max_in_corner board = true) /\
  (In max_idx [0; 3; 12; 15]%nat ->
   Variant.corner_weights max_idx <= Variant.corner_anchoring board
   <= Variant.corner_weights max_idx + 25) /\
  0 <= Variant.corner_anchoring board <= 40.
Proof.
  intros Hlen. cbv zeta.
  assert (Hne : board <> []) by (intros ->; discriminate).
  pose proof (max_tile_index board Hne) as Hcell.
  remember (Variant.index board (Evaluator.max_tile board)) as i eqn:Hi.
  assert (Hcorner : In i [0; 3; 12; 15]%nat -> max_in_corner board = true).
  { intros Hin. unfold max_in_corner. apply existsb_exists.
    exists i. split; [exact Hin|]. rewrite Hcell. apply Z.eqb_refl. }
  assert (Hval : (~ In i [0; 3; 12; 15]%nat /\ Variant.corner_anchoring board = 0) \/
                 (In i [0; 3; 12; 15]%nat /\
                  Variant.corner_weights i <= Variant.corner_anchoring board
                  <= Variant.corner_weights i + 25 /\
                  5 <= Variant.corner_weights i <= 15)).
  { unfold Variant.corner_anchoring. cbv zeta. rewrite <- Hi.
    pose proof (pattern_range board (0, 1)%nat (1, 2)%nat (2, 3)%nat) as Hrow.
    pose proof (pattern_range board (0, 4)%nat (4, 8)%nat (8, 12)%nat) as Hcol.
    destruct (existsb (Nat.eqb i) [0; 3; 12; 15]%nat) eqn:Hex; simpl negb; cbv iota.
    - right. apply existsb_exists in Hex. destruct Hex as (c & Hc & Heq).
      apply Nat.eqb_eq in Heq. subst c. split; [exact Hc|].
      clear Hcorner Hcell Hi.
      destruct Hc as [<-|[<-|[<-|[<-|[]]]]];
        cbn [Nat.eqb Variant.corner_weights fst snd fold_left];
        repeat match goal with
               | |- context [if ?b then _ else _] => destruct b
               end; lia.
    - left. split; [|reflexivity]. intros Hin.
      assert (existsb (Nat.eqb i) [0; 3; 12; 15]%nat = true)
        by (apply existsb_exists; exists i; split; [exact Hin|apply Nat.eqb_refl]).
      congruence. }
  destruct Hval as [[Hout Hzero]|(Hin & Hrange & Hweight)].
  - rewrite Hzero. split; [tauto|]. split; [congruence|]. split; [contradiction|lia].
  - split; [split; [lia|contradiction]|]. split; [auto|]. split; [auto|lia].
Qed.

Section VariantFindMove.
Context {V : Type} `{Number V} {State : Type} `{Game State}.
Variable heuristic : State -> V.

Lemma variant_moveOrder_perm (state : State) :
  Permutation (actions state) (Variant.moveOrder state).
Proof.
  unfold Variant.moveOrder.
  rewrite (sort_desc_decorated (Variant.total_key state)). apply sort_desc_perm.
Qed.

Lemma variant_framed_search (depth : nat) :
  (forall st a b, framed (Variant.maxPlayer heuristic depth st a b)) /\
  (forall st a b, framed (Variant.minPlayer heuristic depth st a b)).
Proof.
  induction depth as [|d [IHmax IHmin]]; split; intros; simpl; repeat framed_step;
    auto using framed_max_loop, framed_min_loop.
Qed.

Lemma variant_search_tallies (depth : nat) :
  (forall st a b, tallies 1 0 (Variant.maxPlayer heuristic depth st a b)) /\
  (forall st a b, tallies 1 0 (Variant.minPlayer heuristic depth st a b)).
Proof.
  induction depth as [|d [IHmax IHmin]]; split; intros st a b p r p' Hrun;
    simpl in Hrun; unfold bind at 1 2, modify in Hrun; simpl in Hrun;
    destruct (gameOver st); try (injection Hrun as _ <-; tally_close).
  - unfold bind at 1 in Hrun. simpl in Hrun.
    apply (max_loop_tallies _ st IHmin) in Hrun. tally_close.
  - unfold bind at 1 in Hrun. simpl in Hrun.
    apply (min_loop_tallies _ st IHmax) in Hrun. tally_close.
Qed.

(** The loop over the root actions leaves the committed move alone; what
    it returns is the move it was given or one of the actions, and with
    fewer ticks than actions it is given up. *)
Lemma variant_root_loop_result d state :
  forall acts alpha bestMove best p r p',
    Variant.root_loop heuristic d state acts alpha bestMove best p = (r, p') ->
    _move p' = _move p /\ _count p' = _count p /\ (ticks p' <= ticks p)%nat /\
    ((ticks p < List.length acts)%nat -> r = None) /\
    (acts = [] -> r = Some bestMove) /\
    forall m, r = Some m -> m = bestMove \/ exists a, m = Some a /\ In a acts.
Proof.
  induction acts as [|a rest IH]; intros alpha bm best p r p' Hrun; simpl in Hrun.
  - injection Hrun as <- <-.
    split; [reflexivity|]. split; [reflexivity|]. split; [lia|].
    split; [simpl; lia|]. split; [auto|].
    intros m [= <-]. auto.
  - unfold bind at 1 in Hrun. unfold timeRemaining in Hrun.
    destruct (ticks p) as [|k] eqn:Hk; simpl in Hrun.
    { injection Hrun as <- <-.
      split; [reflexivity|]. split; [reflexivity|]. split; [lia|]. split; [auto|].
      split; discriminate. }
    unfold bind at 1 in Hrun.
    pose proof (proj2 (variant_framed_search d) (move state a) alpha (of_float infinity)
                  (with_ticks k p)) as (Hticks & Hmove & _).
    destruct (Variant.minPlayer heuristic d (move state a) alpha (of_float infinity)
                (with_ticks k p)) as [[v|] p2] eqn:Hchild; simpl in Hticks, Hmove;
      apply (proj2 (variant_search_tallies d)) in Hchild;
      destruct Hchild as (_ & _ & _ & _ & _ & Hcount & _); simpl in Hcount.
    + assert (Hstep : exists best' bm',
                Variant.root_loop heuristic d state rest (pymax alpha best') bm' best' p2
                  = (r, p') /\ (bm' = bm \/ bm' = Some a)).
      { destruct (ltb best v); eauto. }
      destruct Hstep as (best' & bm' & Hrest & Hbm). clear Hrun.
      apply IH in Hrest. destruct Hrest as (Hm & Hc & Ht & Hshort & _ & Hres).
      split; [congruence|]. split; [congruence|]. split; [lia|].
      split; [intros Hlt; apply Hshort; simpl in Hlt; lia|].
      split; [discriminate|].
      intros m Hm'. destruct (Hres m Hm') as [->|(b & -> & Hb)].
      * destruct Hbm as [->| ->]; [auto|]. right. exists a. simpl. auto.
      * right. exists b. simpl. auto.
    + injection Hrun as <- <-.
      split; [congruence|]. split; [congruence|]. split; [lia|]. split; [auto|].
      split; discriminate.
Qed.

Lemma variant_deepen_result fuel :
  forall depth state acts p finished p',
    Variant.deepen heuristic fuel depth state acts p = (finished, p') ->
    ((ticks p < fuel)%nat -> finished = true) /\
    _count p' = _count p /\
    ((ticks p <= List.length acts)%nat -> getMove p' = getMove p) /\
    (acts = [] -> (1 <= ticks p)%nat -> (1 <= fuel)%nat -> getMove p' = None) /\
    (getMove p' = getMove p \/ getMove p' = None \/
     exists a, getMove p' = Some a /\ In a acts).
Proof.
  induction fuel as [|fuel IH]; intros depth state acts p finished p' Hrun;
    simpl in Hrun.
  - injection Hrun as <- <-.
    split; [lia|]. split; [reflexivity|]. split; [auto|]. split; [lia|auto].
  - unfold bind at 1 in Hrun. unfold timeRemaining in Hrun.
    destruct (ticks p) as [|k] eqn:Hk; simpl in Hrun.
    { injection Hrun as <- <-.
      split; [auto|]. split; [reflexivity|]. split; [auto|]. split; [lia|auto]. }
    unfold bind at 1 2 3 4, modify in Hrun.
    destruct (Variant.root_loop heuristic (depth - 1) state acts (of_float neg_infinity)
                None (of_int (-10000))
                (bump_nodeCount (bump_parentCount (bump_depthCount (with_ticks k p)))))
      as [r p2] eqn:Hroot.
    apply variant_root_loop_result in Hroot.
    destruct Hroot as (Hmove & Hcount & Hticks & Hshort & Hnil & Hres).
    simpl in Hmove, Hcount, Hticks, Hshort.
    destruct r as [m|].
    + unfold bind at 1 in Hrun. simpl in Hrun. apply IH in Hrun.
      destruct Hrun as (Hfin & Hcnt & _ & _ & Hcases).
      simpl in Hfin, Hcnt, Hcases. unfold getMove in *. simpl in Hcases.
      split; [intros; apply Hfin; lia|]. split; [congruence|].
      split; [intros Hle; assert (Some m = None) by (apply Hshort; lia); discriminate|].
      split.
      * intros -> _ _. specialize (Hnil eq_refl). injection Hnil as ->.
        destruct Hcases as [Hc|[Hc|(a & _ & [])]]; assumption.
      * destruct Hcases as [Hc|[Hc|Hc]]; auto.
        rewrite Hc. destruct (Hres m eq_refl) as [->|(a & -> & Ha)]; eauto.
    + injection Hrun as <- <-. unfold getMove. rewrite Hmove. simpl.
      split; [auto|]. split; [exact Hcount|]. split; [auto|]. split; [|auto].
      intros -> _ _. specialize (Hnil eq_refl). discriminate.
Qed.

(** X17: [findMove] of this class returns and raises [_count] by one,
    and commits a move only at the end of a depth iteration that ran
    over all the actions: with no more ticks than actions it commits
    nothing and the move of the call before stays. The move committed is
    a legal action, or [None] when no action was better than -10000, as
    on a state without actions once a check has passed. *)
Theorem variant_findMove_commits_full_depths_only (state : State) (p : Player) :
  exists p',
    Variant.findMove heuristic state p = Some p' /\
    _count p' = _count p + 1 /\
    ((ticks p <= List.length (actions state))%nat -> getMove p' = getMove p) /\
    (actions state = [] -> (1 <= ticks p)%nat -> getMove p' = None) /\
    (getMove p' = getMove p \/ getMove p' = None \/
     exists a, getMove p' = Some a /\ In a (actions state)).
Proof.
  unfold Variant.findMove.
  destruct (Variant.deepen heuristic (S (ticks (bump_count p))) 1 state
              (Variant.moveOrder state) (bump_count p)) as [finished p'] eqn:Hrun.
  pose proof (variant_moveOrder_perm state) as Hperm.
  apply variant_deepen_result in Hrun.
  destruct Hrun as (Hfin & Hcount & Hshort & Hnone & Hcases).
  rewrite (Hfin (Nat.lt_succ_diag_r _)).
  exists p'. split; [reflexivity|].
  rewrite <- (Permutation_length Hperm) in Hshort.
  change (getMove (bump_count p)) with (getMove p) in *.
  change (ticks (bump_count p)) with (ticks p) in *.
  split; [|split; [exact Hshort|split]].
  - rewrite Hcount. reflexivity.
  - intros Hnil Hp. apply Hnone; [|exact Hp|lia].
    apply Permutation_nil. rewrite <- Hnil. exact Hperm.
  - destruct Hcases as [Hc|[Hc|(a & Ha & Hin)]]; auto.
    right. right. exists a. split; [exact Ha|].
    apply (Permutation_in _ (Permutation_sym Hperm)). exact Hin.
Qed.

End VariantFindMove.

(* ================================================================== *)
(** * The further properties on the example positions *)

Local Open Scope string_scope.

(** [stats_after_findMove] on [opening] with ten ticks, from a new
    player: two depths are searched, eight nodes visited and two
    expanded, and [stats] prints a branching factor of 4. *)
Lemma stats_after_findMove_opening :
  let p := start_clock 10 new_player in
  let p' := mkPlayer 8 2 8 2 1 0 (Some "U") 0 in
  well_counted p /\
  findMove tree_heuristic opening p = Some p' /\
  well_counted p' /\
  0 < _count p' /\
  fst (stats p') = [("Average depth", Qdiv (inject_Z 2) (inject_Z 1));
                    ("Branching factor", Qdiv (inject_Z 8) (inject_Z 2));
                    ("Pruned nodes", inject_Z 0)] /\
  snd (stats p') = None /\
  (snd (stats p') = Some ZeroDivisionError <-> _parentCount p' = 0) /\
  forall label x, In (label, x) (fst (stats p')) ->
    (0 <= x)%Q /\ (label = "Branching factor" -> (1 <= x)%Q).
Proof.
  cbv zeta.
  assert (Hp : well_counted (start_clock 10 new_player))
    by (unfold well_counted; simpl; lia).
  assert (Hrun : findMove tree_heuristic opening (start_clock 10 new_player)
                 = Some (mkPlayer 8 2 8 2 1 0 (Some "U") 0))
    by (vm_compute; reflexivity).
  split; [exact Hp|]. split; [exact Hrun|].
  exact (stats_after_findMove tree_heuristic opening (start_clock 10 new_player)
           (mkPlayer 8 2 8 2 1 0 (Some "U") 0) Hp Hrun).
Defined.

(** [search_stops_only_at_deadline] on [opening] at depth 2 with one
    tick: the search is given up below the first action, and the clock
    has run out. *)
Lemma search_stops_only_at_deadline_opening :
  let run := maxPlayer tree_heuristic 2 opening (of_float neg_infinity)
               (of_float infinity) (start_clock 1 new_player) in
  fst run = None /\ ticks (snd run) = 0%nat.
Proof.
  cbv zeta.
  assert (Hrun : fst (maxPlayer tree_heuristic 2 opening (of_float neg_infinity)
                        (of_float infinity) (start_clock 1 new_player)) = None)
    by (vm_compute; reflexivity).
  split; [exact Hrun|].
  exact (proj1 (search_stops_only_at_deadline tree_heuristic 2 opening
                  (of_float neg_infinity) (of_float infinity) (start_clock 1 new_player))
           Hrun).
Defined.

(** [search_within_the_full_tree] on [opening] at depth 2 with the full
    window and eight ticks: nothing is cut off, and the search visits
    the nine nodes of the tree and expands its four inner ones. *)
Lemma search_within_the_full_tree_opening :
  let p := start_clock 8 new_player in
  let run := maxPlayer tree_heuristic 2 opening (of_float neg_infinity)
               (of_float infinity) p in
  max_checks (V := pyvalue) 2 opening = 8%nat /\
  max_expanded (V := pyvalue) 2 opening = 4%nat /\
  _pruneCount (snd run) = _pruneCount p /\
  _nodeCount (snd run) - _nodeCount p = 1 + Z.of_nat (max_checks (V := pyvalue) 2 opening) /\
  _parentCount (snd run) - _parentCount p = Z.of_nat (max_expanded (V := pyvalue) 2 opening).
Proof.
  cbv zeta.
  assert (Hvalue : fst (maxPlayer tree_heuristic 2 opening (of_float neg_infinity)
                          (of_float infinity) (start_clock 8 new_player)) <> None)
    by (vm_compute; discriminate).
  assert (Hprune : _pruneCount (snd (maxPlayer tree_heuristic 2 opening
                      (of_float neg_infinity) (of_float infinity) (start_clock 8 new_player)))
                   = _pruneCount (start_clock 8 new_player))
    by (vm_compute; reflexivity).
  split; [vm_compute; reflexivity|]. split; [vm_compute; reflexivity|].
  split; [exact Hprune|].
  exact (proj2 (proj2 (proj1 (search_within_the_full_tree tree_heuristic 2 opening
                                (of_float neg_infinity) (of_float infinity)
                                (start_clock 8 new_player))))
           Hvalue Hprune).
Defined.

(** [iteration_commits_first_best] on [opening] at depth 2 with eight
    ticks: of ['U'], ['L'] and ['R'], in this order, the last has the
    largest value and is committed. *)
Lemma iteration_commits_first_best_opening :
  let p := start_clock 8 new_player in
  let acts := moveOrder (V := pyvalue) opening in
  let p' := snd (depth_iteration tree_heuristic 2 opening acts p) in
  let value a := minFull tree_heuristic (2 - 1) (move opening a) in
  (root_checks (V := pyvalue) (2 - 1) opening acts <= ticks p)%nat /\
  acts = ["U"; "L"; "R"] /\
  getMove p' = Some "R" /\
  ((getMove p' = getMove p /\
    forall b, In b acts -> changes_board opening b = true ->
      ltb (of_int (-10000)) (value b) = false) \/
   (exists l1 a l2,
      acts = (l1 ++ a :: l2)%list /\ getMove p' = Some a /\
      changes_board opening a = true /\
      ltb (of_int (-10000)) (value a) = true /\
      (forall b, In b l1 -> changes_board opening b = true ->
         ltb (value b) (value a) = true) /\
      (forall b, In b l2 -> changes_board opening b = true ->
         ltb (value a) (value b) = false))).
Proof.
  cbv zeta.
  assert (Hticks : (root_checks (V := pyvalue) (2 - 1) opening (moveOrder (V := pyvalue) opening)
                    <= ticks (start_clock 8 new_player))%nat)
    by (vm_compute; repeat constructor).
  split; [exact Hticks|]. split; [vm_compute; reflexivity|].
  split; [vm_compute; reflexivity|].
  exact (iteration_commits_first_best tree_heuristic 2 opening
           (moveOrder (V := pyvalue) opening) (start_clock 8 new_player) Hticks).
Defined.

(** [expanded_node_value_is_capped] on [late_game] at depth 2: every
    final score below it is 3932160, and both kinds of node return
    [1e6]. *)
Lemma expanded_node_value_is_capped_late_game :
  gameOver late_game = false /\
  fst (maxPlayer tree_heuristic 2 late_game (of_float neg_infinity) (of_float infinity)
         (start_clock 10 new_player)) = Some (of_float 1e6) /\
  ltb (of_float 1e6 : pyvalue) (of_int (-10000)) = false /\
  fst (minPlayer tree_heuristic 2 late_game (of_float neg_infinity) (of_float infinity)
         (start_clock 10 new_player)) = Some (of_float 1e6) /\
  ltb (of_float 1e6 : pyvalue) (of_float 1e6) = false.
Proof.
  assert (Hover : gameOver late_game = false) by reflexivity.
  assert (Hmax : fst (maxPlayer tree_heuristic 2 late_game (of_float neg_infinity)
                        (of_float infinity) (start_clock 10 new_player))
                 = Some (of_float 1e6)) by (vm_compute; reflexivity).
  assert (Hmin : fst (minPlayer tree_heuristic 2 late_game (of_float neg_infinity)
                        (of_float infinity) (start_clock 10 new_player))
                 = Some (of_float 1e6)) by (vm_compute; reflexivity).
  pose proof (expanded_node_value_is_capped tree_heuristic 1 late_game
                (of_float neg_infinity) (of_float infinity) (start_clock 10 new_player)
                (of_float 1e6) Hover) as Hcap.
  split; [exact Hover|]. split; [exact Hmax|]. split; [exact (proj1 Hcap Hmax)|].
  split; [exact Hmin|exact (proj2 Hcap Hmin)].
Defined.

(** [run_game_plays_to_the_end] on a game that starts from [late_game],
    with ten ticks for every move: the one move made ends the game. *)
Lemma run_game_plays_to_the_end_late_game :
  let r := Runner.mkGameResult 3932160 17 1 in
  let agent' := mkPlayer 7 2 7 3 1 1 (Some "L") 0 in
  Runner.run_game tree_heuristic tree_result (fun _ => late_game) (fun _ => 10%nat)
    5 0 0 new_player = Runner.Returned (r, agent', 1%nat) /\
  0 <= Runner.moves r <= Z.of_nat 5 /\
  _count agent' = _count new_player + Runner.moves r /\
  Z.of_nat 1 = Z.of_nat 0 + Runner.moves r /\
  (Runner.moves r = 0 <-> gameOver late_game = true) /\
  (well_counted new_player -> well_counted agent') /\
  exists final,
    gameOver final = true /\ Runner.score r = getScore final /\
    Runner.py_max (_board final) = Runner.Returned (Runner.max_tile r).
Proof.
  cbv zeta.
  assert (Hrun : Runner.run_game tree_heuristic tree_result (fun _ => late_game)
                   (fun _ => 10%nat) 5 0 0 new_player
                 = Runner.Returned (Runner.mkGameResult 3932160 17 1,
                                    mkPlayer 7 2 7 3 1 1 (Some "L") 0, 1%nat))
    by (vm_compute; reflexivity).
  split; [exact Hrun|].
  exact (run_game_plays_to_the_end tree_heuristic tree_result (fun _ => late_game)
           (fun _ => 10%nat) 5 0 0 new_player _ _ _ Hrun).
Defined.

(** [evaluate_agent_summary] on three games, the first from [late_game]
    and the others over before they start: two games end with a largest
    tile of 4 and one with 131072. *)
Lemma evaluate_agent_summary_three_games :
  let randomize i := if Nat.eqb i 0 then late_game else game_over in
  let s := Runner.mkSummary
             [("Average depth", 3%Q); ("Branching factor", 7 # 2); ("Pruned nodes", 1%Q)]
             3 (3932360 # 3) 3932160 (1 # 3)
             [(4, 2, 66.666666666666657%float); (131072, 1, 33.333333333333329%float)] in
  Runner.evaluate_agent tree_heuristic tree_result randomize (fun _ => 10%nat) 5 3
    = Runner.Returned s /\
  0 < 3 /\
  Runner.games_played s = 3 /\
  List.length (Runner.agent_stats s) = 3%nat /\
  (forall label x, In (label, x) (Runner.agent_stats s) ->
     (0 <= x)%Q /\ (label = "Branching factor" -> (1 <= x)%Q)) /\
  counts_total (map fst (Runner.distribution s)) = 3 /\
  ascending_keys (map fst (Runner.distribution s)) /\
  Forall (fun item => 0 < snd item) (map fst (Runner.distribution s)).
Proof.
  cbv zeta.
  match goal with
  | |- ?run = ?done /\ _ => assert (Hrun : run = done) by (vm_compute; reflexivity)
  end.
  split; [exact Hrun|].
  exact (evaluate_agent_summary tree_heuristic tree_result
           (fun i => if Nat.eqb i 0 then late_game else game_over) (fun _ => 10%nat)
           5 3 _ Hrun).
Defined.

(** [evaluate_agent_needs_an_expanded_node] on two games from
    [late_game] with a time limit of zero: both are played, each move
    being the first of [moveOrder], and [stats] fails. *)
Lemma evaluate_agent_needs_an_expanded_node_late_game :
  (forall k : nat, ((fun _ => 0) k <= 1)%nat) /\
  Runner.evaluate_agent tree_heuristic tree_result (fun _ => late_game) (fun _ => 0%nat) 5 2
    = Runner.Raised (Runner.Arithmetic ZeroDivisionError) /\
  (Runner.evaluate_agent tree_heuristic tree_result (fun _ => late_game) (fun _ => 0%nat) 5 2
     = Runner.Unfinished \/
   Runner.evaluate_agent tree_heuristic tree_result (fun _ => late_game) (fun _ => 0%nat) 5 2
     = Runner.Raised Runner.ValueError \/
   Runner.evaluate_agent tree_heuristic tree_result (fun _ => late_game) (fun _ => 0%nat) 5 2
     = Runner.Raised (Runner.Arithmetic ZeroDivisionError)).
Proof.
  assert (Hbudget : forall k : nat, ((fun _ => 0) k <= 1)%nat) by (intros k; simpl; lia).
  split; [exact Hbudget|]. split; [vm_compute; reflexivity|].
  exact (evaluate_agent_needs_an_expanded_node tree_heuristic tree_result
           (fun _ => late_game) (fun _ => 0%nat) 5 2 Hbudget).
Defined.

(** [variant_empty_tile_value_is_16] on [opening] and ['L'], where the
    score after the move is 4 and fifteen cells are empty, and on
    [late_game] and ['L'], where the largest tile is [2^17], the score is
    3932160 and one cell is empty: the code adds 16 for it, the
    specification [2^14]. *)
Lemma variant_empty_tile_value_is_16_examples :
  (0 <= Evaluator.max_tile (_board opening) <= 128 /\
   Variant.total_score (V := pyvalue) opening "L" = Variant.Int 244 /\
   (orderingScore opening "L" == inject_Z 244)%Q) /\
  (0 <= Evaluator.max_tile (_board late_game) <= 128 /\
   Variant.empty_tile_value (V := pyvalue) late_game = Variant.Int 16 /\
   Variant.total_score (V := pyvalue) late_game "L" = Variant.Int 3932176 /\
   (orderingScore late_game "L" == inject_Z 3948544)%Q).
Proof.
  assert (Hopening : 0 <= Evaluator.max_tile (_board opening) <= 128)
    by (vm_compute; split; discriminate).
  assert (Hlate : 0 <= Evaluator.max_tile (_board late_game) <= 128)
    by (vm_compute; split; discriminate).
  assert (Hlow : Evaluator.max_tile (_board opening) <= 7) by (vm_compute; discriminate).
  assert (Hhigh : 8 <= Evaluator.max_tile (_board late_game)) by (vm_compute; discriminate).
  split.
  - split; [exact Hopening|].
    destruct (variant_empty_tile_value_is_16 opening "L" Hopening) as (_ & Hcode & Hspec & _).
    split; [exact Hcode|exact (Hspec Hlow)].
  - split; [exact Hlate|].
    destruct (variant_empty_tile_value_is_16 late_game "L" Hlate) as (Hvalue & Hcode & _ & Hspec).
    split; [exact Hvalue|]. split; [exact Hcode|exact (proj2 (Hspec Hhigh))].
Defined.

(** [variant_corner_anchoring_needs_a_corner] on [full_board]: the
    largest tile stands in the corner cell 3, and in cell 1 before it,
    which is the cell looked at; the bonus is 0. *)
Lemma variant_corner_anchoring_needs_a_corner_full_board :
  List.length full_board = 16%nat /\
  Variant.index full_board (Evaluator.max_tile full_board) = 1%nat /\
  max_in_corner full_board = true /\
  (Variant.corner_anchoring full_board = 0 <->
   ~ In (Variant.index full_board (Evaluator.max_tile full_board)) [0; 3; 12; 15]%nat).
Proof.
  assert (Hlen : List.length full_board = 16%nat) by reflexivity.
  split; [exact Hlen|]. split; [reflexivity|]. split; [reflexivity|].
  exact (proj1 (variant_corner_anchoring_needs_a_corner full_board Hlen)).
Defined.

(** With three ticks on [opening], which has three actions, [findMove]
    of this class commits nothing; with four it commits ['U']. *)
Example variant_findMove_without_commit :
  option_map getMove
    (Variant.findMove Variant.heuristic_value opening (start_clock 3 new_player))
    = Some (None : option Action) /\
  option_map getMove
    (Variant.findMove (V := pyvalue) Variant.heuristic_value opening
       (start_clock 4 new_player))
    = Some (Some "U").
Proof. vm_compute. split; reflexivity. Qed.

(** [gradient_score_below_its_cap] on [late_board], which holds the
    exponents 17 down to 3. *)
Lemma gradient_score_below_its_cap_late_board :
  exponent_board late_board /\
  Evaluator.tile_gradient_score late_board
    = (Evaluator.weighted_sum late_board / (float_of_int 2048 * 4.0))%float /\
  (0 <=? Evaluator.tile_gradient_score late_board)%float = true /\
  (Evaluator.tile_gradient_score late_board <? 0.05)%float = true.
Proof.
  assert (Hboard : exponent_board late_board)
    by (split; [reflexivity|repeat (constructor; [lia|]); constructor]).
  split; [exact Hboard|].
  exact (gradient_score_below_its_cap late_board Hboard).
Defined.

(** [heuristic_zero_at_score_zero] on the board of [opening] after
    ['U']: its score is 0, and so is its evaluation. *)
Lemma heuristic_zero_at_score_zero_after_up :
  exponent_board after_up /\
  getScore (move opening "U") = 0 /\
  Evaluator.heuristic after_up 0 = 0%float.
Proof.
  assert (Hboard : exponent_board after_up)
    by (split; [reflexivity|repeat (constructor; [lia|]); constructor]).
  split; [exact Hboard|]. split; [reflexivity|].
  exact (heuristic_zero_at_score_zero after_up Hboard).
Defined.

Local Close Scope string_scope.
